(** * Complex dense and diagonal matrices of gonum/mat: CDense arithmetic
    (Add, Sub, Mul, Scale) and DiagCDense, embedded over an explicit store.

    Go values are modelled as the code has them:
    - [complex128] is a pair of IEEE binary64 numbers (the kernel's floats);
    - a slice is a window (array, offset, len, cap) on a backing array of the
      store, so that two matrices may share storage;
    - [*CDense] and [*DiagCDense] are addresses of structs in the store;
    - a panic carries the store as it was when the panic was raised. *)

From Stdlib Require Import Floats ZArith Lia.
From stdpp Require Import base option list strings.

#[local] Open Scope nat_scope.

(** ** complex128 *)

Record complex128 := Cx { re : float; im : float }.

Definition czero : complex128 := Cx 0%float 0%float.
Definition cone : complex128 := Cx 1%float 0%float.

Definition cadd (x y : complex128) : complex128 :=
  Cx (re x + re y)%float (im x + im y)%float.
Definition csub (x y : complex128) : complex128 :=
  Cx (re x - re y)%float (im x - im y)%float.
Definition cmul (x y : complex128) : complex128 :=
  Cx (re x * re y - im x * im y)%float (re x * im y + im x * re y)%float.
Definition cconj (x : complex128) : complex128 :=
  Cx (re x) (- im x)%float.

(** ** Panics *)

Inductive Err : Type :=
| ErrShape                  (* mat.ErrShape *)
| ErrZeroLength             (* mat.ErrZeroLength *)
| ErrRowAccess              (* mat.ErrRowAccess *)
| ErrColAccess              (* mat.ErrColAccess *)
| PanicMsg (msg : string)   (* panic("...") with a plain string *)
| RuntimeError.             (* index out of range, nil dereference *)

(** ** Slices and the cblas128 structs *)

(** Addresses of backing arrays and of structs are indices into the store. *)
Abbreviation addr := nat (only parsing).

Inductive slice : Type :=
| nilSlice
| Slice (arr : addr) (off len cap : nat).

Definition len (s : slice) : nat :=
  match s with nilSlice => 0 | Slice _ _ l _ => l end.
Definition cap (s : slice) : nat :=
  match s with nilSlice => 0 | Slice _ _ _ c => c end.
Definition isNil (s : slice) : bool :=
  match s with nilSlice => true | Slice _ _ _ _ => false end.

(** [s[lo:hi]]; the bounds [lo <= hi <= cap s] are checked by the caller. *)
Definition reslice (s : slice) (lo hi : nat) : slice :=
  match s with
  | nilSlice => nilSlice
  | Slice a off _ c => Slice a (off + lo) (hi - lo) (c - lo)
  end.

Module General.
  (** cblas128.General *)
Record t := mk { Rows : nat; Cols : nat; Stride : nat; Data : slice }.
Definition zero : t := mk 0 0 0 nilSlice.
End General.

Module Vector.
  (** cblas128.Vector *)
Record t := mk { N : nat; Data : slice; Inc : nat }.
Definition zero : t := mk 0 nilSlice 0.
End Vector.

Module Band.
  (** cblas128.Band *)
Record t := mk { Rows : nat; Cols : nat; KL : nat; KU : nat;
                   Stride : nat; Data : slice }.
End Band.

(** blas.Transpose *)
Inductive Transpose := NoTrans | Trans | ConjTrans.

Module CDense.
  (** Modelled from the spec: the struct CDense is not among the sources; a
      dense matrix owns a strided row-major buffer (section 3). *)
Record t := mk { mat : General.t }.
Definition zero : t := mk General.zero.
End CDense.

Module DiagCDense.
Record t := mk { mat : Vector.t }.
Definition zero : t := mk Vector.zero.
End DiagCDense.

(** ** The store *)

Record Heap := mkHeap {
  arrays : list (list complex128);   (* backing arrays *)
  cdenses : list CDense.t;           (* the CDense structs, by address *)
  cdiags : list DiagCDense.t         (* the DiagCDense structs, by address *)
}.

Definition emptyHeap : Heap := mkHeap [] [] [].

Abbreviation ptr := nat (only parsing).

(** The interface CMatrix with its implementations: pointers to the two
    concrete types, the two view wrappers, and any other implementation,
    given by its dimensions and its entries. *)
Inductive CMatrix : Type :=
| PDense (p : ptr)
| PDiag (p : ptr)
| CTranspose (u : CMatrix)
| ConjTranspose (u : CMatrix)
| Foreign (r c : nat) (f : nat -> nat -> complex128).

(** ** The state and panic monad *)

Inductive Res (A : Type) : Type :=
| Ok (a : A) (h : Heap)
| Panic (e : Err) (h : Heap).
Arguments Ok {A} a h.
Arguments Panic {A} e h.

Definition M (A : Type) : Type := Heap -> Res A.

Definition ret {A} (a : A) : M A := fun h => Ok a h.
Definition bind {A B} (x : M A) (k : A -> M B) : M B :=
  fun h => match x h with
           | Ok a h' => k a h'
           | Panic e h' => Panic e h'
           end.
Definition panic {A} (e : Err) : M A := fun h => Panic e h.
Definition gets {A} (f : Heap -> A) : M A := fun h => Ok (f h) h.
Definition modify (f : Heap -> Heap) : M unit := fun h => Ok tt (f h).

Declare Scope go_scope.
Delimit Scope go_scope with go.
Notation "x <- c1 ;; c2" := (bind c1 (fun x => c2))
  (at level 20, c1 at level 99, c2 at level 200, only parsing) : go_scope.
Notation "' pat <- c1 ;; c2" := (bind c1 (fun x => match x with pat => c2 end))
  (at level 20, pat pattern, c1 at level 99, c2 at level 200, only parsing) : go_scope.
Notation "c1 ;; c2" := (bind c1 (fun _ => c2))
  (at level 100, c2 at level 200, only parsing, right associativity) : go_scope.
#[local] Open Scope go_scope.

(** [defer restore(); body]: the deferred call runs when the body returns
    and also when it panics; a panic of the deferred call replaces the
    pending one. *)
Definition defer {A} (restore : M unit) (body : M A) : M A :=
  fun h => match body h with
           | Ok a h' => match restore h' with
                        | Ok _ h'' => Ok a h''
                        | Panic e h'' => Panic e h''
                        end
           | Panic e h' => match restore h' with
                           | Ok _ h'' => Panic e h''
                           | Panic e' h'' => Panic e' h''
                           end
           end.

(** [for i := i0; i < i0 + n; i++ { body i }] *)
Fixpoint forRange (n i0 : nat) (body : nat -> M unit) : M unit :=
  match n with
  | 0 => ret tt
  | S k => body i0 ;; forRange k (S i0) body
  end.

(** ** Reading and writing through slices *)

Definition getDense (h : Heap) (p : ptr) : CDense.t :=
  default CDense.zero (cdenses h !! p).
Definition getDiag (h : Heap) (p : ptr) : DiagCDense.t :=
  default DiagCDense.zero (cdiags h !! p).

Definition denseMat (p : ptr) : M General.t :=
  gets (fun h => CDense.mat (getDense h p)).
Definition diagMat (p : ptr) : M Vector.t :=
  gets (fun h => DiagCDense.mat (getDiag h p)).

Definition setDenseMat (p : ptr) (g : General.t) : M unit :=
  modify (fun h => mkHeap (arrays h) (<[p := CDense.mk g]> (cdenses h)) (cdiags h)).
Definition setDiagMat (p : ptr) (v : Vector.t) : M unit :=
  modify (fun h => mkHeap (arrays h) (cdenses h) (<[p := DiagCDense.mk v]> (cdiags h))).

(** [s[i]] as a value of the store [h]. *)
Definition sliceGet (h : Heap) (s : slice) (i : nat) : option complex128 :=
  match s with
  | nilSlice => None
  | Slice a off l _ =>
      if i <? l then arrays h !! a ≫= fun L => L !! (off + i) else None
  end.

Definition readSlice (s : slice) (i : nat) : M complex128 :=
  fun h => match sliceGet h s i with
           | Some v => Ok v h
           | None => Panic RuntimeError h
           end.

Definition storeAt (a : addr) (i : nat) (v : complex128) (h : Heap) : Heap :=
  mkHeap (alter (fun L => <[i := v]> L) a (arrays h)) (cdenses h) (cdiags h).

(** [s[i] = v] *)
Definition writeSlice (s : slice) (i : nat) (v : complex128) : M unit :=
  fun h => match s with
           | nilSlice => Panic RuntimeError h
           | Slice a off l _ =>
               if i <? l then
                 match arrays h !! a ≫= fun L => L !! (off + i) with
                 | Some _ => Ok tt (storeAt a (off + i) v h)
                 | None => Panic RuntimeError h
                 end
               else Panic RuntimeError h
           end.

(** [make([]complex128, l)]: a new zero-filled backing array. *)
Definition make (l : nat) : M slice :=
  fun h => Ok (Slice (length (arrays h)) 0 l l)
              (mkHeap (arrays h ++ [replicate l czero]) (cdenses h) (cdiags h)).

(** Modelled from the spec: the helper useC is not among the sources; an
    empty receiver is resized reusing its buffer when the capacity allows
    and allocating a zero-filled one otherwise (sections 3 and 4.3). *)
Definition useC (c : slice) (l : nat) : M slice :=
  if l <=? cap c then ret (reslice c 0 l) else make l.

(** [s[lo:hi]] with its run-time bounds check against the capacity. *)
Definition sliceExpr (s : slice) (lo hi : nat) : M slice :=
  if (lo <=? hi) && (hi <=? cap s) then ret (reslice s lo hi)
  else panic RuntimeError.

(** [for i, v := range s { body i v }] *)
Definition rangeSlice (s : slice) (body : nat -> complex128 -> M unit) : M unit :=
  forRange (len s) 0 (fun i => v <- readSlice s i ;; body i v).

(** [for s := s0; cond s; s = post s { body s }].  The trip count of every
    loop of the sources is bounded by a dimension, given as [fuel]; the loop
    rules below show that the loops leave through their condition. *)
Fixpoint forLoop {S : Type} (fuel : nat) (cond : S -> bool) (post : S -> M S)
    (body : S -> M unit) (s : S) : M unit :=
  match fuel with
  | 0 => ret tt
  | S k =>
      if cond s then
        body s ;; s' <- post s ;; forLoop k cond post body s'
      else ret tt
  end.

(** ** The matrix abstraction: Dims, At, T, H *)

Fixpoint DimsOf (h : Heap) (a : CMatrix) : nat * nat :=
  match a with
  | PDense p => let g := CDense.mat (getDense h p) in (General.Rows g, General.Cols g)
  | PDiag p => let v := DiagCDense.mat (getDiag h p) in (Vector.N v, Vector.N v)
  | CTranspose u | ConjTranspose u => let '(r, c) := DimsOf h u in (c, r)
  | Foreign r c _ => (r, c)
  end.

Definition Dims (a : CMatrix) : M (nat * nat) := gets (fun h => DimsOf h a).

(** Modelled from the spec: the accessors at and set of CDense are not among
    the sources; entry (i, j) lives at [i*Stride + j] of the buffer, and an
    index outside the dimensions panics. *)
Definition CDense_at (m : ptr) (i j : nat) : M complex128 :=
  g <- denseMat m ;;
  if General.Rows g <=? i then panic ErrRowAccess
  else if General.Cols g <=? j then panic ErrColAccess
  else readSlice (General.Data g) (i * General.Stride g + j).

Definition CDense_set (m : ptr) (i j : nat) (v : complex128) : M unit :=
  g <- denseMat m ;;
  if General.Rows g <=? i then panic ErrRowAccess
  else if General.Cols g <=? j then panic ErrColAccess
  else writeSlice (General.Data g) (i * General.Stride g + j) v.

(** Modelled from the spec: At and setDiag of DiagCDense are not among the
    sources; off-diagonal entries are zero and entry (i, i) lives at
    [i*Inc] of the vector. *)
Definition DiagCDense_At (d : ptr) (i j : nat) : M complex128 :=
  v <- diagMat d ;;
  if Vector.N v <=? i then panic ErrRowAccess
  else if Vector.N v <=? j then panic ErrColAccess
  else if negb (i =? j) then ret czero
  else readSlice (Vector.Data v) (i * Vector.Inc v).

Definition DiagCDense_setDiag (d : ptr) (i : nat) (x : complex128) : M unit :=
  v <- diagMat d ;;
  if Vector.N v <=? i then panic ErrRowAccess
  else writeSlice (Vector.Data v) (i * Vector.Inc v) x.

Fixpoint At (a : CMatrix) (i j : nat) : M complex128 :=
  match a with
  | PDense p => CDense_at p i j
  | PDiag p => DiagCDense_At p i j
  | CTranspose u => At u j i
  | ConjTranspose u => z <- At u j i ;; ret (cconj z)
  | Foreign _ _ f => ret (f i j)
  end.

(** Modelled from the spec: T of CDense returns a transposed view. *)
Definition CDense_T (m : ptr) : CMatrix := CTranspose (PDense m).

(** Modelled from the spec: a transposed or conjugated view is peeled off and
    reported as a flag; the function untransposeExtractCmplx is not among the
    sources. *)
Definition untransposeExtractCmplx (a : CMatrix) : CMatrix * bool * bool :=
  match a with
  | CTranspose u =>
      match u with
      | ConjTranspose v => (v, true, true)
      | _ => (u, true, false)
      end
  | ConjTranspose u =>
      match u with
      | CTranspose v => (v, true, true)
      | _ => (u, false, true)
      end
  | _ => (a, false, false)
  end.

(** [m == aU] for a [*CDense] receiver and an interface value. *)
Definition isPtr (m : ptr) (a : CMatrix) : bool :=
  match a with PDense p => p =? m | _ => false end.

(** ** CDense: resizing, overlap, workspace, copy *)

Definition CDense_IsEmpty (m : ptr) : M bool :=
  g <- denseMat m ;; ret (General.Stride g =? 0).

(** Modelled from the spec: reuseAsNonZeroed of CDense is not among the
    sources; an empty receiver is resized to r x c, a non-empty one must be
    r x c already (sections 3, 4.2, 7 and 8), as its sibling on DiagCDense
    below does. *)
Definition CDense_reuseAsNonZeroed (m : ptr) (r c : nat) : M unit :=
  if (r =? 0) || (c =? 0) then panic ErrZeroLength
  else
    e <- CDense_IsEmpty m ;;
    if e then
      g <- denseMat m ;;
      d <- useC (General.Data g) (r * c) ;;
      setDenseMat m (General.mk r c c d)
    else
      g <- denseMat m ;;
      if negb (r =? General.Rows g) || negb (c =? General.Cols g)
      then panic ErrShape
      else ret tt.

(** Modelled from the spec (section 4.1): two storage ranges are identical
    when they are the same range, and overlap when they intersect without
    being identical; checkOverlap only decides, it raises nothing. *)
Definition identical (s1 s2 : slice) : bool :=
  match s1, s2 with
  | Slice a1 o1 l1 _, Slice a2 o2 l2 _ => (a1 =? a2) && (o1 =? o2) && (l1 =? l2)
  | _, _ => false
  end.

Definition intersect (s1 s2 : slice) : bool :=
  match s1, s2 with
  | Slice a1 o1 l1 _, Slice a2 o2 l2 _ =>
      (a1 =? a2) && (o1 <? o2 + l2) && (o2 <? o1 + l1)
  | _, _ => false
  end.

Definition CDense_checkOverlap (m : ptr) (a : General.t) : M bool :=
  g <- denseMat m ;;
  ret (intersect (General.Data g) (General.Data a)
       && negb (identical (General.Data g) (General.Data a))).

Definition CDense_checkOverlapMatrix (m : ptr) (a : CMatrix) : M bool :=
  match a with
  | PDense p =>
      if p =? m then ret false
      else g <- denseMat p ;; CDense_checkOverlap m g
  | _ => ret false
  end.

(** Modelled from the spec (sections 3 and 4.1): copy_from copies element by
    element through At and set. *)
Definition CDense_Copy (m : ptr) (a : CMatrix) : M (nat * nat) :=
  '(r, c) <- Dims a ;;
  g <- denseMat m ;;
  let r := r `min` General.Rows g in
  let c := c `min` General.Cols g in
  forRange r 0 (fun i =>
    forRange c 0 (fun j =>
      v <- At a i j ;; CDense_set m i j v)) ;;
  ret (r, c).

Definition newCDense (g : General.t) : M ptr :=
  fun h => Ok (length (cdenses h))
              (mkHeap (arrays h) (cdenses h ++ [CDense.mk g]) (cdiags h)).

(** Modelled from the spec (sections 3 and 4.1): the workspace is a fresh
    dense matrix of the shape of the argument, with the zero entries of a
    fresh allocation (the spec leaves its initial entries open); restore
    copies it into the receiver. *)
Definition CDense_isolatedWorkspace (m : ptr) (a : CMatrix) : M (ptr * M unit) :=
  '(r, c) <- Dims a ;;
  d <- make (r * c) ;;
  w <- newCDense (General.mk r c c d) ;;
  ret (w, (CDense_Copy m (PDense w) ;; ret tt)).

(** ** The kernel layer *)

(** Entry (i, l) of op(A). *)
Definition opGet (t : Transpose) (A : General.t) (i l : nat) : M complex128 :=
  match t with
  | NoTrans => readSlice (General.Data A) (i * General.Stride A + l)
  | Trans => readSlice (General.Data A) (l * General.Stride A + i)
  | ConjTrans =>
      z <- readSlice (General.Data A) (l * General.Stride A + i) ;; ret (cconj z)
  end.

Definition opDims (t : Transpose) (A : General.t) : nat * nat :=
  match t with
  | NoTrans => (General.Rows A, General.Cols A)
  | _ => (General.Cols A, General.Rows A)
  end.

(** The sum over l in [l0, l0 + k) of op(A)(i, l) * op(B)(l, j), added to
    [acc]. *)
Fixpoint dot (k l0 : nat) (tA tB : Transpose) (A B : General.t) (i j : nat)
    (acc : complex128) : M complex128 :=
  match k with
  | 0 => ret acc
  | S k' =>
      x <- opGet tA A i l0 ;;
      y <- opGet tB B l0 j ;;
      dot k' (S l0) tA tB A B i j (cadd acc (cmul x y))
  end.

(** Modelled from the spec (sections 2 and 6): cblas128.Gemm is an external
    collaborator computing C := alpha*op(A)*op(B) + beta*C. *)
Definition Gemm (tA tB : Transpose) (alpha : complex128) (A B : General.t)
    (beta : complex128) (C : General.t) : M unit :=
  let '(m, k) := opDims tA A in
  let '(k', n) := opDims tB B in
  if negb (k =? k') || negb (General.Rows C =? m) || negb (General.Cols C =? n)
  then panic (PanicMsg "blas: dimension mismatch")
  else
    forRange m 0 (fun i =>
      forRange n 0 (fun j =>
        s <- dot k 0 tA tB A B i j czero ;;
        c <- readSlice (General.Data C) (i * General.Stride C + j) ;;
        writeSlice (General.Data C) (i * General.Stride C + j)
          (cadd (cmul alpha s) (cmul beta c)))).

(** Modelled from the spec (sections 2 and 6): cblas128.Copy is the strided
    vector copy of the kernel layer, from x into y. *)
Definition Copy (x y : Vector.t) : M unit :=
  forRange (Vector.N x) 0 (fun i =>
    v <- readSlice (Vector.Data x) (i * Vector.Inc x) ;;
    writeSlice (Vector.Data y) (i * Vector.Inc y) v).

(** ** CDense arithmetic *)

Section Elementwise.
  (** Add and Sub are the same function up to the operation on the entries:
      [op] is [+] in Add and [-] in Sub. *)
Variable op : complex128 -> complex128 -> complex128.

  (** The loop over the rows of two plain dense operands. *)
Definition denseRows (m : ptr) (ar ac : nat) (amat bmat : General.t) : M unit :=
    forLoop ar
      (fun '(ja, jb, jm) => ja <? ar * General.Stride amat)
      (fun '(ja, jb, jm) =>
         g <- denseMat m ;;
         ret (ja + General.Stride amat, jb + General.Stride bmat,
              jm + General.Stride g))
      (fun '(ja, jb, jm) =>
         row <- sliceExpr (General.Data amat) ja (ja + ac) ;;
         rangeSlice row (fun i v =>
           w <- readSlice (General.Data bmat) (i + jb) ;;
           g <- denseMat m ;;
           writeSlice (General.Data g) (i + jm) (op v w)))
      (0, 0, 0).

  (** The loop of the generic path. *)
Definition genericCells (m : ptr) (ar ac : nat) (a b : CMatrix) : M unit :=
    forRange ar 0 (fun r =>
      forRange ac 0 (fun c =>
        x <- At a r c ;;
        y <- At b r c ;;
        CDense_set m r c (op x y))).

Definition elementwise (m : ptr) (a b : CMatrix) : M unit :=
    '(ar, ac) <- Dims a ;;
    '(br, bc) <- Dims b ;;
    if negb (ar =? br) || negb (ac =? bc) then panic ErrShape
    else
      let '(aU, aTrans, _) := untransposeExtractCmplx a in
      let '(bU, bTrans, _) := untransposeExtractCmplx b in
      CDense_reuseAsNonZeroed m ar ac ;;
      match a, b with
      | PDense arm, PDense brm =>
          amat <- denseMat arm ;;
          bmat <- denseMat brm ;;
          (if negb (isPtr m aU) then _ <- CDense_checkOverlap m amat ;; ret tt
           else ret tt) ;;
          (if negb (isPtr m bU) then _ <- CDense_checkOverlap m bmat ;; ret tt
           else ret tt) ;;
          denseRows m ar ac amat bmat
      | _, _ =>
          _ <- CDense_checkOverlapMatrix m aU ;;
          _ <- CDense_checkOverlapMatrix m bU ;;
          if aTrans && isPtr m aU then
            '(w, restore) <- CDense_isolatedWorkspace m aU ;;
            defer restore (genericCells w ar ac a b)
          else if bTrans && isPtr m bU then
            '(w, restore) <- CDense_isolatedWorkspace m bU ;;
            defer restore (genericCells w ar ac a b)
          else genericCells m ar ac a b
      end.
End Elementwise.

Definition CDense_Add (m : ptr) (a b : CMatrix) : M unit := elementwise cadd m a b.
Definition CDense_Sub (m : ptr) (a b : CMatrix) : M unit := elementwise csub m a b.

(** The part of Mul after the workspace has been chosen; [restoreNil] is
    [restore == nil]. *)
Definition mulKernel (m : ptr) (restoreNil : bool) (aU bU : CMatrix)
    (aT bT : Transpose) : M unit :=
  match aU with
  | PDense pa =>
      (if restoreNil then
         ga <- denseMat pa ;; _ <- CDense_checkOverlap m ga ;; ret tt
       else ret tt) ;;
      match bU with
      | PDense pb =>
          (if restoreNil then
             gb <- denseMat pb ;; _ <- CDense_checkOverlap m gb ;; ret tt
           else ret tt) ;;
          ga <- denseMat pa ;;
          gb <- denseMat pb ;;
          gm <- denseMat m ;;
          Gemm aT bT cone ga gb czero gm
      | _ => ret tt
      end
  | _ => ret tt
  end.

Definition CDense_Mul (m : ptr) (a b : CMatrix) : M unit :=
  '(ar, ac) <- Dims a ;;
  '(br, bc) <- Dims b ;;
  if negb (ac =? br) then panic ErrShape
  else
    let '(aU, aTrans, _) := untransposeExtractCmplx a in
    let '(bU, bTrans, _) := untransposeExtractCmplx b in
    CDense_reuseAsNonZeroed m ar bc ;;
    let aT := if aTrans then Trans else NoTrans in
    let bT := if bTrans then Trans else NoTrans in
    if isPtr m aU then
      '(w, restore) <- CDense_isolatedWorkspace m aU ;;
      defer restore (mulKernel w false aU bU aT bT)
    else if isPtr m bU then
      '(w, restore) <- CDense_isolatedWorkspace m bU ;;
      defer restore (mulKernel w false aU bU aT bT)
    else mulKernel m true aU bU aT bT.

(** The two strided loops of Scale over a plain dense operand. *)
Definition scaleRows (m : ptr) (f : complex128) (ar ac : nat) (amat : General.t)
    : M unit :=
  forLoop ar
    (fun '(ja, jm) => ja <? ar * General.Stride amat)
    (fun '(ja, jm) =>
       g <- denseMat m ;;
       ret (ja + General.Stride amat, jm + General.Stride g))
    (fun '(ja, jm) =>
       row <- sliceExpr (General.Data amat) ja (ja + ac) ;;
       rangeSlice row (fun i v =>
         g <- denseMat m ;;
         writeSlice (General.Data g) (i + jm) (cmul v f)))
    (0, 0).

Definition scaleCols (m : ptr) (f : complex128) (ar ac : nat) (amat : General.t)
    : M unit :=
  forLoop ac
    (fun '(ja, jm) => ja <? ac * General.Stride amat)
    (fun '(ja, jm) => ret (ja + General.Stride amat, jm + 1))
    (fun '(ja, jm) =>
       row <- sliceExpr (General.Data amat) ja (ja + ar) ;;
       rangeSlice row (fun i v =>
         g <- denseMat m ;;
         writeSlice (General.Data g) (i * General.Stride g + jm) (cmul v f)))
    (0, 0).

Definition scaleDense (m : ptr) (f : complex128) (ar ac : nat) (aTrans : bool)
    (amat : General.t) : M unit :=
  if negb aTrans then scaleRows m f ar ac amat else scaleCols m f ar ac amat.

Definition CDense_Scale (m : ptr) (f : complex128) (a : CMatrix) : M unit :=
  '(ar, ac) <- Dims a ;;
  CDense_reuseAsNonZeroed m ar ac ;;
  let '(aU, aTrans, _) := untransposeExtractCmplx a in
  match aU with
  | PDense rm =>
      amat <- denseMat rm ;;
      ov <- (if isPtr m aU then ret true else CDense_checkOverlap m amat) ;;
      if ov then
        '(w, restore) <- CDense_isolatedWorkspace m a ;;
        defer restore (scaleDense w f ar ac aTrans amat)
      else scaleDense m f ar ac aTrans amat
  | _ =>
      _ <- CDense_checkOverlapMatrix m a ;;
      forRange ar 0 (fun r =>
        forRange ac 0 (fun c =>
          x <- At a r c ;; CDense_set m r c (cmul f x)))
  end.

(** ** DiagCDense *)

Definition newDiagCDense (v : Vector.t) : M ptr :=
  fun h => Ok (length (cdiags h))
              (mkHeap (arrays h) (cdenses h) (cdiags h ++ [DiagCDense.mk v])).

Definition NewDiagCDense (n : Z) (data : slice) : M ptr :=
  if (n <=? 0)%Z then
    if (n =? 0)%Z then panic ErrZeroLength
    else panic (PanicMsg "mat: negative dimension")
  else
    data <- (if isNil data then make (Z.to_nat n) else ret data) ;;
    if negb (Z.of_nat (len data) =? n)%Z then panic ErrShape
    else newDiagCDense (Vector.mk (Z.to_nat n) data 1).

Definition DiagCDense_Diag (d : ptr) : M nat :=
  v <- diagMat d ;; ret (Vector.N v).

Definition DiagCDense_Dims (d : ptr) : M (nat * nat) :=
  v <- diagMat d ;; ret (Vector.N v, Vector.N v).

Definition DiagCDense_T (d : ptr) : CMatrix := PDiag d.
Definition DiagCDense_H (d : ptr) : CMatrix := ConjTranspose (PDiag d).

Definition DiagCDense_Bandwidth (d : ptr) : M (nat * nat) := ret (0, 0).

Definition DiagCDense_Reset (d : ptr) : M unit :=
  v <- diagMat d ;; setDiagMat d (Vector.mk (Vector.N v) (Vector.Data v) 0) ;;
  v <- diagMat d ;; setDiagMat d (Vector.mk 0 (Vector.Data v) (Vector.Inc v)) ;;
  v <- diagMat d ;;
  s <- sliceExpr (Vector.Data v) 0 0 ;;
  setDiagMat d (Vector.mk (Vector.N v) s (Vector.Inc v)).

Definition DiagCDense_Zero (d : ptr) : M unit :=
  v <- diagMat d ;;
  forRange (Vector.N v) 0 (fun i =>
    v <- diagMat d ;;
    writeSlice (Vector.Data v) (Vector.Inc v * i) czero).

Definition DiagCDense_DiagView (d : ptr) : CMatrix := PDiag d.

Definition DiagCDense_IsEmpty (d : ptr) : M bool :=
  v <- diagMat d ;; ret (Vector.Inc v =? 0).

Definition DiagCDense_reuseAsNonZeroed (d : ptr) (r : nat) : M unit :=
  if r =? 0 then panic ErrZeroLength
  else
    e <- DiagCDense_IsEmpty d ;;
    if e then
      v <- diagMat d ;;
      s <- useC (Vector.Data v) r ;;
      setDiagMat d (Vector.mk 0 s 1) ;;
      v <- diagMat d ;;
      setDiagMat d (Vector.mk r (Vector.Data v) (Vector.Inc v))
    else
      v <- diagMat d ;;
      if negb (r =? Vector.N v) then panic ErrShape else ret tt.

Definition DiagCDense_DiagFrom (d : ptr) (m : CMatrix) : M unit :=
  '(mr, mc) <- Dims m ;;
  let n := mr `min` mc in
  DiagCDense_reuseAsNonZeroed d n ;;
  match m with
  | PDiag r =>
      vec <- diagMat r ;;
      dv <- diagMat d ;;
      Copy vec dv
  | _ =>
      forRange n 0 (fun i =>
        x <- At m i i ;; DiagCDense_setDiag d i x)
  end.

Definition DiagCDense_RawBand (d : ptr) : M Band.t :=
  v <- diagMat d ;;
  ret (Band.mk (Vector.N v) (Vector.N v) 0 0 (Vector.Inc v) (Vector.Data v)).

Definition DiagCDense_Norm (d : ptr) (norm : complex128) : M complex128 :=
  ret czero.

(** ** Reading the store: pure counterparts of the accessors *)

(** The cell [i] of the backing array [a]. *)
Definition cellAt (h : Heap) (a : addr) (i : nat) : option complex128 :=
  arrays h !! a ≫= fun L => L !! i.

Definition denseAtOf (h : Heap) (g : General.t) (i j : nat) : Err + complex128 :=
  if General.Rows g <=? i then inl ErrRowAccess
  else if General.Cols g <=? j then inl ErrColAccess
  else match sliceGet h (General.Data g) (i * General.Stride g + j) with
       | Some v => inr v
       | None => inl RuntimeError
       end.

Definition diagAtOf (h : Heap) (v : Vector.t) (i j : nat) : Err + complex128 :=
  if Vector.N v <=? i then inl ErrRowAccess
  else if Vector.N v <=? j then inl ErrColAccess
  else if negb (i =? j) then inr czero
  else match sliceGet h (Vector.Data v) (i * Vector.Inc v) with
       | Some x => inr x
       | None => inl RuntimeError
       end.

(** What [At a i j] returns in the store [h]. *)
Fixpoint atOf (h : Heap) (a : CMatrix) (i j : nat) : Err + complex128 :=
  match a with
  | PDense p => denseAtOf h (CDense.mat (getDense h p)) i j
  | PDiag p => diagAtOf h (DiagCDense.mat (getDiag h p)) i j
  | CTranspose u => atOf h u j i
  | ConjTranspose u =>
      match atOf h u j i with
      | inr z => inr (cconj z)
      | inl e => inl e
      end
  | Foreign _ _ f => inr (f i j)
  end.

Definition valOf (h : Heap) (a : CMatrix) (i j : nat) : complex128 :=
  match atOf h a i j with
  | inr v => v
  | inl _ => czero
  end.

Definition heapOf {A} (r : Res A) : Heap :=
  match r with Ok _ h => h | Panic _ h => h end.

Definition failsWith {A} (r : Res A) (e : Err) : Prop :=
  exists h, r = Panic e h.

(** ** Well-formed matrices and separation of storage *)

(** The cells a slice can reach: the window of its capacity. *)
Definition inWin (s : slice) (a : addr) (i : nat) : Prop :=
  match s with
  | nilSlice => False
  | Slice a' off _ c => a = a' /\ off <= i < off + c
  end.

Definition sep (s1 s2 : slice) : Prop :=
  forall a i, inWin s1 a i -> inWin s2 a i -> False.

Definition validSlice (h : Heap) (s : slice) : Prop :=
  match s with
  | nilSlice => True
  | Slice a off l c => l <= c /\ forall i, i < c -> is_Some (cellAt h a (off + i))
  end.

Definition wfGeneral (h : Heap) (g : General.t) : Prop :=
  validSlice h (General.Data g)
  /\ General.Cols g <= General.Stride g
  /\ (General.Rows g - 1) * General.Stride g + General.Cols g
     <= len (General.Data g).

Definition wfVector (h : Heap) (v : Vector.t) : Prop :=
  validSlice h (Vector.Data v)
  /\ (0 < Vector.N v ->
      0 < Vector.Inc v
      /\ (Vector.N v - 1) * Vector.Inc v + 1 <= len (Vector.Data v)).

Fixpoint wfM (h : Heap) (a : CMatrix) : Prop :=
  match a with
  | PDense p => wfGeneral h (CDense.mat (getDense h p))
  | PDiag p => wfVector h (DiagCDense.mat (getDiag h p))
  | CTranspose u | ConjTranspose u => wfM h u
  | Foreign _ _ _ => True
  end.

(** The storage [s] of a dense destination [m] is independent of the
    operand [a]: [a] is no view of [m], and no object under [a] reaches a
    cell of [s]. *)
Fixpoint indep (h : Heap) (m : ptr) (s : slice) (a : CMatrix) : Prop :=
  match a with
  | PDense p => p <> m /\ sep s (General.Data (CDense.mat (getDense h p)))
  | PDiag p => sep s (Vector.Data (DiagCDense.mat (getDiag h p)))
  | CTranspose u | ConjTranspose u => indep h m s u
  | Foreign _ _ _ => True
  end.

(** The same for a diagonal destination [d], which may itself be read
    through the operand. *)
Fixpoint indepDiag (h : Heap) (d : ptr) (s : slice) (a : CMatrix) : Prop :=
  match a with
  | PDense p => sep s (General.Data (CDense.mat (getDense h p)))
  | PDiag p => p = d \/ sep s (Vector.Data (DiagCDense.mat (getDiag h p)))
  | CTranspose u | ConjTranspose u => indepDiag h d s u
  | Foreign _ _ _ => True
  end.

(** A destination that an operation may write an [r] x [c] result into:
    empty, or a well-formed [r] x [c] matrix. *)
Definition destOK (h : Heap) (m : ptr) (r c : nat) : Prop :=
  m < length (cdenses h)
  /\ let g := CDense.mat (getDense h m) in
     validSlice h (General.Data g)
     /\ (General.Stride g = 0
         \/ (General.Stride g <> 0 /\ General.Rows g = r /\ General.Cols g = c
             /\ wfGeneral h g)).

(** ** Filling cells in place

    [filledTo h0 h a pos cnt val n]: starting from [h0], the cells
    [pos 0 .. pos (n-1)] of the array [a] have been set to
    [val 0 .. val (n-1)], and nothing else has changed. *)
Definition filledTo (h0 h : Heap) (a : addr) (pos : nat -> nat) (cnt : nat)
    (val : nat -> complex128) (n : nat) : Prop :=
  cdenses h = cdenses h0
  /\ cdiags h = cdiags h0
  /\ length (arrays h) = length (arrays h0)
  /\ (forall x i, (forall k, k < cnt -> (x, i) <> (a, pos k)) ->
                  cellAt h x i = cellAt h0 x i)
  /\ (forall k, n <= k -> k < cnt -> cellAt h a (pos k) = cellAt h0 a (pos k))
  /\ (forall k, k < n -> cellAt h a (pos k) = Some (val k)).

(** Row-major enumeration of the cells of a dense matrix: the position of
    the [k]-th cell written. *)
Definition rowMajor (off stride cols : nat) (k : nat) : nat :=
  off + (k / cols) * stride + k mod cols.

(** ** The kernel, read purely *)

Definition opGetOf (h : Heap) (t : Transpose) (A : General.t) (i l : nat)
    : option complex128 :=
  match t with
  | NoTrans => sliceGet h (General.Data A) (i * General.Stride A + l)
  | Trans => sliceGet h (General.Data A) (l * General.Stride A + i)
  | ConjTrans =>
      cconj <$> sliceGet h (General.Data A) (l * General.Stride A + i)
  end.

(** [agree h0 h s]: every cell of [h0] is still there in [h], with its
    value unless the slice [s] reaches it. *)
Definition agree (h0 h : Heap) (s : slice) : Prop :=
  forall x i, is_Some (cellAt h0 x i) ->
    is_Some (cellAt h x i) /\ (~ inWin s x i -> cellAt h x i = cellAt h0 x i).

(** ** Construction and the examples of the test file *)

(** [[]complex128{...}]: a slice literal allocates its backing array. *)
Definition sliceLit (l : list complex128) : M slice :=
  fun h => Ok (Slice (length (arrays h)) 0 (length l) (length l))
              (mkHeap (arrays h ++ [l]) (cdenses h) (cdiags h)).

(** Modelled from the spec (section 6): NewCDense is not among the sources;
    new_dense(rows, cols, data) validates the dimensions and the length of
    the data, as NewDiagCDense does. *)
Definition NewCDense (r c : Z) (data : slice) : M ptr :=
  if ((r <=? 0) || (c <=? 0))%Z then
    if ((r =? 0) || (c =? 0))%Z then panic ErrZeroLength
    else panic (PanicMsg "mat: negative dimension")
  else if negb (isNil data) && negb (Z.of_nat (len data) =? r * c)%Z
  then panic ErrShape
  else
    data <- (if isNil data then make (Z.to_nat (r * c)) else ret data) ;;
    newCDense (General.mk (Z.to_nat r) (Z.to_nat c) (Z.to_nat c) data).

Fixpoint forEachM {A} (l : list nat) (f : nat -> M A) : M (list A) :=
  match l with
  | [] => ret []
  | i :: l' => x <- f i ;; xs <- forEachM l' f ;; ret (x :: xs)
  end.

(** The entries of a matrix, row by row, read through Dims and At. *)
Definition entries (a : CMatrix) : M (list (list complex128)) :=
  '(r, c) <- Dims a ;;
  forEachM (seq 0 r) (fun i => forEachM (seq 0 c) (fun j => At a i j)).

Definition resultOf {A} (r : Res A) : option A :=
  match r with Ok a _ => Some a | Panic _ _ => None end.

(** The matrices a and b of ExampleCDense_Add and ExampleCDense_Sub. *)
Definition exampleAB : M (ptr * ptr) :=
  da <- sliceLit [Cx 1 1; Cx 0 0; Cx 1 0; Cx 0 2] ;;
  a <- NewCDense 2 2 da ;;
  db <- sliceLit [Cx 0 0; Cx 0 1; Cx 0 0; Cx 3 2] ;;
  b <- NewCDense 2 2 db ;;
  ret (a, b).

(** The same with [var c mat.CDense], an empty receiver. *)
Definition exampleABC : M (ptr * ptr * ptr) :=
  '(a, b) <- exampleAB ;;
  c <- newCDense General.zero ;;
  ret (a, b, c).

Definition heapABC : Heap := heapOf (exampleABC emptyHeap).

(** ** The empty state of DiagCDense *)

(** The invariant stated in Reset and IsEmpty: the dimension is zero exactly
    when the increment is. *)
Definition emptyInv (v : Vector.t) : Prop :=
  Vector.N v = 0 <-> Vector.Inc v = 0.

Definition diagInv (h : Heap) : Prop :=
  forall d, emptyInv (DiagCDense.mat (getDiag h d)).

(** The operations of DiagCDense (T, H and DiagView only build interface
    values and do not touch the store). *)
Inductive DiagOp : Type :=
| OpNew (n : Z) (data : slice)
| OpDiag (d : ptr)
| OpDims (d : ptr)
| OpBandwidth (d : ptr)
| OpReset (d : ptr)
| OpZero (d : ptr)
| OpDiagFrom (d : ptr) (m : CMatrix)
| OpRawBand (d : ptr)
| OpReuseAsNonZeroed (d : ptr) (r : nat)
| OpIsEmpty (d : ptr)
| OpNorm (d : ptr) (norm : complex128)
| OpAt (d : ptr) (i j : nat)
| OpSetDiag (d : ptr) (i : nat) (x : complex128).

Definition runOp (op : DiagOp) : M unit :=
  match op with
  | OpNew n data => _ <- NewDiagCDense n data ;; ret tt
  | OpDiag d => _ <- DiagCDense_Diag d ;; ret tt
  | OpDims d => _ <- DiagCDense_Dims d ;; ret tt
  | OpBandwidth d => _ <- DiagCDense_Bandwidth d ;; ret tt
  | OpReset d => DiagCDense_Reset d
  | OpZero d => DiagCDense_Zero d
  | OpDiagFrom d m => DiagCDense_DiagFrom d m
  | OpRawBand d => _ <- DiagCDense_RawBand d ;; ret tt
  | OpReuseAsNonZeroed d r => DiagCDense_reuseAsNonZeroed d r
  | OpIsEmpty d => _ <- DiagCDense_IsEmpty d ;; ret tt
  | OpNorm d norm => _ <- DiagCDense_Norm d norm ;; ret tt
  | OpAt d i j => _ <- DiagCDense_At d i j ;; ret tt
  | OpSetDiag d i x => DiagCDense_setDiag d i x
  end.

(** A sequence of operations; a panic is recovered from and the sequence
    goes on in the store the panic left. *)
Definition runOps (ops : list DiagOp) (h : Heap) : Heap :=
  foldl (fun h op => heapOf (runOp op h)) h ops.

(** A computation that leaves the DiagCDense structs as they are, whether
    it returns or panics. *)
Definition keepsDiags {A} (c : M A) : Prop :=
  forall h, cdiags (heapOf (c h)) = cdiags h.

(** ** Shape panics *)

(** A computation that never panics with ErrShape. *)
Definition neverShape {A} (c : M A) : Prop :=
  forall h e h', c h = Panic e h' -> e <> ErrShape.

(** The receiver of an operation with an [r] x [c] result is refused:
    it is not empty and has other dimensions. *)
Definition destMismatch (h : Heap) (m : ptr) (r c : nat) : Prop :=
  r <> 0 /\ c <> 0
  /\ General.Stride (CDense.mat (getDense h m)) <> 0
  /\ (General.Rows (CDense.mat (getDense h m)) <> r
      \/ General.Cols (CDense.mat (getDense h m)) <> c).

Definition isDense (a : CMatrix) : bool :=
  match a with PDense _ => true | _ => false end.

(** A 1 x 1 receiver next to the 2 x 2 operands a and b. *)
Definition exampleABD : M (ptr * ptr * ptr) :=
  '(a, b) <- exampleAB ;;
  d <- NewCDense 1 1 nilSlice ;;
  ret (a, b, d).

Definition heapABD : Heap := heapOf (exampleABD emptyHeap).

(** A 1 x 1 dense matrix [[1]] and the 1 x 1 diagonal matrix [2]. *)
Definition exampleDenseDiag : M (ptr * ptr) :=
  dm <- sliceLit [Cx 1 0] ;;
  m <- NewCDense 1 1 dm ;;
  dd <- sliceLit [Cx 2 0] ;;
  d <- NewDiagCDense 1 dd ;;
  ret (m, d).

Definition heapDenseDiag : Heap := heapOf (exampleDenseDiag emptyHeap).

(** ** Diagonal destinations *)

(** A receiver of DiagFrom for a diagonal of length [n]: empty, or a
    well-formed diagonal matrix of size [n]. *)
Definition destDiagOK (h : Heap) (d : ptr) (n : nat) : Prop :=
  d < length (cdiags h)
  /\ let v := DiagCDense.mat (getDiag h d) in
     validSlice h (Vector.Data v)
     /\ ((Vector.Inc v = 0 /\ Vector.N v = 0)
         \/ (Vector.Inc v <> 0 /\ Vector.N v = n /\ wfVector h v)).

(** The operand [a] is, under its views, the diagonal matrix [d] itself. *)
Fixpoint mentionsDiag (d : ptr) (a : CMatrix) : Prop :=
  match a with
  | PDiag p => p = d
  | CTranspose u | ConjTranspose u => mentionsDiag d u
  | _ => False
  end.

(** The position of the [k]-th entry of a strided vector. *)
Definition strided (off inc : nat) (k : nat) : nat := off + k * inc.

(** The matrices a and b next to [var d mat.DiagCDense], an empty diagonal
    receiver. *)
Definition exampleABDiag : M (ptr * ptr * ptr) :=
  '(a, b) <- exampleAB ;;
  d <- newDiagCDense Vector.zero ;;
  ret (a, b, d).

Definition heapABDiag : Heap := heapOf (exampleABDiag emptyHeap).

(** ** Scaling in place *)

(** The store after a fresh [r] x [c] dense matrix has been allocated on top
    of [h]: the state in which Scale finds its workspace, and in which a
    fresh empty receiver is after its resize. *)
Definition withFresh (h : Heap) (r c : nat) : Heap :=
  mkHeap (arrays h ++ [replicate (r * c) czero])
         (cdenses h ++ [CDense.mk (General.mk r c c
                          (Slice (length (arrays h)) 0 (r * c) (r * c)))])
         (cdiags h).

(** [tmp.Scale(k, a); a.Copy(tmp)] with a fresh empty [tmp]. *)
Definition scaleViaTmp (a : ptr) (k : complex128) : M unit :=
  tmp <- newCDense General.zero ;;
  CDense_Scale tmp k (PDense a) ;;
  _ <- CDense_Copy a (PDense tmp) ;;
  ret tt.

(** ** The product, entry by entry *)

(** The sum that [dot] accumulates, over entries given as functions. *)
Fixpoint dotSum (fa fb : nat -> nat -> complex128) (i j : nat) (k l0 : nat)
    (acc : complex128) : complex128 :=
  match k with
  | 0 => acc
  | S k' => dotSum fa fb i j k' (S l0) (cadd acc (cmul (fa i l0) (fb l0 j)))
  end.

(** The value of a cell, zero when there is none. *)
Definition cellVal (h : Heap) (a : addr) (i : nat) : complex128 :=
  default czero (cellAt h a i).

(** A 1 x 2 matrix a, a 2 x 1 matrix b and an empty receiver c. *)
Definition exampleRowCol : M (ptr * ptr * ptr) :=
  da <- sliceLit [Cx 1 0; Cx 2 0] ;;
  a <- NewCDense 1 2 da ;;
  db <- sliceLit [Cx 3 0; Cx 4 0] ;;
  b <- NewCDense 2 1 db ;;
  c <- newCDense General.zero ;;
  ret (a, b, c).

Definition heapRowCol : Heap := heapOf (exampleRowCol emptyHeap).

(** The 2 x 2 matrix a, its materialized transpose aT, the 2 x 3 matrix b of
    ExampleCDense_Mul, and an empty receiver c. *)
Definition exampleMulT : M (ptr * ptr * ptr * ptr) :=
  da <- sliceLit [Cx 4 1; Cx 0 0; Cx 2 0; Cx 0 1] ;;
  a <- NewCDense 2 2 da ;;
  dt <- sliceLit [Cx 4 1; Cx 2 0; Cx 0 0; Cx 0 1] ;;
  aT <- NewCDense 2 2 dt ;;
  db <- sliceLit [Cx 0 4; Cx 0 0; Cx 0 0; Cx 0 0; Cx 0 0; Cx 4 0] ;;
  b <- NewCDense 2 3 db ;;
  c <- newCDense General.zero ;;
  ret (a, aT, b, c).

Definition heapMulT : Heap := heapOf (exampleMulT emptyHeap).

(** The dense matrix [pa] itself, or its transposed view [pa.T()]. *)
Definition viewOf (t : bool) (pa : ptr) : CMatrix :=
  if t then CDense_T pa else PDense pa.

(** * Canonical form of cycles (graph/topo)

    The test of UndirectedCyclesIn compares the cycles it gets with the
    expected ones up to their starting node and their direction: each cycle
    is brought into a canonical form by [canonicalise].  The function is
    embedded on the contents of the slice it returns (it may also reorder the
    backing array of its argument, which no caller reads again); a node is
    known by its ID only. *)

(** graph.Node: the method ID() int64. *)
Class GraphNode (N : Type) := ID : N -> Z.

(** A node that is its own ID, as the nodes of the test are. *)
#[global] Instance idNode : GraphNode Z := fun n => n.

Section Canonicalise.
Context {N : Type} `{!GraphNode N}.

(** [for i, n := range c[1:] { if id := n.ID(); id < min { idx = i + 1; min = id } }]:
    the scan over the rest [s] of the slice, from the index [i] on, with the
    loop variables [idx] and [min]. *)
Fixpoint scanMin (s : list N) (i idx : nat) (min : Z) : nat * Z :=
  match s with
  | [] => (idx, min)
  | n :: s' =>
      if (ID n <? min)%Z then scanMin s' (S i) (i + 1) (ID n)
      else scanMin s' (S i) idx min
  end.

(** [for i, j := 0, len(s)-1; i < j; i, j = i+1, j-1 { s[i], s[j] = s[j], s[i] }]
    from the state [i], [j]; the loop makes at most [fuel] rounds. *)
Fixpoint swapLoop (fuel : nat) (i j : nat) (s : list N) : list N :=
  match fuel with
  | 0 => s
  | S k =>
      if i <? j then
        match s !! i, s !! j with
        | Some x, Some y => swapLoop k (i + 1) (j - 1) (<[j := x]> (<[i := y]> s))
        | _, _ => s
        end
      else s
  end.

Definition canonicalise (c : list N) : list N :=
  if length c <? 2 then c
  else
    match c with
    | [] => c
    | c0 :: rest =>
        let '(idx, _) := scanMin rest 0 0 (ID c0) in
        let c := if negb (idx =? 0) then drop idx c ++ take idx c else c in
        match c !! (length c - 1), c !! 1 with
        | Some cl, Some c1 =>
            if (ID cl <? ID c1)%Z then
              match c with
              | x :: s => x :: swapLoop (length s) 0 (length s - 1) s
              | [] => c
              end
            else c
        | _, _ => c
        end
    end.
End Canonicalise.

(** The canonical form of a cycle that starts at [m] and goes on with [t]:
    of the two directions, the one whose second node has the lesser ID. *)
Definition canonForm {N : Type} `{!GraphNode N} (m : N) (t : list N) : list N :=
  match head t, last t with
  | Some x, Some z => if (ID z <? ID x)%Z then m :: rev t else m :: t
  | _, _ => m :: t
  end.

(** ** More examples *)

(** The slice [1, 2] alone, and the 2 x 2 diagonal matrix
    NewDiagCDense(2, []complex128{1, 2}) on it. *)
Definition heapData2 : Heap :=
  heapOf (sliceLit [Cx 1 0; Cx 2 0] emptyHeap).

Definition exampleDiag2 : M ptr :=
  dd <- sliceLit [Cx 1 0; Cx 2 0] ;;
  NewDiagCDense 2 dd.

Definition heapDiag2 : Heap := heapOf (exampleDiag2 emptyHeap).

(** Column-major enumeration of the cells of a dense matrix with [rows]
    rows: the position of the [k]-th cell written by the loop of Scale over
    a transposed operand. *)
Definition colMajor (off stride rows : nat) (k : nat) : nat :=
  off + (k mod rows) * stride + k / rows.

(** The slice data = [1, ..., 9], a 3 x 3 matrix m over it, and a diagonal
    matrix d of size 3 over data[lo:hi]. *)
Definition exampleShared (lo hi : nat) : M (ptr * ptr) :=
  data <- sliceLit [Cx 1 0; Cx 2 0; Cx 3 0; Cx 4 0; Cx 5 0; Cx 6 0;
                    Cx 7 0; Cx 8 0; Cx 9 0] ;;
  m <- NewCDense 3 3 data ;;
  s <- sliceExpr data lo hi ;;
  d <- NewDiagCDense 3 s ;;
  ret (m, d).

Definition heapShared47 : Heap := heapOf (exampleShared 4 7 emptyHeap).

Definition heapShared25 : Heap := heapOf (exampleShared 2 5 emptyHeap).

(** The matrices a and b with the diagonal matrices d2 = diag(1, 2) and
    d3 = diag(1, 2, 3). *)
Definition exampleABDiags : M (ptr * ptr * ptr * ptr) :=
  '(a, b) <- exampleAB ;;
  s2 <- sliceLit [Cx 1 0; Cx 2 0] ;;
  d2 <- NewDiagCDense 2 s2 ;;
  s3 <- sliceLit [Cx 1 0; Cx 2 0; Cx 3 0] ;;
  d3 <- NewDiagCDense 3 s3 ;;
  ret (a, b, d2, d3).

Definition heapABDiags : Heap := heapOf (exampleABDiags emptyHeap).

(** * Properties *)

(** ** The monad *)

Lemma bind_Ok {A B} (x : M A) (k : A -> M B) h a h1 :
  x h = Ok a h1 -> bind x k h = k a h1.
Proof. unfold bind. intros ->. reflexivity. Qed.

Lemma bind_Panic {A B} (x : M A) (k : A -> M B) h e h1 :
  x h = Panic e h1 -> bind x k h = Panic e h1.
Proof. unfold bind. intros ->. reflexivity. Qed.

Lemma forRange_S n i0 body h :
  forRange (S n) i0 body h = bind (body i0) (fun _ => forRange n (S i0) body) h.
Proof. reflexivity. Qed.

(** A counted loop whose body keeps an invariant runs to its end. *)
Lemma forRange_inv (I : nat -> Heap -> Prop) body n i0 h :
  (forall k h1, k < n -> I k h1 ->
     exists h2, body (i0 + k) h1 = Ok tt h2 /\ I (S k) h2) ->
  I 0 h ->
  exists h', forRange n i0 body h = Ok tt h' /\ I n h'.
Proof.
  revert I i0 h. induction n as [|n IH]; intros I i0 h Hstep H0.
  - exists h. split; [reflexivity|assumption].
  - destruct (Hstep 0 h) as (h1 & E1 & I1); [lia|assumption|].
    rewrite Nat.add_0_r in E1.
    destruct (IH (fun k => I (S k)) (S i0) h1) as (h' & E & I').
    + intros k h2 Hk Hi. destruct (Hstep (S k) h2) as (h3 & E3 & I3); [lia|assumption|].
      exists h3. split; [|assumption].
      replace (S i0 + k) with (i0 + S k) by lia. exact E3.
    + exact I1.
    + exists h'. split; [|assumption].
      rewrite forRange_S. rewrite (bind_Ok _ _ _ _ _ E1). exact E.
Qed.

(** The general loop leaves through its condition after [n] rounds. *)
Lemma forLoop_inv {S : Type} (I : nat -> S -> Heap -> Prop) cond post body n :
  (forall k s h1, k < n -> I k s h1 ->
     cond s = true /\
     exists h2, body s h1 = Ok tt h2 /\
     exists s' h3, post s h2 = Ok s' h3 /\ I (Datatypes.S k) s' h3) ->
  (forall s h1, I n s h1 -> cond s = false) ->
  forall extra s h, I 0 s h ->
  exists s' h', forLoop (n + extra) cond post body s h = Ok tt h' /\ I n s' h'.
Proof.
  revert I. induction n as [|n IH]; intros I Hstep Hexit extra s h H0.
  - exists s, h. split; [|assumption].
    destruct extra; simpl; [reflexivity|].
    rewrite (Hexit _ _ H0). reflexivity.
  - destruct (Hstep 0 s h) as (Hc & h2 & Eb & s' & h3 & Ep & I1); [lia|assumption|].
    destruct (IH (fun k => I (Datatypes.S k))) with (extra := extra) (s := s') (h := h3)
      as (s'' & h' & E & I').
    + intros k s1 h1 Hk Hi. apply Hstep; [lia|assumption].
    + intros s1 h1 Hi. eapply Hexit; eassumption.
    + exact I1.
    + exists s'', h'. split; [|assumption].
      simpl. rewrite Hc.
      rewrite (bind_Ok _ _ _ _ _ Eb). rewrite (bind_Ok _ _ _ _ _ Ep). exact E.
Qed.

(** ** Cells *)

Lemma cellAt_storeAt_eq h a i v :
  is_Some (cellAt h a i) -> cellAt (storeAt a i v h) a i = Some v.
Proof.
  unfold cellAt, storeAt. simpl. intros [x Hx].
  rewrite list_lookup_alter_eq.
  destruct (arrays h !! a) as [L|] eqn:E; [|discriminate]. simpl in *.
  apply list_lookup_insert_eq. eapply lookup_lt_Some; eassumption.
Qed.

Lemma cellAt_storeAt_ne h a i v x j :
  (x, j) <> (a, i) -> cellAt (storeAt a i v h) x j = cellAt h x j.
Proof.
  unfold cellAt, storeAt. simpl. intros Hne.
  destruct (decide (a = x)) as [->|Hax].
  - rewrite list_lookup_alter_eq.
    destruct (arrays h !! x) as [L|] eqn:E; simpl; [|reflexivity].
    apply list_lookup_insert_ne. congruence.
  - rewrite list_lookup_alter_ne by assumption. reflexivity.
Qed.

Lemma sliceGet_Slice h a off l c i :
  sliceGet h (Slice a off l c) i = if i <? l then cellAt h a (off + i) else None.
Proof. reflexivity. Qed.

Lemma readSlice_ok h s i v :
  sliceGet h s i = Some v -> readSlice s i h = Ok v h.
Proof. unfold readSlice. intros ->. reflexivity. Qed.

Lemma writeSlice_ok h a off l c i v :
  i < l -> is_Some (cellAt h a (off + i)) ->
  writeSlice (Slice a off l c) i v h = Ok tt (storeAt a (off + i) v h).
Proof.
  intros Hi [x Hx]. unfold writeSlice.
  apply Nat.ltb_lt in Hi. rewrite Hi.
  unfold cellAt in Hx. rewrite Hx. reflexivity.
Qed.

(** ** At reads the store and leaves it as it is *)

Lemma CDense_at_atOf p i j h :
  CDense_at p i j h =
  match denseAtOf h (CDense.mat (getDense h p)) i j with
  | inr v => Ok v h
  | inl e => Panic e h
  end.
Proof.
  unfold CDense_at, denseAtOf, denseMat, bind, gets, readSlice, panic.
  destruct (_ <=? i); [reflexivity|].
  destruct (_ <=? j); [reflexivity|].
  destruct (sliceGet _ _ _); reflexivity.
Qed.

Lemma DiagCDense_At_atOf p i j h :
  DiagCDense_At p i j h =
  match diagAtOf h (DiagCDense.mat (getDiag h p)) i j with
  | inr v => Ok v h
  | inl e => Panic e h
  end.
Proof.
  unfold DiagCDense_At, diagAtOf, diagMat, bind, gets, readSlice, panic, ret.
  destruct (_ <=? i); [reflexivity|].
  destruct (_ <=? j); [reflexivity|].
  destruct (negb _); [reflexivity|].
  destruct (sliceGet _ _ _); reflexivity.
Qed.

Lemma At_atOf a i j h :
  At a i j h =
  match atOf h a i j with
  | inr v => Ok v h
  | inl e => Panic e h
  end.
Proof.
  revert i j. induction a as [p|p|u IH|u IH|r c f]; intros i j; simpl.
  - apply CDense_at_atOf.
  - apply DiagCDense_At_atOf.
  - apply IH.
  - unfold bind. rewrite IH. destruct (atOf h u j i); reflexivity.
  - reflexivity.
Qed.

Lemma At_ok a i j h v : atOf h a i j = inr v -> At a i j h = Ok v h.
Proof. intros E. rewrite At_atOf, E. reflexivity. Qed.

(** ** Index arithmetic of strided storage *)

Lemma divmod_rc r c C : c < C -> (r * C + c) / C = r /\ (r * C + c) mod C = c.
Proof.
  intros Hc. split.
  - rewrite Nat.div_add_l by lia. rewrite Nat.div_small by lia. lia.
  - rewrite Nat.add_comm, Nat.Div0.mod_add. apply Nat.mod_small. lia.
Qed.

Lemma strided_inj S r c r' c' :
  c < S -> c' < S -> r * S + c = r' * S + c' -> r = r' /\ c = c'.
Proof.
  intros Hc Hc' E.
  assert (Hr : r = r').
  { pose proof (divmod_rc r c S Hc) as [D1 _].
    pose proof (divmod_rc r' c' S Hc') as [D2 _].
    rewrite E in D1. congruence. }
  subst r'. split; [reflexivity|lia].
Qed.

Lemma rowMajor_rc off S C r c :
  c < C -> rowMajor off S C (r * C + c) = off + r * S + c.
Proof.
  intros Hc. unfold rowMajor. destruct (divmod_rc r c C Hc) as [-> ->]. reflexivity.
Qed.

Lemma div_lt_cells k R C : k < R * C -> k / C < R.
Proof.
  intros Hk. destruct (Nat.eq_dec C 0) as [->|HC]; [lia|].
  apply Nat.Div0.div_lt_upper_bound. lia.
Qed.

Lemma rowMajor_inj off S C R k k' :
  C <= S -> k < R * C -> k' < R * C ->
  rowMajor off S C k = rowMajor off S C k' -> k = k'.
Proof.
  intros HCS Hk Hk' E. unfold rowMajor in E.
  assert (HC : C <> 0) by (intros ->; lia).
  pose proof (Nat.mod_upper_bound k C HC).
  pose proof (Nat.mod_upper_bound k' C HC).
  destruct (strided_inj S (k / C) (k mod C) (k' / C) (k' mod C)) as [E1 E2];
    [lia|lia|lia|].
  rewrite (Nat.div_mod_eq k C), (Nat.div_mod_eq k' C). rewrite E1, E2. reflexivity.
Qed.

(** ** Filling cells *)

Lemma filledTo_start h a pos cnt val : filledTo h h a pos cnt val 0.
Proof. unfold filledTo. repeat split; intros; try reflexivity. lia. Qed.

Lemma filledTo_step h0 h a pos cnt val n v :
  (forall k k', k < cnt -> k' < cnt -> pos k = pos k' -> k = k') ->
  (forall k, k < cnt -> is_Some (cellAt h0 a (pos k))) ->
  filledTo h0 h a pos cnt val n -> n < cnt -> v = val n ->
  filledTo h0 (storeAt a (pos n) v h) a pos cnt val (S n).
Proof.
  intros Hinj Hsome (Hd & Hg & Hl & Hout & Hrest & Hdone) Hn ->.
  unfold filledTo. repeat split.
  - exact Hd.
  - exact Hg.
  - simpl. rewrite length_alter. exact Hl.
  - intros x i Hx. rewrite cellAt_storeAt_ne; [apply Hout; assumption|].
    apply Hx; assumption.
  - intros k Hk Hk'. rewrite cellAt_storeAt_ne; [apply Hrest; lia|].
    intros E. inversion E as [E']. apply Hinj in E'; lia.
  - intros k Hk. destruct (Nat.eq_dec k n) as [->|Hne].
    + apply cellAt_storeAt_eq. rewrite Hrest by lia. apply Hsome; assumption.
    + rewrite cellAt_storeAt_ne; [apply Hdone; lia|].
      intros E. inversion E as [E']. apply Hinj in E'; lia.
Qed.

(** A counted loop whose [k]-th round stores the [k]-th value fills the cells
    [n0 .. n0 + len - 1]. *)
Lemma fill_range h0 a pos cnt val body n0 len i0 h :
  (forall k k', k < cnt -> k' < cnt -> pos k = pos k' -> k = k') ->
  (forall k, k < cnt -> is_Some (cellAt h0 a (pos k))) ->
  n0 + len <= cnt ->
  (forall k h1, k < len -> filledTo h0 h1 a pos cnt val (n0 + k) ->
     body (i0 + k) h1 = Ok tt (storeAt a (pos (n0 + k)) (val (n0 + k)) h1)) ->
  filledTo h0 h a pos cnt val n0 ->
  exists h', forRange len i0 body h = Ok tt h' /\
             filledTo h0 h' a pos cnt val (n0 + len).
Proof.
  intros Hinj Hsome Hle Hbody H0.
  apply (forRange_inv (fun k h1 => filledTo h0 h1 a pos cnt val (n0 + k))).
  - intros k h1 Hk Hi. eexists. split; [apply Hbody; assumption|].
    replace (n0 + S k) with (S (n0 + k)) by lia.
    apply filledTo_step; try assumption; [lia|reflexivity].
  - rewrite Nat.add_0_r. exact H0.
Qed.

(** Two nested counted loops fill [R * C] cells, [C] at a time. *)
Lemma fill_nested h0 a pos val body R C h :
  (forall k k', k < R * C -> k' < R * C -> pos k = pos k' -> k = k') ->
  (forall k, k < R * C -> is_Some (cellAt h0 a (pos k))) ->
  (forall r c h1, r < R -> c < C -> filledTo h0 h1 a pos (R * C) val (r * C + c) ->
     body r c h1 = Ok tt (storeAt a (pos (r * C + c)) (val (r * C + c)) h1)) ->
  filledTo h0 h a pos (R * C) val 0 ->
  exists h', forRange R 0 (fun r => forRange C 0 (body r)) h = Ok tt h' /\
             filledTo h0 h' a pos (R * C) val (R * C).
Proof.
  intros Hinj Hsome Hbody H0.
  apply (forRange_inv (fun r h1 => filledTo h0 h1 a pos (R * C) val (r * C))).
  - intros r h1 Hr Hi. cbn [Nat.add].
    replace (S r * C) with (r * C + C) by lia.
    apply (fill_range h0 a pos (R * C) val (body r) (r * C) C 0 h1);
      try assumption.
    + nia.
    + intros c h2 Hc Hf. cbn [Nat.add]. apply Hbody; assumption.
  - exact H0.
Qed.

(** ** Operands are not affected by writes to storage they do not reach *)

Lemma agree_refl h s : agree h h s.
Proof. intros x i Hs. split; [assumption|reflexivity]. Qed.

Lemma sliceGet_agree h0 h s s' i :
  agree h0 h s -> validSlice h0 s' -> sep s s' ->
  sliceGet h s' i = sliceGet h0 s' i.
Proof.
  intros Ha Hv Hsep. destruct s' as [|a off l c]; [reflexivity|].
  rewrite !sliceGet_Slice. destruct (i <? l) eqn:Hi; [|reflexivity].
  apply Nat.ltb_lt in Hi. destruct Hv as [Hlc Hv].
  destruct (Ha a (off + i)) as [_ E]; [apply Hv; lia|].
  apply E. intros Hw. apply (Hsep a (off + i) Hw). simpl. split; [reflexivity|lia].
Qed.

Lemma validSlice_agree h0 h s s' :
  agree h0 h s -> validSlice h0 s' -> validSlice h s'.
Proof.
  intros Ha Hv. destruct s' as [|a off l c]; [exact I|].
  destruct Hv as [Hlc Hv]. split; [assumption|].
  intros i Hi. apply Ha. apply Hv. assumption.
Qed.

Section Frame.
Variables (h0 h : Heap) (m : ptr) (s : slice).
Hypothesis Hcells : agree h0 h s.
Hypothesis Hdense : forall p, p <> m -> getDense h p = getDense h0 p.
Hypothesis Hdiag : forall p, getDiag h p = getDiag h0 p.

Lemma atOf_agree a :
    wfM h0 a -> indep h0 m s a -> forall i j, atOf h a i j = atOf h0 a i j.
  Proof.
    induction a as [p|p|u IH|u IH|r c f]; simpl; intros Hwf Hin i j.
    - destruct Hin as [Hp Hsep]. rewrite (Hdense p Hp).
      unfold denseAtOf. destruct Hwf as (Hv & _).
      rewrite (sliceGet_agree h0 h s) by assumption. reflexivity.
    - rewrite Hdiag. unfold diagAtOf. destruct Hwf as (Hv & _).
      rewrite (sliceGet_agree h0 h s) by assumption. reflexivity.
    - apply IH; assumption.
    - rewrite IH by assumption. reflexivity.
    - reflexivity.
  Qed.

Lemma DimsOf_agree a : indep h0 m s a -> DimsOf h a = DimsOf h0 a.
  Proof.
    induction a as [p|p|u IH|u IH|r c f]; simpl; intros Hin.
    - destruct Hin as [Hp _]. rewrite (Hdense p Hp). reflexivity.
    - rewrite Hdiag. reflexivity.
    - rewrite IH by assumption. reflexivity.
    - rewrite IH by assumption. reflexivity.
    - reflexivity.
  Qed.

Lemma wfM_agree a : wfM h0 a -> indep h0 m s a -> wfM h a.
  Proof.
    induction a as [p|p|u IH|u IH|r c f]; simpl; intros Hwf Hin.
    - destruct Hin as [Hp _]. rewrite (Hdense p Hp).
      destruct Hwf as (Hv & Hrest). split; [|exact Hrest].
      eapply validSlice_agree; eassumption.
    - rewrite Hdiag. destruct Hwf as (Hv & Hrest). split; [|exact Hrest].
      eapply validSlice_agree; eassumption.
    - apply IH; assumption.
    - apply IH; assumption.
    - exact I.
  Qed.

End Frame.

(** A well-formed operand can be read at every index within its dimensions. *)
Lemma wfGeneral_cell h g i j :
  wfGeneral h g -> i < General.Rows g -> j < General.Cols g ->
  i * General.Stride g + j < len (General.Data g)
  /\ is_Some (sliceGet h (General.Data g) (i * General.Stride g + j)).
Proof.
  intros (Hv & Hcs & Hlen) Hi Hj.
  assert (Hidx : i * General.Stride g + j < len (General.Data g)).
  { assert (i * General.Stride g <= (General.Rows g - 1) * General.Stride g)
      by (apply Nat.mul_le_mono_r; lia). lia. }
  split; [exact Hidx|].
  destruct (General.Data g) as [|a off l c]; simpl in *; [lia|].
  destruct Hv as [Hlc Hv].
  apply Nat.ltb_lt in Hidx as Hb. rewrite Hb. apply Hv. lia.
Qed.

Lemma wfVector_cell h v i :
  wfVector h v -> i < Vector.N v ->
  i * Vector.Inc v < len (Vector.Data v)
  /\ is_Some (sliceGet h (Vector.Data v) (i * Vector.Inc v)).
Proof.
  intros (Hv & Hlen) Hi. destruct Hlen as [Hinc Hlen]; [lia|].
  assert (Hidx : i * Vector.Inc v < len (Vector.Data v)).
  { assert (i * Vector.Inc v <= (Vector.N v - 1) * Vector.Inc v)
      by (apply Nat.mul_le_mono_r; lia). lia. }
  split; [exact Hidx|].
  destruct (Vector.Data v) as [|a off l c]; simpl in *; [lia|].
  destruct Hv as [Hlc Hv].
  apply Nat.ltb_lt in Hidx as Hb. rewrite Hb. apply Hv. lia.
Qed.

Lemma atOf_wf h a :
  wfM h a -> forall i j, i < fst (DimsOf h a) -> j < snd (DimsOf h a) ->
  exists v, atOf h a i j = inr v.
Proof.
  induction a as [p|p|u IH|u IH|r c f]; simpl; intros Hwf i j Hi Hj.
  - unfold denseAtOf.
    destruct (wfGeneral_cell _ _ i j Hwf Hi Hj) as [_ [v Hv]].
    apply Nat.leb_gt in Hi, Hj. rewrite Hi, Hj, Hv. eauto.
  - unfold diagAtOf.
    destruct (wfVector_cell _ _ i Hwf Hi) as [_ [v Hv]].
    apply Nat.leb_gt in Hi, Hj. rewrite Hi, Hj.
    destruct (negb (i =? j)); [eauto|]. rewrite Hv. eauto.
  - destruct (DimsOf h u) as [ur uc]. simpl in *. apply IH; assumption.
  - destruct (DimsOf h u) as [ur uc]. simpl in *.
    destruct (IH Hwf j i) as [v Hv]; [assumption..|]. rewrite Hv. eauto.
  - eauto.
Qed.

Lemma atOf_valOf h a i j :
  wfM h a -> i < fst (DimsOf h a) -> j < snd (DimsOf h a) ->
  atOf h a i j = inr (valOf h a i j).
Proof.
  intros Hwf Hi Hj. destruct (atOf_wf h a Hwf i j Hi Hj) as [v Hv].
  unfold valOf. rewrite Hv. reflexivity.
Qed.

(** ** Resizing the destination *)

Lemma agree_weaken h0 h s : agree h0 h nilSlice -> agree h0 h s.
Proof.
  intros Ha x i Hs. destruct (Ha x i Hs) as [S1 E1]. split; [assumption|].
  intros _. apply E1. simpl. tauto.
Qed.

Lemma getDense_insert_eq h m g (h' : Heap) :
  m < length (cdenses h) ->
  cdenses h' = <[m := CDense.mk g]> (cdenses h) ->
  getDense h' m = CDense.mk g.
Proof.
  intros Hm E. unfold getDense. rewrite E.
  rewrite list_lookup_insert_eq by assumption. reflexivity.
Qed.

Lemma getDense_insert_ne h m g (h' : Heap) p :
  p <> m ->
  cdenses h' = <[m := CDense.mk g]> (cdenses h) ->
  getDense h' p = getDense h p.
Proof.
  intros Hm E. unfold getDense. rewrite E.
  rewrite list_lookup_insert_ne by congruence. reflexivity.
Qed.

Lemma cellAt_make_old h l x i :
  is_Some (cellAt h x i) ->
  cellAt (mkHeap (arrays h ++ [replicate l czero]) (cdenses h) (cdiags h)) x i
  = cellAt h x i.
Proof.
  unfold cellAt. simpl. intros [v Hv].
  destruct (arrays h !! x) as [L|] eqn:E; [|discriminate].
  rewrite (lookup_app_l_Some _ _ _ _ E). reflexivity.
Qed.

Lemma cellAt_make_new h l i :
  i < l ->
  cellAt (mkHeap (arrays h ++ [replicate l czero]) (cdenses h) (cdiags h))
    (length (arrays h)) i = Some czero.
Proof.
  unfold cellAt. simpl. intros Hi.
  rewrite lookup_app_r by lia. rewrite Nat.sub_diag. simpl.
  apply lookup_replicate_2. assumption.
Qed.

Lemma cellAt_fresh h i : cellAt h (length (arrays h)) i = None.
Proof.
  unfold cellAt. rewrite (lookup_ge_None_2 (arrays h)) by lia. reflexivity.
Qed.

Lemma CDense_reuseAsNonZeroed_spec h m r c :
  destOK h m r c -> r <> 0 -> c <> 0 ->
  exists h1 g1,
    CDense_reuseAsNonZeroed m r c h = Ok tt h1
    /\ getDense h1 m = CDense.mk g1
    /\ General.Rows g1 = r /\ General.Cols g1 = c /\ General.Stride g1 <> 0
    /\ wfGeneral h1 g1
    /\ (forall p, p <> m -> getDense h1 p = getDense h p)
    /\ cdiags h1 = cdiags h
    /\ length (cdenses h1) = length (cdenses h)
    /\ agree h h1 nilSlice
    /\ (forall x i, inWin (General.Data g1) x i ->
          inWin (General.Data (CDense.mat (getDense h m))) x i
          \/ cellAt h x i = None)
    /\ (General.Stride (CDense.mat (getDense h m)) <> 0 -> h1 = h).
Proof.
  intros (Hm & Hv & Hcase) Hr Hc.
  unfold CDense_reuseAsNonZeroed.
  apply Nat.eqb_neq in Hr as Hr', Hc as Hc'. rewrite Hr', Hc'. simpl.
  destruct (getDense h m) as [g0] eqn:Eg. simpl in *.
  unfold CDense_IsEmpty, denseMat, bind, gets, ret. cbv beta iota. rewrite Eg.
  cbn [CDense.mat].
  destruct Hcase as [Hemp | (Hne & HR & HC & Hwf)].
  - (* empty receiver *)
    rewrite Hemp. cbn [Nat.eqb]. cbv beta iota. rewrite ?Eg. cbn [CDense.mat].
    unfold useC.
    destruct (r * c <=? cap (General.Data g0)) eqn:Hcap.
    + (* the buffer is reused *)
      apply Nat.leb_le in Hcap. unfold ret, setDenseMat, modify.
      eexists _, _. split; [reflexivity|].
      split; [eapply getDense_insert_eq; [exact Hm|reflexivity]|].
      cbn [General.Rows General.Cols General.Stride General.Data
           arrays cdenses cdiags].
      split; [reflexivity|]. split; [reflexivity|]. split; [assumption|].
      assert (Hnn : r * c <> 0) by nia.
      split.
      { unfold wfGeneral. cbn [General.Rows General.Cols General.Stride General.Data].
        destruct (General.Data g0) as [|a off l cp]; simpl in *; [lia|].
        repeat split; try lia; try nia.
        intros i Hi. rewrite Nat.add_0_r. apply Hv. lia. }
      split; [intros p Hp; eapply getDense_insert_ne; [exact Hp|reflexivity]|].
      split; [reflexivity|].
      split; [apply length_insert|].
      split; [intros x i Hs; split; [exact Hs|reflexivity]|].
      split; [|intros Hs; lia].
      intros x i Hw. left.
      destruct (General.Data g0) as [|a off l cp]; simpl in *; [assumption|]. lia.
    + (* a new buffer is allocated *)
      apply Nat.leb_gt in Hcap. unfold make, setDenseMat, modify.
      eexists _, _. split; [reflexivity|].
      split; [eapply getDense_insert_eq; [exact Hm|reflexivity]|].
      cbn [General.Rows General.Cols General.Stride General.Data
           arrays cdenses cdiags].
      split; [reflexivity|]. split; [reflexivity|]. split; [assumption|].
      split.
      { unfold wfGeneral. cbn [General.Rows General.Cols General.Stride General.Data].
        simpl. repeat split; try lia; try nia.
        intros i Hi. apply mk_is_Some with czero.
        apply (cellAt_make_new h (r * c) i Hi). }
      split; [intros p Hp; eapply getDense_insert_ne; [exact Hp|reflexivity]|].
      split; [reflexivity|].
      split; [apply length_insert|].
      split.
      { intros x i Hs.
        pose proof (cellAt_make_old h (r * c) x i Hs) as E.
        unfold cellAt in *. simpl in *. rewrite E. split; [exact Hs|reflexivity]. }
      split; [|intros Hs; lia].
      intros x i [-> _]. right. apply cellAt_fresh.
  - (* a receiver of the right shape *)
    apply Nat.eqb_neq in Hne as Hne'. rewrite Hne'.
    cbv beta iota. rewrite ?Eg. cbn [CDense.mat].
    subst r c. rewrite !Nat.eqb_refl. simpl.
    exists h, g0. split; [reflexivity|].
    split; [assumption|].
    split; [reflexivity|]. split; [reflexivity|]. split; [assumption|].
    split; [assumption|].
    split; [reflexivity|]. split; [reflexivity|]. split; [reflexivity|].
    split; [apply agree_refl|].
    split; [|reflexivity].
    intros x i Hw. left. assumption.
Qed.

(** ** Writing into a well-formed dense destination *)

Lemma filledTo_is_Some h0 h a pos cnt val n k :
  filledTo h0 h a pos cnt val n -> k < cnt ->
  is_Some (cellAt h0 a (pos k)) -> is_Some (cellAt h a (pos k)).
Proof.
  intros (_ & _ & _ & _ & Hrest & Hdone) Hk Hs.
  destruct (Nat.lt_ge_cases k n) as [Hlt|Hge].
  - rewrite Hdone by assumption. eauto.
  - rewrite Hrest by assumption. assumption.
Qed.

Lemma filledTo_getDense h0 h a pos cnt val n p :
  filledTo h0 h a pos cnt val n -> getDense h p = getDense h0 p.
Proof. intros (Hd & _). unfold getDense. rewrite Hd. reflexivity. Qed.

Lemma filledTo_getDiag h0 h a pos cnt val n p :
  filledTo h0 h a pos cnt val n -> getDiag h p = getDiag h0 p.
Proof. intros (_ & Hd & _). unfold getDiag. rewrite Hd. reflexivity. Qed.

Lemma classic_pos (x i a : nat) (pos : nat -> nat) cnt :
  (exists k, k < cnt /\ (x, i) = (a, pos k))
  \/ (forall k, k < cnt -> (x, i) <> (a, pos k)).
Proof.
  induction cnt as [|n IH].
  - right. intros k Hk. lia.
  - destruct IH as [(k & Hk & E)|Hno].
    + left. exists k. split; [lia|assumption].
    + destruct (decide ((x, i) = (a, pos n))) as [E|N].
      * left. exists n. split; [lia|assumption].
      * right. intros k Hk. destruct (Nat.eq_dec k n) as [->|Hne]; [assumption|].
        apply Hno. lia.
Qed.

Lemma filledTo_agree h0 h a pos cnt val n s :
  filledTo h0 h a pos cnt val n ->
  (forall k, k < cnt -> is_Some (cellAt h0 a (pos k))) ->
  (forall k, k < cnt -> inWin s a (pos k)) ->
  agree h0 h s.
Proof.
  intros Hf Hsome Hwin x i Hs.
  destruct (classic_pos x i a pos cnt) as [(k & Hk & E)|Hno].
  - inversion E; subst. split.
    + eapply filledTo_is_Some; eauto.
    + intros Hw. exfalso. apply Hw. apply Hwin. assumption.
  - destruct Hf as (_ & _ & _ & Hout & _).
    rewrite (Hout x i Hno). split; [assumption|reflexivity].
Qed.

Lemma dense_cells_ok h g am off l cp k :
  wfGeneral h g -> General.Data g = Slice am off l cp ->
  k < General.Rows g * General.Cols g ->
  (k / General.Cols g) * General.Stride g + k mod General.Cols g < l
  /\ is_Some (cellAt h am (rowMajor off (General.Stride g) (General.Cols g) k))
  /\ inWin (General.Data g) am (rowMajor off (General.Stride g) (General.Cols g) k).
Proof.
  intros Hwf Hd Hk.
  assert (HC : General.Cols g <> 0) by (intros E; rewrite E in Hk; lia).
  pose proof (div_lt_cells _ _ _ Hk) as Hr.
  pose proof (Nat.mod_upper_bound k _ HC) as Hc.
  destruct (wfGeneral_cell h g _ _ Hwf Hr Hc) as [Hidx Hs].
  destruct Hwf as (Hv & _). rewrite Hd in *. simpl in Hv, Hidx, Hs.
  destruct Hv as [Hlc _].
  split; [exact Hidx|].
  apply Nat.ltb_lt in Hidx as Hb. rewrite Hb in Hs.
  unfold rowMajor. rewrite <- Nat.add_assoc. split; [exact Hs|].
  simpl. split; [reflexivity|]. lia.
Qed.

Lemma CDense_set_store h m g am off l cp r c v :
  getDense h m = CDense.mk g -> General.Data g = Slice am off l cp ->
  r < General.Rows g -> c < General.Cols g ->
  r * General.Stride g + c < l ->
  is_Some (cellAt h am (off + (r * General.Stride g + c))) ->
  CDense_set m r c v h
  = Ok tt (storeAt am (off + (r * General.Stride g + c)) v h).
Proof.
  intros Eg Hd Hr Hc Hidx Hs.
  unfold CDense_set, denseMat, bind, gets. rewrite Eg. cbn [CDense.mat].
  apply Nat.leb_gt in Hr, Hc. rewrite Hr, Hc. rewrite Hd.
  apply writeSlice_ok; assumption.
Qed.

Lemma dense_write_store h m g am off l cp idx v :
  getDense h m = CDense.mk g -> General.Data g = Slice am off l cp ->
  idx < l -> is_Some (cellAt h am (off + idx)) ->
  bind (denseMat m) (fun g' => writeSlice (General.Data g') idx v) h
  = Ok tt (storeAt am (off + idx) v h).
Proof.
  intros Eg Hd Hidx Hs.
  unfold denseMat, bind, gets. rewrite Eg. cbn [CDense.mat]. rewrite Hd.
  apply writeSlice_ok; assumption.
Qed.

(** After the cells have been filled in row-major order, the destination
    reads back the values. *)
Lemma filled_rowMajor_read h0 h g am off l cp val r c :
  wfGeneral h0 g -> General.Data g = Slice am off l cp ->
  filledTo h0 h am (rowMajor off (General.Stride g) (General.Cols g))
    (General.Rows g * General.Cols g) val (General.Rows g * General.Cols g) ->
  r < General.Rows g -> c < General.Cols g ->
  denseAtOf h g r c = inr (val (r * General.Cols g + c)).
Proof.
  intros Hwf Hd Hf Hr Hc.
  destruct (wfGeneral_cell h0 g r c Hwf Hr Hc) as [Hidx _].
  unfold denseAtOf. apply Nat.leb_gt in Hr as Hr', Hc as Hc'. rewrite Hr', Hc'.
  rewrite Hd in *. simpl in Hidx. rewrite sliceGet_Slice.
  apply Nat.ltb_lt in Hidx as Hb. rewrite Hb.
  destruct Hf as (_ & _ & _ & _ & _ & Hdone).
  specialize (Hdone (r * General.Cols g + c)).
  rewrite rowMajor_rc in Hdone by assumption.
  rewrite Nat.add_assoc. rewrite Hdone; [reflexivity|]. nia.
Qed.

(** ** The loops of Add, Sub and Scale fill the destination *)

Lemma sliceGet_reslice h s lo hi i :
  i < hi - lo -> lo + i < len s ->
  sliceGet h (reslice s lo hi) i = sliceGet h s (lo + i).
Proof.
  intros Hi Hl. destruct s as [|a off l c]; simpl in *; [lia|].
  apply Nat.ltb_lt in Hi, Hl. rewrite Hi, Hl. rewrite Nat.add_assoc. reflexivity.
Qed.

Section Target.
  (** A well-formed destination [m] with struct [g] in the store [h1]. *)
Variables (h1 : Heap) (m : ptr) (g : General.t) (am off l cp : nat).
Hypothesis Hg : getDense h1 m = CDense.mk g.
Hypothesis Hwf : wfGeneral h1 g.
Hypothesis Hd : General.Data g = Slice am off l cp.

Let R := General.Rows g.
Let C := General.Cols g.
Let St := General.Stride g.
Let pos := rowMajor off St C.

Lemma target_inj k k' : k < R * C -> k' < R * C -> pos k = pos k' -> k = k'.
  Proof. apply rowMajor_inj. apply Hwf. Qed.

Lemma target_some k : k < R * C -> is_Some (cellAt h1 am (pos k)).
  Proof. intros Hk. eapply dense_cells_ok; eauto. Qed.

Lemma genericCells_fill op a b fa fb :
    let val k := op (fa (k / C) (k mod C)) (fb (k / C) (k mod C)) in
    (forall h n r c, filledTo h1 h am pos (R * C) val n -> r < R -> c < C ->
       atOf h a r c = inr (fa r c) /\ atOf h b r c = inr (fb r c)) ->
    exists h2, genericCells op m R C a b h1 = Ok tt h2
               /\ filledTo h1 h2 am pos (R * C) val (R * C).
  Proof.
    intros val Hread. unfold genericCells.
    apply (fill_nested h1 am pos val
             (fun r c => bind (At a r c) (fun x => bind (At b r c) (fun y =>
                CDense_set m r c (op x y))))).
    - apply target_inj.
    - apply target_some.
    - intros r c h Hr Hc Hf.
      destruct (Hread h _ r c Hf Hr Hc) as [Ea Eb].
      rewrite (bind_Ok _ _ _ _ _ (At_ok _ _ _ _ _ Ea)).
      rewrite (bind_Ok _ _ _ _ _ (At_ok _ _ _ _ _ Eb)).
      assert (Hk : r * C + c < R * C) by nia.
      destruct (dense_cells_ok h1 g am off l cp _ Hwf Hd Hk) as (Hidx & Hs & _).
      fold C St in Hidx, Hs. fold pos in Hs.
      destruct (divmod_rc r c C Hc) as [Ediv Emod].
      rewrite Ediv, Emod in Hidx.
      unfold val. rewrite Ediv, Emod.
      unfold pos at 1. rewrite rowMajor_rc by assumption. rewrite <- Nat.add_assoc.
      apply (CDense_set_store h m g am off l cp); try assumption.
      + rewrite (filledTo_getDense _ _ _ _ _ _ _ m Hf). exact Hg.
      + rewrite Nat.add_assoc.
        change (is_Some (cellAt h am (off + r * St + c))).
        rewrite <- (rowMajor_rc off St C r c Hc).
        eapply filledTo_is_Some; [exact Hf|exact Hk|exact Hs].
    - apply filledTo_start.
  Qed.

Lemma sliceExpr_row h s ja :
    ja + C <= cap s -> sliceExpr s ja (ja + C) h = Ok (reslice s ja (ja + C)) h.
  Proof.
    intros Hc. unfold sliceExpr.
    assert (E1 : (ja <=? ja + C) = true) by (apply Nat.leb_le; lia).
    assert (E2 : (ja + C <=? cap s) = true) by (apply Nat.leb_le; lia).
    rewrite E1, E2. reflexivity.
  Qed.

Lemma denseRows_fill op ga gb fa fb :
    let val k := op (fa (k / C) (k mod C)) (fb (k / C) (k mod C)) in
    C <> 0 -> General.Stride ga <> 0 ->
    (R - 1) * General.Stride ga + C <= len (General.Data ga) ->
    len (General.Data ga) <= cap (General.Data ga) ->
    (forall h n r c, filledTo h1 h am pos (R * C) val n -> r < R -> c < C ->
       sliceGet h (General.Data ga) (r * General.Stride ga + c) = Some (fa r c)
       /\ sliceGet h (General.Data gb) (c + r * General.Stride gb) = Some (fb r c)) ->
    exists h2, denseRows op m R C ga gb h1 = Ok tt h2
               /\ filledTo h1 h2 am pos (R * C) val (R * C).
  Proof.
    intros val HC HSa Hlen Hcap Hread. unfold denseRows.
    set (Sa := General.Stride ga) in *. set (Sb := General.Stride gb) in *.
    pose (I := fun (r : nat) (s : nat * nat * nat) (h : Heap) =>
                 let '(ja, jb, jm) := s in
                 ja = r * Sa /\ jb = r * Sb /\ jm = r * St
                 /\ filledTo h1 h am pos (R * C) val (r * C)).
    match goal with
    | |- exists h2, forLoop _ ?cond ?post ?body _ _ = _ /\ _ =>
        destruct (forLoop_inv I cond post body R) with (extra := 0)
          (s := (0, 0, 0)) (h := h1) as (s' & h2 & E & Hi)
    end.
    - intros r [[ja jb] jm] h Hr (-> & -> & -> & Hf). split.
      { apply Nat.ltb_lt. fold Sa. nia. }
      assert (Hrow : r * Sa + C <= cap (General.Data ga)).
      { assert (r * Sa <= (R - 1) * Sa) by (apply Nat.mul_le_mono_r; lia). lia. }
      destruct (fill_range h1 am pos (R * C) val
                  (fun i => bind (readSlice (reslice (General.Data ga) (r * Sa) (r * Sa + C)) i)
                     (fun v => bind (readSlice (General.Data gb) (i + r * Sb))
                        (fun w => bind (denseMat m) (fun g' =>
                           writeSlice (General.Data g') (i + r * St) (op v w)))))
                  (r * C) C 0 h) as (h3 & E3 & Hf3).
      + apply target_inj.
      + apply target_some.
      + nia.
      + intros c h' Hc Hf'. cbn [Nat.add].
        destruct (Hread h' _ r c Hf' Hr Hc) as [Ea Eb].
        assert (Hrd : sliceGet h' (reslice (General.Data ga) (r * Sa) (r * Sa + C)) c
                      = Some (fa r c)).
        { rewrite sliceGet_reslice; [exact Ea|lia|].
          assert (r * Sa <= (R - 1) * Sa) by (apply Nat.mul_le_mono_r; lia). lia. }
        rewrite (bind_Ok _ _ _ _ _ (readSlice_ok _ _ _ _ Hrd)).
        rewrite (bind_Ok _ _ _ _ _ (readSlice_ok _ _ _ _ Eb)).
        assert (Hk : r * C + c < R * C) by nia.
        destruct (dense_cells_ok h1 g am off l cp _ Hwf Hd Hk) as (Hidx & Hs & _).
        fold C St in Hidx, Hs. fold pos in Hs.
        destruct (divmod_rc r c C Hc) as [Ediv Emod].
        rewrite Ediv, Emod in Hidx.
        unfold val. rewrite Ediv, Emod.
        unfold pos at 1. rewrite rowMajor_rc by assumption.
        replace (off + r * St + c) with (off + (c + r * St)) by lia.
        apply (dense_write_store h' m g am off l cp); try assumption.
        * rewrite (filledTo_getDense _ _ _ _ _ _ _ m Hf'). exact Hg.
        * lia.
        * replace (off + (c + r * St)) with (off + r * St + c) by lia.
          rewrite <- (rowMajor_rc off St C r c Hc).
          eapply filledTo_is_Some; [exact Hf'|exact Hk|exact Hs].
      + exact Hf.
      + exists h3. split.
        { rewrite (bind_Ok _ _ _ _ _ (sliceExpr_row h _ _ Hrow)).
          unfold rangeSlice.
          assert (El : len (reslice (General.Data ga) (r * Sa) (r * Sa + C)) = C).
          { destruct (General.Data ga); simpl in *; lia. }
          rewrite El. exact E3. }
        exists (Datatypes.S r * Sa, Datatypes.S r * Sb, Datatypes.S r * St), h3. split.
        { unfold bind, denseMat, gets, ret.
          rewrite (filledTo_getDense _ _ _ _ _ _ _ m Hf3), Hg. cbn [CDense.mat].
          fold St. f_equal. f_equal; [f_equal|]; lia. }
        unfold I. split; [reflexivity|]. split; [reflexivity|]. split; [reflexivity|].
        replace (Datatypes.S r * C) with (r * C + C) by lia. exact Hf3.
    - intros [[ja jb] jm] h (-> & _). apply Nat.ltb_ge. fold Sa. lia.
    - unfold I. split; [lia|]. split; [lia|]. split; [lia|]. apply filledTo_start.
    - destruct s' as [[ja jb] jm]. destruct Hi as (_ & _ & _ & Hf).
      exists h2. rewrite Nat.add_0_r in E. split; assumption.
  Qed.
End Target.

(** ** Operands across the resize and the fill of an independent destination *)

Lemma validSlice_inWin h s x i : validSlice h s -> inWin s x i -> is_Some (cellAt h x i).
Proof.
  destruct s as [|a off l c]; simpl; [tauto|].
  intros [_ Hv] [-> Hi]. replace i with (off + (i - off)) by lia. apply Hv. lia.
Qed.

Lemma sep_window h s0 s1 sp :
  validSlice h sp -> sep s0 sp ->
  (forall x i, inWin s1 x i -> inWin s0 x i \/ cellAt h x i = None) ->
  sep s1 sp.
Proof.
  intros Hv Hsep Hwin x i H1 Hp. destruct (Hwin x i H1) as [H0|Hn].
  - exact (Hsep x i H0 Hp).
  - pose proof (validSlice_inWin h sp x i Hv Hp) as [v Hs]. congruence.
Qed.

Lemma indep_reuse h h1 m s0 s1 a :
  (forall p, p <> m -> getDense h1 p = getDense h p) ->
  (forall p, getDiag h1 p = getDiag h p) ->
  (forall x i, inWin s1 x i -> inWin s0 x i \/ cellAt h x i = None) ->
  wfM h a -> indep h m s0 a -> indep h1 m s1 a.
Proof.
  intros Hdense Hdiag Hwin.
  induction a as [p|p|u IH|u IH|r c f]; simpl; intros Hwf Hin.
  - destruct Hin as [Hp Hsep]. rewrite (Hdense p Hp). split; [assumption|].
    eapply sep_window; [apply Hwf|eassumption|assumption].
  - rewrite Hdiag. eapply sep_window; [apply Hwf|eassumption|assumption].
  - apply IH; assumption.
  - apply IH; assumption.
  - exact I.
Qed.

Lemma operand_under_fill h1 h m s1 am pos cnt val n a :
  filledTo h1 h am pos cnt val n ->
  (forall k, k < cnt -> is_Some (cellAt h1 am (pos k))) ->
  (forall k, k < cnt -> inWin s1 am (pos k)) ->
  wfM h1 a -> indep h1 m s1 a ->
  forall i j, atOf h a i j = atOf h1 a i j.
Proof.
  intros Hf Hsome Hwin Hwf Hin.
  apply (atOf_agree h1 h m s1); try assumption.
  - eapply filledTo_agree; eassumption.
  - intros p _. eapply filledTo_getDense; eassumption.
  - intros p. eapply filledTo_getDiag; eassumption.
Qed.

Lemma denseAtOf_sliceGet h g r c v :
  r < General.Rows g -> c < General.Cols g ->
  denseAtOf h g r c = inr v ->
  sliceGet h (General.Data g) (r * General.Stride g + c) = Some v.
Proof.
  intros Hr Hc. unfold denseAtOf.
  apply Nat.leb_gt in Hr, Hc. rewrite Hr, Hc.
  destruct (sliceGet _ _ _); congruence.
Qed.

Lemma CDense_checkOverlap_ok m g h :
  exists b, CDense_checkOverlap m g h = Ok b h.
Proof. eexists. reflexivity. Qed.

Lemma CDense_checkOverlapMatrix_ok m a h :
  exists b, CDense_checkOverlapMatrix m a h = Ok b h.
Proof.
  destruct a; simpl; try (eexists; reflexivity).
  destruct (p =? m); eexists; reflexivity.
Qed.

Lemma indep_isPtr h m s a :
  indep h m s a -> isPtr m (untransposeExtractCmplx a).1.1 = false.
Proof.
  intros H.
  destruct a as [p|p|u|u|r c f]; simpl in *; try reflexivity;
    try (apply Nat.eqb_neq; tauto);
    destruct u as [p|p|v|v|r c f]; simpl in *; try reflexivity;
    try (apply Nat.eqb_neq; tauto);
    destruct v; simpl in *; try reflexivity; apply Nat.eqb_neq; tauto.
Qed.

(** ** Add and Sub into an independent destination *)

Lemma wfGeneral_Slice h g :
  wfGeneral h g -> General.Cols g <> 0 ->
  exists am off l cp, General.Data g = Slice am off l cp.
Proof.
  intros (_ & _ & Hlen) HC. revert Hlen.
  destruct (General.Data g) as [|am off l cp]; simpl; intros Hlen.
  - apply Nat.le_0_r in Hlen. apply Nat.eq_add_0 in Hlen. tauto.
  - eauto.
Qed.

Lemma wfGeneral_len_cap h g : wfGeneral h g -> len (General.Data g) <= cap (General.Data g).
Proof.
  intros (Hv & _). revert Hv. destruct (General.Data g); simpl; intros Hv; [lia|].
  apply Hv.
Qed.

Lemma elementwise_spec op h m a b R C :
  DimsOf h a = (R, C) -> DimsOf h b = (R, C) -> R <> 0 -> C <> 0 ->
  wfM h a -> wfM h b -> destOK h m R C ->
  indep h m (General.Data (CDense.mat (getDense h m))) a ->
  indep h m (General.Data (CDense.mat (getDense h m))) b ->
  exists h',
    elementwise op m a b h = Ok tt h'
    /\ DimsOf h' (PDense m) = (R, C)
    /\ (forall r c, r < R -> c < C ->
          atOf h' (PDense m) r c = inr (op (valOf h a r c) (valOf h b r c)))
    /\ (forall i j, atOf h' a i j = atOf h a i j)
    /\ (forall i j, atOf h' b i j = atOf h b i j)
    /\ DimsOf h' a = (R, C) /\ DimsOf h' b = (R, C).
Proof.
  intros Da Db HR HC Hwa Hwb Hdest Hia Hib.
  unfold elementwise, Dims.
  unfold bind at 1, gets at 1. rewrite Da.
  unfold bind at 1, gets at 1. rewrite Db.
  rewrite !Nat.eqb_refl. cbn [negb orb].
  pose proof (indep_isPtr _ _ _ _ Hia) as Hpa.
  pose proof (indep_isPtr _ _ _ _ Hib) as Hpb.
  destruct (untransposeExtractCmplx a) as [[aU aTrans] aConj] eqn:Eua.
  destruct (untransposeExtractCmplx b) as [[bU bTrans] bConj] eqn:Eub.
  cbn [fst] in Hpa, Hpb.
  destruct (CDense_reuseAsNonZeroed_spec h m R C Hdest HR HC)
    as (h1 & g1 & E1 & Hg1 & HR1 & HC1 & HS1 & Hwf1 & Hdense & Hdiag & _ & Hag & Hwin & _).
  rewrite (bind_Ok _ _ _ _ _ E1).
  assert (Hdiag' : forall p, getDiag h1 p = getDiag h p)
    by (intros p; unfold getDiag; rewrite Hdiag; reflexivity).
  set (s0 := General.Data (CDense.mat (getDense h m))) in *.
  pose proof (agree_weaken _ _ s0 Hag) as Hag0.
  assert (Hwa1 : wfM h1 a) by (eapply wfM_agree; eassumption).
  assert (Hwb1 : wfM h1 b) by (eapply wfM_agree; eassumption).
  assert (Hia1 : indep h1 m (General.Data g1) a) by (eapply indep_reuse; eassumption).
  assert (Hib1 : indep h1 m (General.Data g1) b) by (eapply indep_reuse; eassumption).
  assert (Ea1 : forall i j, atOf h1 a i j = atOf h a i j)
    by (apply (atOf_agree h h1 m s0); assumption).
  assert (Eb1 : forall i j, atOf h1 b i j = atOf h b i j)
    by (apply (atOf_agree h h1 m s0); assumption).
  assert (Da1 : DimsOf h1 a = (R, C))
    by (rewrite (DimsOf_agree h h1 m s0); assumption).
  assert (Db1 : DimsOf h1 b = (R, C))
    by (rewrite (DimsOf_agree h h1 m s0); assumption).
  destruct (wfGeneral_Slice h1 g1 Hwf1) as (am & off & l & cp & Hd1); [lia|].
  set (pos := rowMajor off (General.Stride g1) (General.Cols g1)).
  set (val := fun k => op (valOf h1 a (k / General.Cols g1) (k mod General.Cols g1))
                          (valOf h1 b (k / General.Cols g1) (k mod General.Cols g1))).
  assert (Hsome : forall k, k < General.Rows g1 * General.Cols g1 ->
                            is_Some (cellAt h1 am (pos k))).
  { intros k Hk. eapply dense_cells_ok; eauto. }
  assert (Hinw : forall k, k < General.Rows g1 * General.Cols g1 ->
                           inWin (General.Data g1) am (pos k)).
  { intros k Hk. eapply dense_cells_ok; eauto. }
  assert (Hread : forall h2 n r c,
             filledTo h1 h2 am pos (General.Rows g1 * General.Cols g1) val n ->
             r < General.Rows g1 -> c < General.Cols g1 ->
             atOf h2 a r c = inr (valOf h1 a r c)
             /\ atOf h2 b r c = inr (valOf h1 b r c)).
  { intros h2 n r c Hf Hr Hc. split.
    - rewrite (operand_under_fill h1 h2 m (General.Data g1) am pos _ val n a Hf);
        try assumption.
      apply atOf_valOf; [assumption|rewrite Da1; simpl; lia..].
    - rewrite (operand_under_fill h1 h2 m (General.Data g1) am pos _ val n b Hf);
        try assumption.
      apply atOf_valOf; [assumption|rewrite Db1; simpl; lia..]. }
  assert (Hfin : forall h2,
     filledTo h1 h2 am pos (General.Rows g1 * General.Cols g1) val
       (General.Rows g1 * General.Cols g1) ->
     DimsOf h2 (PDense m) = (R, C)
     /\ (forall r c, r < R -> c < C ->
           atOf h2 (PDense m) r c = inr (op (valOf h a r c) (valOf h b r c)))
     /\ (forall i j, atOf h2 a i j = atOf h a i j)
     /\ (forall i j, atOf h2 b i j = atOf h b i j)
     /\ DimsOf h2 a = (R, C) /\ DimsOf h2 b = (R, C)).
  { intros h2 Hf.
    assert (Hg2 : getDense h2 m = CDense.mk g1)
      by (rewrite (filledTo_getDense _ _ _ _ _ _ _ m Hf); exact Hg1).
    split; [simpl; rewrite Hg2; simpl; congruence|].
    split.
    - intros r c Hr Hc. simpl. rewrite Hg2. cbn [CDense.mat].
      rewrite (filled_rowMajor_read h1 h2 g1 am off l cp val r c); try assumption;
        try lia.
      unfold val. destruct (divmod_rc r c (General.Cols g1)) as [-> ->]; [lia|].
      unfold valOf. rewrite Ea1, Eb1. reflexivity.
    - split; [|split; [|split]].
      + intros i j.
        rewrite (operand_under_fill h1 h2 m (General.Data g1) am pos _ val _ a Hf);
          try assumption. apply Ea1.
      + intros i j.
        rewrite (operand_under_fill h1 h2 m (General.Data g1) am pos _ val _ b Hf);
          try assumption. apply Eb1.
      + rewrite (DimsOf_agree h1 h2 m (General.Data g1)); try assumption.
        * intros p _. eapply filledTo_getDense; eassumption.
        * intros p. eapply filledTo_getDiag; eassumption.
      + rewrite (DimsOf_agree h1 h2 m (General.Data g1)); try assumption.
        * intros p _. eapply filledTo_getDense; eassumption.
        * intros p. eapply filledTo_getDiag; eassumption. }
  assert (Hgen : exists h2, genericCells op m R C a b h1 = Ok tt h2 /\
     filledTo h1 h2 am pos (General.Rows g1 * General.Cols g1) val
       (General.Rows g1 * General.Cols g1)).
  { rewrite <- HR1, <- HC1.
    apply (genericCells_fill h1 m g1 am off l cp Hg1 Hwf1 Hd1 op a b
             (valOf h1 a) (valOf h1 b)).
    exact Hread. }
  assert (Hgeneric : exists h',
    bind (CDense_checkOverlapMatrix m aU) (fun _ =>
      bind (CDense_checkOverlapMatrix m bU) (fun _ =>
        if aTrans && isPtr m aU then
          bind (CDense_isolatedWorkspace m aU) (fun x =>
            match x with (w, restore) => defer restore (genericCells op w R C a b) end)
        else if bTrans && isPtr m bU then
          bind (CDense_isolatedWorkspace m bU) (fun x =>
            match x with (w, restore) => defer restore (genericCells op w R C a b) end)
        else genericCells op m R C a b)) h1 = Ok tt h'
    /\ DimsOf h' (PDense m) = (R, C)
    /\ (forall r c, r < R -> c < C ->
          atOf h' (PDense m) r c = inr (op (valOf h a r c) (valOf h b r c)))
    /\ (forall i j, atOf h' a i j = atOf h a i j)
    /\ (forall i j, atOf h' b i j = atOf h b i j)
    /\ DimsOf h' a = (R, C) /\ DimsOf h' b = (R, C)).
  { destruct Hgen as (h2 & E2 & Hf2). exists h2.
    destruct (CDense_checkOverlapMatrix_ok m aU h1) as [ba Eba].
    destruct (CDense_checkOverlapMatrix_ok m bU h1) as [bb Ebb].
    rewrite (bind_Ok _ _ _ _ _ Eba), (bind_Ok _ _ _ _ _ Ebb).
    rewrite Hpa, Hpb, !andb_false_r. split; [exact E2|]. apply Hfin. exact Hf2. }
  destruct a as [arm|pa|ua|ua|ra ca fa]; try exact Hgeneric.
  destruct b as [brm|pb|ub|ub|rb cb fb]; try exact Hgeneric.
  (* both operands are plain dense matrices *)
  clear Hgeneric Hgen.
  simpl in Eua, Eub. inversion Eua; subst aU aTrans aConj.
  inversion Eub; subst bU bTrans bConj. clear Eua Eub.
  rewrite Hpa, Hpb. cbn [negb].
  unfold denseMat at 1. unfold bind at 1, gets at 1.
  unfold denseMat at 1. unfold bind at 1, gets at 1.
  destruct (CDense_checkOverlap_ok m (CDense.mat (getDense h1 arm)) h1) as [ba Eba].
  destruct (CDense_checkOverlap_ok m (CDense.mat (getDense h1 brm)) h1) as [bb Ebb].
  unfold bind at 1. unfold bind at 1. rewrite Eba. unfold ret at 1.
  unfold bind at 1. unfold bind at 1. rewrite Ebb. unfold ret at 1.
  simpl in Da1, Db1, Hwa1, Hwb1. injection Da1 as HRa HCa. injection Db1 as HRb HCb.
  set (ga := CDense.mat (getDense h1 arm)) in *.
  set (gb := CDense.mat (getDense h1 brm)) in *.
  destruct (denseRows_fill h1 m g1 am off l cp Hg1 Hwf1 Hd1 op ga gb
              (valOf h1 (PDense arm)) (valOf h1 (PDense brm))) as (h2 & E2 & Hf2).
  - lia.
  - destruct Hwa1 as (_ & Hcs & _). lia.
  - destruct Hwa1 as (_ & _ & Hlen). rewrite HR1, HC1. rewrite HRa, HCa in Hlen. exact Hlen.
  - eapply wfGeneral_len_cap. exact Hwa1.
  - intros h2 n r c Hf Hr Hc.
    destruct (Hread h2 n r c Hf Hr Hc) as [Ea Eb].
    simpl in Ea, Eb.
    rewrite (filledTo_getDense _ _ _ _ _ _ _ arm Hf) in Ea.
    rewrite (filledTo_getDense _ _ _ _ _ _ _ brm Hf) in Eb.
    split.
    + apply denseAtOf_sliceGet; [fold ga; lia..|exact Ea].
    + rewrite Nat.add_comm. apply denseAtOf_sliceGet; [fold gb; lia..|exact Eb].
  - exists h2. rewrite HR1, HC1 in E2. split; [exact E2|]. apply Hfin. exact Hf2.
Qed.

(** ** Addition of complex128 values commutes *)

Lemma SFadd_comm prec emax x y : SFadd prec emax x y = SFadd prec emax y x.
Proof.
  destruct x as [sx|sx| |sx mx ex], y as [sy|sy| |sy my ey]; simpl; try reflexivity.
  - destruct sx, sy; reflexivity.
  - destruct sx, sy; reflexivity.
  - rewrite (Z.min_comm ex ey). rewrite Z.add_comm. reflexivity.
Qed.

Lemma float_add_comm (x y : float) : (x + y)%float = (y + x)%float.
Proof.
  apply Prim2SF_inj. rewrite !add_spec. unfold SF64add. apply SFadd_comm.
Qed.

Lemma cadd_comm x y : cadd x y = cadd y x.
Proof.
  unfold cadd. rewrite (float_add_comm (re x)), (float_add_comm (im x)). reflexivity.
Qed.

(** ** The claims on Add *)

Lemma CDense_IsEmpty_true h m :
  CDense_IsEmpty m h = Ok true h -> General.Stride (CDense.mat (getDense h m)) = 0.
Proof.
  unfold CDense_IsEmpty, bind, denseMat, gets, ret. intros E.
  injection E as E. apply Nat.eqb_eq. assumption.
Qed.

(** C6 -- Empty-destination auto-resize: given an empty destination and two
    operands of equal (non-zero) dimensions that do not share storage with
    it, Add succeeds without any prior resize, and afterwards the
    destination has the dimensions of a and of b and holds the sums. *)
Theorem Add_resizes_empty_destination h dest a b R C :
  dest < length (cdenses h) ->
  CDense_IsEmpty dest h = Ok true h ->
  validSlice h (General.Data (CDense.mat (getDense h dest))) ->
  DimsOf h a = (R, C) -> DimsOf h b = (R, C) -> R <> 0 -> C <> 0 ->
  wfM h a -> wfM h b ->
  indep h dest (General.Data (CDense.mat (getDense h dest))) a ->
  indep h dest (General.Data (CDense.mat (getDense h dest))) b ->
  exists h',
    CDense_Add dest a b h = Ok tt h'
    /\ DimsOf h' (PDense dest) = DimsOf h' a
    /\ DimsOf h' a = DimsOf h' b
    /\ DimsOf h' (PDense dest) = (R, C)
    /\ (forall r c, r < R -> c < C ->
          atOf h' (PDense dest) r c = inr (cadd (valOf h a r c) (valOf h b r c))).
Proof.
  intros Hm He Hv Da Db HR HC Hwa Hwb Hia Hib.
  apply CDense_IsEmpty_true in He.
  destruct (elementwise_spec cadd h dest a b R C) as
    (h' & E & Dm & Hval & _ & _ & Da' & Db'); try assumption.
  - split; [assumption|]. split; [assumption|]. left. assumption.
  - exists h'. split; [exact E|]. rewrite Da', Db', Dm. auto.
Qed.

Lemma heapABC_cells i : i < 4 ->
  is_Some (cellAt heapABC 0 i) /\ is_Some (cellAt heapABC 1 i).
Proof.
  intros Hi. do 4 (destruct i as [|i]; [vm_compute; eauto|]). lia.
Qed.

Lemma Add_resizes_empty_destination_witness :
  exists h',
    CDense_Add 2 (PDense 0) (PDense 1) heapABC = Ok tt h'
    /\ DimsOf h' (PDense 2) = DimsOf h' (PDense 0)
    /\ DimsOf h' (PDense 0) = DimsOf h' (PDense 1)
    /\ DimsOf h' (PDense 2) = (2, 2)
    /\ (forall r c, r < 2 -> c < 2 ->
          atOf h' (PDense 2) r c
          = inr (cadd (valOf heapABC (PDense 0) r c) (valOf heapABC (PDense 1) r c))).
Proof.
  apply (Add_resizes_empty_destination heapABC 2 (PDense 0) (PDense 1) 2 2).
  - vm_compute. lia.
  - reflexivity.
  - vm_compute. exact I.
  - reflexivity.
  - reflexivity.
  - lia.
  - lia.
  - split; [|vm_compute; lia]. split; [lia|]. intros i Hi. apply heapABC_cells. exact Hi.
  - split; [|vm_compute; lia]. split; [lia|]. intros i Hi. apply heapABC_cells. exact Hi.
  - split; [lia|]. intros x i Hw _. exact Hw.
  - split; [lia|]. intros x i Hw _. exact Hw.
Defined.

(** C5 -- Commutativity of Add: for operands a and b of equal dimensions
    and destinations c1 and c2 that share storage with neither, Add(c1, a, b)
    and Add(c2, b, a) both succeed and give the same entry at every
    position. *)
Theorem Add_commutes h c1 c2 a b R C :
  DimsOf h a = (R, C) -> DimsOf h b = (R, C) -> R <> 0 -> C <> 0 ->
  wfM h a -> wfM h b ->
  destOK h c1 R C -> destOK h c2 R C ->
  indep h c1 (General.Data (CDense.mat (getDense h c1))) a ->
  indep h c1 (General.Data (CDense.mat (getDense h c1))) b ->
  indep h c2 (General.Data (CDense.mat (getDense h c2))) a ->
  indep h c2 (General.Data (CDense.mat (getDense h c2))) b ->
  exists h1 h2,
    CDense_Add c1 a b h = Ok tt h1
    /\ CDense_Add c2 b a h = Ok tt h2
    /\ DimsOf h1 (PDense c1) = DimsOf h2 (PDense c2)
    /\ (forall r c, r < R -> c < C ->
          exists v, atOf h1 (PDense c1) r c = inr v
                    /\ atOf h2 (PDense c2) r c = inr v).
Proof.
  intros Da Db HR HC Hwa Hwb Hd1 Hd2 Hia1 Hib1 Hia2 Hib2.
  destruct (elementwise_spec cadd h c1 a b R C) as
    (h1 & E1 & Dm1 & Hval1 & _); try assumption.
  destruct (elementwise_spec cadd h c2 b a R C) as
    (h2 & E2 & Dm2 & Hval2 & _); try assumption.
  exists h1, h2. split; [exact E1|]. split; [exact E2|].
  split; [congruence|].
  intros r c Hr Hc. eexists. split; [apply Hval1; assumption|].
  rewrite Hval2 by assumption. rewrite cadd_comm. reflexivity.
Qed.

Lemma Add_commutes_witness :
  exists h1 h2,
    CDense_Add 2 (PDense 0) (PDense 1) heapABC = Ok tt h1
    /\ CDense_Add 2 (PDense 1) (PDense 0) heapABC = Ok tt h2
    /\ DimsOf h1 (PDense 2) = DimsOf h2 (PDense 2)
    /\ (forall r c, r < 2 -> c < 2 ->
          exists v, atOf h1 (PDense 2) r c = inr v
                    /\ atOf h2 (PDense 2) r c = inr v).
Proof.
  apply (Add_commutes heapABC 2 2 (PDense 0) (PDense 1) 2 2).
  - reflexivity.
  - reflexivity.
  - lia.
  - lia.
  - split; [|vm_compute; lia]. split; [lia|]. intros i Hi. apply heapABC_cells. exact Hi.
  - split; [|vm_compute; lia]. split; [lia|]. intros i Hi. apply heapABC_cells. exact Hi.
  - split; [vm_compute; lia|]. split; [exact I|]. left. reflexivity.
  - split; [vm_compute; lia|]. split; [exact I|]. left. reflexivity.
  - split; [lia|]. intros x i Hw _. exact Hw.
  - split; [lia|]. intros x i Hw _. exact Hw.
  - split; [lia|]. intros x i Hw _. exact Hw.
  - split; [lia|]. intros x i Hw _. exact Hw.
Defined.

(** ** The examples of the test file *)

(** C3 -- Concrete scenario 2: with a = [[1+1i, 0],[1, 2i]] and
    b = [[0, 1i],[0, 3+2i]], the self-aliased call a.Sub(a, b) leaves a equal
    to [[1+1i, -1i],[1, -3]]. *)
Theorem ExampleCDense_Sub_self_aliased :
  resultOf (('(a, b) <- exampleAB ;;
             CDense_Sub a (PDense a) (PDense b) ;;
             entries (PDense a)) emptyHeap)
  = Some [[Cx 1 1; Cx 0 (-1)]; [Cx 1 0; Cx (-3) 0]].
Proof. vm_compute. reflexivity. Qed.

(** Concrete scenario 1, the same operands added into an empty receiver. *)
Example ExampleCDense_Add :
  resultOf (('(a, b, c) <- exampleABC ;;
             CDense_Add c (PDense a) (PDense b) ;;
             entries (PDense c)) emptyHeap)
  = Some [[Cx 1 1; Cx 0 1]; [Cx 1 0; Cx 3 4]].
Proof. vm_compute. reflexivity. Qed.

(** ** DiagCDense: construction *)

(** C8 -- NewDiagCDense(n, data) panics whenever n <= 0 (with ErrZeroLength
    for n = 0 and with "mat: negative dimension" for n < 0, the two
    invalid-dimension panics); for n > 0 it panics with ErrShape when data is
    non-empty and its length differs from n; and when data is nil it returns
    a new n x n diagonal matrix over a new zero-filled vector of length n.
    A panic leaves the store as it was. *)
Theorem NewDiagCDense_spec (n : Z) (data : slice) (h : Heap) :
  ((n <= 0)%Z ->
     NewDiagCDense n data h
     = Panic (if (n =? 0)%Z then ErrZeroLength
              else PanicMsg "mat: negative dimension") h)
  /\ ((0 < n)%Z -> len data <> 0 -> Z.of_nat (len data) <> n ->
      NewDiagCDense n data h = Panic ErrShape h)
  /\ ((0 < n)%Z -> data = nilSlice ->
      exists d h',
        NewDiagCDense n data h = Ok d h'
        /\ d = length (cdiags h)
        /\ DiagCDense.mat (getDiag h' d)
           = Vector.mk (Z.to_nat n) (Slice (length (arrays h)) 0 (Z.to_nat n) (Z.to_nat n)) 1
        /\ arrays h' = arrays h ++ [replicate (Z.to_nat n) czero]
        /\ DimsOf h' (PDiag d) = (Z.to_nat n, Z.to_nat n)
        /\ (forall i j, i < Z.to_nat n -> j < Z.to_nat n ->
              atOf h' (PDiag d) i j = inr czero)).
Proof.
  unfold NewDiagCDense. split; [|split].
  - intros Hn. apply Z.leb_le in Hn. rewrite Hn.
    destruct (n =? 0)%Z; reflexivity.
  - intros Hn Hl Hne. apply Z.leb_gt in Hn. rewrite Hn.
    destruct data as [|a off l c]; cbn [len isNil] in *; [lia|].
    unfold bind, ret. cbn [len]. apply Z.eqb_neq in Hne. rewrite Hne. reflexivity.
  - intros Hn ->. apply Z.leb_gt in Hn as Hn'. rewrite Hn'. simpl isNil. cbv iota.
    unfold bind, make. cbn [len].
    rewrite Z2Nat.id by lia. rewrite Z.eqb_refl. cbn [negb].
    unfold newDiagCDense. cbn [arrays cdenses cdiags].
    eexists _, _. split; [reflexivity|]. split; [reflexivity|].
    assert (Eg : getDiag (mkHeap (arrays h ++ [replicate (Z.to_nat n) czero]) (cdenses h)
                     (cdiags h ++ [DiagCDense.mk
                        (Vector.mk (Z.to_nat n)
                           (Slice (length (arrays h)) 0 (Z.to_nat n) (Z.to_nat n)) 1)]))
                  (length (cdiags h))
                 = DiagCDense.mk (Vector.mk (Z.to_nat n)
                           (Slice (length (arrays h)) 0 (Z.to_nat n) (Z.to_nat n)) 1)).
    { unfold getDiag. cbn [cdiags]. rewrite lookup_app_r by lia.
      rewrite Nat.sub_diag. reflexivity. }
    split; [rewrite Eg; reflexivity|]. split; [reflexivity|].
    split; [simpl; rewrite Eg; reflexivity|].
    intros i j Hi Hj. simpl. rewrite Eg. unfold diagAtOf. cbn [DiagCDense.mat Vector.N Vector.Data Vector.Inc].
    apply Nat.leb_gt in Hi as Hi', Hj as Hj'. rewrite Hi', Hj'.
    destruct (negb (i =? j)); [reflexivity|].
    rewrite sliceGet_Slice. rewrite Nat.mul_1_r.
    apply Nat.ltb_lt in Hi as Hi''. rewrite Hi''.
    pose proof (cellAt_make_new h (Z.to_nat n) i Hi) as E.
    unfold cellAt in *. cbn [arrays Nat.add] in *. rewrite E. reflexivity.
Qed.

Example NewDiagCDense_zero_length h data :
  NewDiagCDense 0 data h = Panic ErrZeroLength h.
Proof. reflexivity. Qed.

Example NewDiagCDense_negative h data :
  NewDiagCDense (-3) data h = Panic (PanicMsg "mat: negative dimension") h.
Proof. reflexivity. Qed.

(** A non-nil slice of length zero is not replaced: its length is compared
    with n as well. *)
Example NewDiagCDense_empty_slice :
  NewDiagCDense 2 (Slice 0 0 0 0) emptyHeap = Panic ErrShape emptyHeap.
Proof. reflexivity. Qed.

(** ** DiagCDense: the empty-state invariant *)

Lemma keepsDiags_ret {A} (a : A) : keepsDiags (ret a).
Proof. intros h. reflexivity. Qed.

Lemma keepsDiags_panic {A} e : keepsDiags (@panic A e).
Proof. intros h. reflexivity. Qed.

Lemma keepsDiags_gets {A} (f : Heap -> A) : keepsDiags (gets f).
Proof. intros h. reflexivity. Qed.

Lemma keepsDiags_bind {A B} (x : M A) (k : A -> M B) :
  keepsDiags x -> (forall a, keepsDiags (k a)) -> keepsDiags (bind x k).
Proof.
  intros Hx Hk h. unfold bind. specialize (Hx h).
  destruct (x h) as [a h1|e h1]; simpl in *.
  - rewrite Hk. exact Hx.
  - exact Hx.
Qed.

Lemma keepsDiags_forRange n i0 body :
  (forall i, keepsDiags (body i)) -> keepsDiags (forRange n i0 body).
Proof.
  intros Hb. revert i0. induction n as [|n IH]; intros i0; simpl.
  - apply keepsDiags_ret.
  - apply keepsDiags_bind; [apply Hb|]. intros _. apply IH.
Qed.

Lemma keepsDiags_readSlice s i : keepsDiags (readSlice s i).
Proof. intros h. unfold readSlice. destruct (sliceGet h s i); reflexivity. Qed.

Lemma keepsDiags_writeSlice s i v : keepsDiags (writeSlice s i v).
Proof.
  intros h. unfold writeSlice. destruct s as [|a off l c]; [reflexivity|].
  destruct (i <? l); [|reflexivity].
  destruct (_ ≫= _); reflexivity.
Qed.

Lemma keepsDiags_At a i j : keepsDiags (At a i j).
Proof. intros h. rewrite At_atOf. destruct (atOf h a i j); reflexivity. Qed.

Lemma keepsDiags_Copy x y : keepsDiags (Copy x y).
Proof.
  unfold Copy. apply keepsDiags_forRange. intros i.
  apply keepsDiags_bind; [apply keepsDiags_readSlice|].
  intros v. apply keepsDiags_writeSlice.
Qed.

Lemma keepsDiags_setDiag d i x : keepsDiags (DiagCDense_setDiag d i x).
Proof.
  unfold DiagCDense_setDiag. apply keepsDiags_bind; [apply keepsDiags_gets|].
  intros v. destruct (_ <=? _); [apply keepsDiags_panic|apply keepsDiags_writeSlice].
Qed.

Lemma keepsDiags_inv {A} (c : M A) h :
  keepsDiags c -> diagInv h -> diagInv (heapOf (c h)).
Proof.
  intros Hk Hi d. unfold getDiag. rewrite Hk. apply Hi.
Qed.

(** After Reset the dimension and the increment are both zero. *)
Lemma DiagCDense_Reset_spec d h :
  exists h', DiagCDense_Reset d h = Ok tt h'
    /\ arrays h' = arrays h /\ cdenses h' = cdenses h
    /\ (forall p, p <> d -> getDiag h' p = getDiag h p)
    /\ Vector.N (DiagCDense.mat (getDiag h' d)) = 0
    /\ Vector.Inc (DiagCDense.mat (getDiag h' d)) = 0.
Proof.
  unfold DiagCDense_Reset, diagMat, setDiagMat, sliceExpr, bind, gets, modify, ret.
  cbn [Nat.leb andb]. eexists. split; [reflexivity|].
  cbn [arrays cdenses cdiags]. split; [reflexivity|]. split; [reflexivity|].
  destruct (Nat.lt_ge_cases d (length (cdiags h))) as [Hd|Hd].
  - split.
    + intros p Hp. unfold getDiag. cbn [cdiags].
      rewrite !list_lookup_insert_ne by congruence. reflexivity.
    + unfold getDiag. cbn [cdiags].
      rewrite !list_lookup_insert_eq by (rewrite ?length_insert; assumption).
      cbn. split; reflexivity.
  - unfold getDiag. cbn [cdiags]. rewrite !list_insert_ge by (rewrite ?length_insert; lia).
    split; [reflexivity|].
    rewrite (lookup_ge_None_2 _ _ Hd). split; reflexivity.
Qed.

(** reuseAsNonZeroed either panics and leaves the store as it is, or returns
    with the dimension and the increment both non-zero. *)
Lemma DiagCDense_reuseAsNonZeroed_cases d r h :
  (exists e, DiagCDense_reuseAsNonZeroed d r h = Panic e h)
  \/ (exists h', DiagCDense_reuseAsNonZeroed d r h = Ok tt h'
        /\ r <> 0
        /\ cdenses h' = cdenses h
        /\ (forall p, p <> d -> getDiag h' p = getDiag h p)
        /\ (d < length (cdiags h) ->
            Vector.N (DiagCDense.mat (getDiag h' d)) = r
            /\ Vector.Inc (DiagCDense.mat (getDiag h' d)) <> 0)
        /\ (length (cdiags h) <= d -> cdiags h' = cdiags h)).
Proof.
  unfold DiagCDense_reuseAsNonZeroed.
  destruct (r =? 0) eqn:Hr; [left; eexists; reflexivity|].
  apply Nat.eqb_neq in Hr.
  unfold DiagCDense_IsEmpty, diagMat, bind, gets, ret.
  destruct (Vector.Inc (DiagCDense.mat (getDiag h d)) =? 0) eqn:Hinc.
  - right. unfold useC.
    destruct (r <=? cap (Vector.Data (DiagCDense.mat (getDiag h d)))) eqn:Hcap;
      unfold ret, make, setDiagMat, modify; cbn [arrays cdenses cdiags];
      (eexists; split; [reflexivity|]; split; [assumption|];
       cbn [arrays cdenses cdiags]; split; [reflexivity|]; split; [|split]).
    + intros p Hp. unfold getDiag. cbn [cdiags].
      rewrite !list_lookup_insert_ne by congruence. reflexivity.
    + intros Hd. unfold getDiag. cbn [cdiags].
      rewrite !list_lookup_insert_eq by (rewrite ?length_insert; assumption).
      cbn. split; [reflexivity|lia].
    + intros Hd. rewrite !list_insert_ge by (rewrite ?length_insert; lia). reflexivity.
    + intros p Hp. unfold getDiag. cbn [cdiags].
      rewrite !list_lookup_insert_ne by congruence. reflexivity.
    + intros Hd. unfold getDiag. cbn [cdiags].
      rewrite !list_lookup_insert_eq by (rewrite ?length_insert; assumption).
      cbn. split; [reflexivity|lia].
    + intros Hd. rewrite !list_insert_ge by (rewrite ?length_insert; lia). reflexivity.
  - destruct (negb (r =? Vector.N (DiagCDense.mat (getDiag h d)))) eqn:Hn.
    + left. eexists. reflexivity.
    + right. exists h. split; [reflexivity|]. split; [assumption|].
      split; [reflexivity|]. split; [reflexivity|]. split; [|reflexivity].
      intros _. apply negb_false_iff, Nat.eqb_eq in Hn. apply Nat.eqb_neq in Hinc.
      split; [congruence|assumption].
Qed.

Lemma diagInv_ext h h' :
  (forall d, getDiag h' d = getDiag h d) -> diagInv h -> diagInv h'.
Proof. intros E Hi d. rewrite E. apply Hi. Qed.

Lemma NewDiagCDense_inv n data h :
  diagInv h -> diagInv (heapOf (NewDiagCDense n data h)).
Proof.
  intros Hi. unfold NewDiagCDense.
  destruct (n <=? 0)%Z eqn:Hn; [destruct (n =? 0)%Z; exact Hi|].
  apply Z.leb_gt in Hn.
  assert (Hnew : forall h1 s, diagInv h1 ->
            diagInv (heapOf (newDiagCDense (Vector.mk (Z.to_nat n) s 1) h1))).
  { intros h1 s Hi1 d. unfold newDiagCDense, getDiag. cbn [heapOf cdiags].
    destruct (Nat.lt_ge_cases d (length (cdiags h1))) as [Hd|Hd].
    - rewrite lookup_app_l by assumption. apply Hi1.
    - rewrite lookup_app_r by assumption.
      destruct (d - length (cdiags h1)) as [|k]; simpl.
      + unfold emptyInv. simpl. lia.
      + unfold emptyInv. simpl. tauto. }
  destruct (isNil data); unfold bind, make, ret.
  - cbn [len]. destruct (negb _); [exact Hi|]. apply Hnew.
    eapply diagInv_ext; [|exact Hi]. intros d. reflexivity.
  - destruct (negb _); [exact Hi|]. apply Hnew. exact Hi.
Qed.

Lemma DiagCDense_reuseAsNonZeroed_inv d r h :
  diagInv h -> diagInv (heapOf (DiagCDense_reuseAsNonZeroed d r h)).
Proof.
  intros Hi.
  destruct (DiagCDense_reuseAsNonZeroed_cases d r h)
    as [[e ->]|(h' & -> & Hr & _ & Hoth & Hval & Hinv)]; [exact Hi|].
  cbn [heapOf]. intros p. destruct (Nat.eq_dec p d) as [->|Hp].
  - destruct (Nat.lt_ge_cases d (length (cdiags h))) as [Hd|Hd].
    + destruct (Hval Hd) as [HN HI]. unfold emptyInv. lia.
    + unfold getDiag. rewrite (Hinv Hd). apply Hi.
  - rewrite Hoth by assumption. apply Hi.
Qed.

Lemma DiagCDense_DiagFrom_inv d m h :
  diagInv h -> diagInv (heapOf (DiagCDense_DiagFrom d m h)).
Proof.
  intros Hi. unfold DiagCDense_DiagFrom, Dims.
  unfold bind at 1, gets at 1. destruct (DimsOf h m) as [mr mc].
  pose proof (DiagCDense_reuseAsNonZeroed_inv d (mr `min` mc) h Hi) as Hi1.
  unfold bind at 1.
  destruct (DiagCDense_reuseAsNonZeroed d (mr `min` mc) h) as [[] h1|e h1];
    cbn [heapOf] in *; [|exact Hi1].
  apply keepsDiags_inv; [|exact Hi1].
  assert (Hloop : keepsDiags (forRange (mr `min` mc) 0
            (fun i => bind (At m i i) (fun x => DiagCDense_setDiag d i x)))).
  { apply keepsDiags_forRange. intros i.
    apply keepsDiags_bind; [apply keepsDiags_At|]. intros x. apply keepsDiags_setDiag. }
  destruct m; try exact Hloop.
  apply keepsDiags_bind; [apply keepsDiags_gets|]. intros vec.
  apply keepsDiags_bind; [apply keepsDiags_gets|]. intros dv.
  apply keepsDiags_Copy.
Qed.

Lemma runOp_inv op h : diagInv h -> diagInv (heapOf (runOp op h)).
Proof.
  intros Hi. destruct op; cbn [runOp].
  - pose proof (NewDiagCDense_inv n data h Hi) as H1. unfold bind.
    destruct (NewDiagCDense n data h); exact H1.
  - exact Hi.
  - exact Hi.
  - exact Hi.
  - destruct (DiagCDense_Reset_spec d h) as (h' & -> & _ & _ & Hoth & HN & HI).
    cbn [heapOf]. intros p. destruct (Nat.eq_dec p d) as [->|Hp].
    + unfold emptyInv. rewrite HN, HI. tauto.
    + rewrite Hoth by assumption. apply Hi.
  - apply keepsDiags_inv; [|exact Hi]. unfold DiagCDense_Zero.
    apply keepsDiags_bind; [apply keepsDiags_gets|]. intros v.
    apply keepsDiags_forRange. intros i.
    apply keepsDiags_bind; [apply keepsDiags_gets|]. intros v'.
    apply keepsDiags_writeSlice.
  - apply DiagCDense_DiagFrom_inv. exact Hi.
  - exact Hi.
  - apply DiagCDense_reuseAsNonZeroed_inv. exact Hi.
  - exact Hi.
  - exact Hi.
  - apply keepsDiags_inv; [|exact Hi].
    apply keepsDiags_bind; [|intros; apply keepsDiags_ret].
    intros h0. rewrite DiagCDense_At_atOf. destruct (diagAtOf _ _ _ _); reflexivity.
  - apply keepsDiags_inv; [|exact Hi]. apply keepsDiags_setDiag.
Qed.

Lemma runOps_inv ops h : diagInv h -> diagInv (runOps ops h).
Proof.
  revert h. induction ops as [|op ops IH]; intros h Hi; simpl.
  - exact Hi.
  - apply IH. apply runOp_inv. exact Hi.
Qed.

Lemma DiagCDense_reuseAsNonZeroed_empty d r h :
  d < length (cdiags h) -> DiagCDense_IsEmpty d h = Ok true h -> r <> 0 ->
  exists h', DiagCDense_reuseAsNonZeroed d r h = Ok tt h'
    /\ Vector.N (DiagCDense.mat (getDiag h' d)) = r
    /\ Vector.Inc (DiagCDense.mat (getDiag h' d)) = 1.
Proof.
  intros Hd He Hr. unfold DiagCDense_reuseAsNonZeroed.
  apply Nat.eqb_neq in Hr. rewrite Hr.
  rewrite (bind_Ok _ _ _ _ _ He).
  unfold diagMat, bind, gets, useC.
  destruct (r <=? cap _); unfold ret, make, setDiagMat, modify;
    cbn [arrays cdenses cdiags];
    (eexists; split; [reflexivity|]; unfold getDiag; cbn [cdiags];
     rewrite !list_lookup_insert_eq by (rewrite ?length_insert; assumption);
     cbn; split; reflexivity).
Qed.

(** C9 -- The empty-state invariant of DiagCDense: starting from a store in
    which every diagonal matrix has a zero dimension exactly when it has a
    zero increment, this still holds after any sequence of operations
    (panicking ones included); hence IsEmpty, which inspects the increment
    only, reports true exactly when the dimensions are zero.  Reset sets
    both to zero, and reuseAsNonZeroed on an empty receiver sets both to
    non-zero values. *)
Theorem DiagCDense_empty_state_invariant ops h :
  diagInv h ->
  let h' := runOps ops h in
  diagInv h'
  /\ (forall d, exists b,
        DiagCDense_IsEmpty d h' = Ok b h'
        /\ (b = true <-> DimsOf h' (PDiag d) = (0, 0)))
  /\ (forall d, exists h'',
        DiagCDense_Reset d h' = Ok tt h''
        /\ Vector.N (DiagCDense.mat (getDiag h'' d)) = 0
        /\ Vector.Inc (DiagCDense.mat (getDiag h'' d)) = 0)
  /\ (forall d r, d < length (cdiags h') ->
        DiagCDense_IsEmpty d h' = Ok true h' -> r <> 0 ->
        exists h'',
          DiagCDense_reuseAsNonZeroed d r h' = Ok tt h''
          /\ Vector.N (DiagCDense.mat (getDiag h'' d)) = r
          /\ Vector.Inc (DiagCDense.mat (getDiag h'' d)) = 1).
Proof.
  intros Hi h'. pose proof (runOps_inv ops h Hi) as Hi'. fold h' in Hi'.
  split; [exact Hi'|]. split; [|split].
  - intros d. eexists. split; [reflexivity|].
    specialize (Hi' d). unfold emptyInv in Hi'. simpl.
    rewrite Nat.eqb_eq. split.
    + intros E. apply Hi' in E. rewrite E. reflexivity.
    + intros E. apply Hi'. congruence.
  - intros d. destruct (DiagCDense_Reset_spec d h') as (h'' & E & _ & _ & _ & HN & HI).
    exists h''. auto.
  - intros d r Hd He Hr. apply DiagCDense_reuseAsNonZeroed_empty; assumption.
Qed.

Lemma DiagCDense_empty_state_invariant_witness :
  let h' := runOps [OpNew 2 nilSlice; OpReset 0; OpDiagFrom 0 (Foreign 3 4 (fun _ _ => cone));
                    OpZero 0; OpReset 0; OpReuseAsNonZeroed 0 0] emptyHeap in
  diagInv h'
  /\ (forall d, exists b,
        DiagCDense_IsEmpty d h' = Ok b h'
        /\ (b = true <-> DimsOf h' (PDiag d) = (0, 0)))
  /\ (forall d, exists h'',
        DiagCDense_Reset d h' = Ok tt h''
        /\ Vector.N (DiagCDense.mat (getDiag h'' d)) = 0
        /\ Vector.Inc (DiagCDense.mat (getDiag h'' d)) = 0)
  /\ (forall d r, d < length (cdiags h') ->
        DiagCDense_IsEmpty d h' = Ok true h' -> r <> 0 ->
        exists h'',
          DiagCDense_reuseAsNonZeroed d r h' = Ok tt h''
          /\ Vector.N (DiagCDense.mat (getDiag h'' d)) = r
          /\ Vector.Inc (DiagCDense.mat (getDiag h'' d)) = 1).
Proof.
  apply (DiagCDense_empty_state_invariant _ emptyHeap).
  intros d. destruct d; simpl; unfold emptyInv; simpl; tauto.
Defined.

(** ** Which panics are shape panics *)

Create HintDb noshape.

Lemma neverShape_ret {A} (a : A) : neverShape (ret a).
Proof. intros h e h' E. discriminate. Qed.

Lemma neverShape_gets {A} (f : Heap -> A) : neverShape (gets f).
Proof. intros h e h' E. discriminate. Qed.

Lemma neverShape_panic {A} e : e <> ErrShape -> neverShape (@panic A e).
Proof. intros Hne h e' h' E. unfold panic in E. congruence. Qed.

Lemma neverShape_bind {A B} (x : M A) (k : A -> M B) :
  neverShape x -> (forall a, neverShape (k a)) -> neverShape (bind x k).
Proof.
  intros Hx Hk h e h' E. unfold bind in E.
  destruct (x h) as [a h1|e1 h1] eqn:Ex.
  - eapply Hk; eassumption.
  - injection E as -> ->. eapply Hx; eassumption.
Qed.

Lemma neverShape_forRange n i0 body :
  (forall i, neverShape (body i)) -> neverShape (forRange n i0 body).
Proof.
  intros Hb. revert i0. induction n as [|n IH]; intros i0; simpl.
  - apply neverShape_ret.
  - apply neverShape_bind; [apply Hb|]. intros _. apply IH.
Qed.

Lemma neverShape_forLoop {S} fuel cond post body (s : S) :
  (forall s, neverShape (post s)) -> (forall s, neverShape (body s)) ->
  neverShape (forLoop fuel cond post body s).
Proof.
  intros Hp Hb. revert s. induction fuel as [|n IH]; intros s; simpl.
  - apply neverShape_ret.
  - destruct (cond s); [|apply neverShape_ret].
    apply neverShape_bind; [apply Hb|]. intros _.
    apply neverShape_bind; [apply Hp|]. intros s'. apply IH.
Qed.

Lemma neverShape_readSlice s i : neverShape (readSlice s i).
Proof.
  intros h e h' E. unfold readSlice in E.
  destruct (sliceGet h s i); [discriminate|]. injection E as <- _. discriminate.
Qed.

Lemma neverShape_writeSlice s i v : neverShape (writeSlice s i v).
Proof.
  intros h e h' E. unfold writeSlice in E.
  destruct s as [|a off l c]; [injection E as <- _; discriminate|].
  destruct (i <? l); [|injection E as <- _; discriminate].
  destruct (_ ≫= _); [discriminate|]. injection E as <- _. discriminate.
Qed.

Lemma neverShape_sliceExpr s lo hi : neverShape (sliceExpr s lo hi).
Proof.
  unfold sliceExpr. destruct (_ && _); [apply neverShape_ret|].
  apply neverShape_panic. discriminate.
Qed.

Lemma neverShape_make l : neverShape (make l).
Proof. intros h e h' E. discriminate. Qed.

Lemma neverShape_newCDense g : neverShape (newCDense g).
Proof. intros h e h' E. discriminate. Qed.

Lemma neverShape_modify f : neverShape (modify f).
Proof. intros h e h' E. discriminate. Qed.

Lemma neverShape_denseMat p : neverShape (denseMat p).
Proof. apply neverShape_gets. Qed.

#[export] Hint Resolve neverShape_denseMat : noshape.

#[export] Hint Resolve neverShape_ret neverShape_gets neverShape_bind
  neverShape_forRange neverShape_readSlice neverShape_writeSlice
  neverShape_sliceExpr neverShape_make neverShape_newCDense neverShape_modify
  : noshape.

Lemma neverShape_At a i j : neverShape (At a i j).
Proof.
  revert i j. induction a as [p|p|u IH|u IH|r c f]; intros i j; simpl.
  - unfold CDense_at. apply neverShape_bind; [apply neverShape_gets|]. intros g.
    destruct (_ <=? i); [apply neverShape_panic; discriminate|].
    destruct (_ <=? j); [apply neverShape_panic; discriminate|].
    apply neverShape_readSlice.
  - unfold DiagCDense_At. apply neverShape_bind; [apply neverShape_gets|]. intros v.
    destruct (_ <=? i); [apply neverShape_panic; discriminate|].
    destruct (_ <=? j); [apply neverShape_panic; discriminate|].
    destruct (negb _); [apply neverShape_ret|apply neverShape_readSlice].
  - apply IH.
  - apply neverShape_bind; [apply IH|]. intros z. apply neverShape_ret.
  - apply neverShape_ret.
Qed.

Lemma neverShape_set m i j v : neverShape (CDense_set m i j v).
Proof.
  unfold CDense_set. apply neverShape_bind; [apply neverShape_gets|]. intros g.
  destruct (_ <=? i); [apply neverShape_panic; discriminate|].
  destruct (_ <=? j); [apply neverShape_panic; discriminate|].
  apply neverShape_writeSlice.
Qed.

Lemma neverShape_checkOverlap m g : neverShape (CDense_checkOverlap m g).
Proof. intros h e h' E. discriminate. Qed.

Lemma neverShape_checkOverlapMatrix m a : neverShape (CDense_checkOverlapMatrix m a).
Proof.
  intros h e h' E. destruct (CDense_checkOverlapMatrix_ok m a h) as [b Eb]. congruence.
Qed.

#[export] Hint Resolve neverShape_At neverShape_set neverShape_checkOverlap
  neverShape_checkOverlapMatrix : noshape.

Lemma neverShape_Copy m a : neverShape (CDense_Copy m a).
Proof.
  unfold CDense_Copy, Dims. apply neverShape_bind; [apply neverShape_gets|].
  intros [r c]. apply neverShape_bind; [apply neverShape_gets|]. intros g.
  apply neverShape_bind; [|intros; apply neverShape_ret].
  apply neverShape_forRange. intros i. apply neverShape_forRange. intros j.
  auto with noshape.
Qed.

Lemma neverShape_defer {A} restore (body : M A) :
  neverShape restore -> neverShape body -> neverShape (defer restore body).
Proof.
  intros Hr Hb h e h' E. unfold defer in E.
  destruct (body h) as [a h1|e1 h1] eqn:Eb.
  - destruct (restore h1) as [[] h2|e2 h2] eqn:Er; [discriminate|].
    injection E as -> ->. eapply Hr; eassumption.
  - destruct (restore h1) as [[] h2|e2 h2] eqn:Er.
    + injection E as -> ->. eapply Hb; eassumption.
    + injection E as -> ->. eapply Hr; eassumption.
Qed.

(** The workspace is always obtained, and its restore is a copy. *)
Lemma CDense_isolatedWorkspace_ok m a h :
  exists w h', CDense_isolatedWorkspace m a h
               = Ok (w, bind (CDense_Copy m (PDense w)) (fun _ => ret tt)) h'.
Proof.
  unfold CDense_isolatedWorkspace, Dims, bind, gets, make, newCDense, ret.
  destruct (DimsOf h a) as [r c]. eexists _, _. reflexivity.
Qed.

Lemma neverShape_workspace {A} m a (k : ptr -> M A) :
  (forall w, neverShape (k w)) ->
  neverShape (bind (CDense_isolatedWorkspace m a)
                (fun x => match x with (w, restore) => defer restore (k w) end)).
Proof.
  intros Hk h e h' E.
  destruct (CDense_isolatedWorkspace_ok m a h) as (w & h1 & Ew).
  rewrite (bind_Ok _ _ _ _ _ Ew) in E.
  eapply neverShape_defer; [| apply Hk |exact E].
  apply neverShape_bind; [apply neverShape_Copy|]. intros. apply neverShape_ret.
Qed.

Lemma neverShape_genericCells op m R C a b : neverShape (genericCells op m R C a b).
Proof.
  unfold genericCells. apply neverShape_forRange. intros r.
  apply neverShape_forRange. intros c. auto with noshape.
Qed.

Lemma neverShape_rangeSlice s body :
  (forall i v, neverShape (body i v)) -> neverShape (rangeSlice s body).
Proof.
  intros Hb. unfold rangeSlice. apply neverShape_forRange. intros i.
  apply neverShape_bind; [apply neverShape_readSlice|]. intros v. apply Hb.
Qed.

Lemma neverShape_denseRows op m R C ga gb : neverShape (denseRows op m R C ga gb).
Proof.
  unfold denseRows. apply neverShape_forLoop.
  - intros [[ja jb] jm]. auto with noshape.
  - intros [[ja jb] jm]. apply neverShape_bind; [apply neverShape_sliceExpr|].
    intros row. apply neverShape_rangeSlice. intros i v. auto with noshape.
Qed.

Lemma neverShape_dot k l0 tA tB A B i j acc : neverShape (dot k l0 tA tB A B i j acc).
Proof.
  revert l0 acc. induction k as [|k IH]; intros l0 acc; simpl.
  - apply neverShape_ret.
  - assert (Hop : forall t X a b, neverShape (opGet t X a b)).
    { intros t X a b. destruct t; simpl; auto with noshape. }
    apply neverShape_bind; [apply Hop|]. intros x.
    apply neverShape_bind; [apply Hop|]. intros y. apply IH.
Qed.

Lemma neverShape_Gemm tA tB alpha A B beta C : neverShape (Gemm tA tB alpha A B beta C).
Proof.
  unfold Gemm. destruct (opDims tA A) as [m k]. destruct (opDims tB B) as [k' n].
  destruct (_ || _); [apply neverShape_panic; discriminate|].
  apply neverShape_forRange. intros i. apply neverShape_forRange. intros j.
  apply neverShape_bind; [apply neverShape_dot|]. intros s. auto with noshape.
Qed.

Lemma neverShape_mulKernel m rn aU bU aT bT : neverShape (mulKernel m rn aU bU aT bT).
Proof.
  unfold mulKernel. destruct aU; try apply neverShape_ret.
  apply neverShape_bind; [destruct rn; auto 10 with noshape|]. intros _.
  destruct bU; try apply neverShape_ret.
  apply neverShape_bind; [destruct rn; auto 10 with noshape|]. intros _.
  apply neverShape_bind; [apply neverShape_gets|]. intros ga.
  apply neverShape_bind; [apply neverShape_gets|]. intros gb.
  apply neverShape_bind; [apply neverShape_gets|]. intros gm.
  apply neverShape_Gemm.
Qed.

(** reuseAsNonZeroed panics with ErrShape exactly on a non-empty receiver of
    other dimensions, and then leaves the store as it is. *)
Lemma CDense_reuseAsNonZeroed_shape m r c h h' :
  CDense_reuseAsNonZeroed m r c h = Panic ErrShape h'
  <-> h' = h /\ destMismatch h m r c.
Proof.
  unfold CDense_reuseAsNonZeroed, destMismatch.
  destruct (r =? 0) eqn:Hr; [|destruct (c =? 0) eqn:Hc]; cbn [orb].
  - apply Nat.eqb_eq in Hr. split; [discriminate|]. intros (_ & H & _). contradiction.
  - apply Nat.eqb_eq in Hc. split; [discriminate|]. intros (_ & _ & H & _). contradiction.
  - apply Nat.eqb_neq in Hr, Hc.
    unfold CDense_IsEmpty, denseMat, bind, gets, ret.
    destruct (General.Stride (CDense.mat (getDense h m)) =? 0) eqn:Hs.
    + apply Nat.eqb_eq in Hs. split.
      * unfold useC. destruct (_ <=? _); discriminate.
      * intros (_ & _ & _ & H & _). contradiction.
    + apply Nat.eqb_neq in Hs.
      destruct (r =? General.Rows (CDense.mat (getDense h m))) eqn:HR;
        [destruct (c =? General.Cols (CDense.mat (getDense h m))) eqn:HC|]; cbn [negb orb].
      * apply Nat.eqb_eq in HR, HC. split; [discriminate|].
        intros (_ & _ & _ & _ & [H|H]); congruence.
      * apply Nat.eqb_neq in HC. split.
        -- intros E. injection E as <-. repeat split; auto.
        -- intros [-> _]. reflexivity.
      * apply Nat.eqb_neq in HR. split.
        -- intros E. injection E as <-. repeat split; auto.
        -- intros [-> _]. reflexivity.
Qed.

Lemma elementwise_shape op m a b h h' :
  elementwise op m a b h = Panic ErrShape h'
  <-> h' = h /\ (DimsOf h a <> DimsOf h b
                 \/ destMismatch h m (DimsOf h a).1 (DimsOf h a).2).
Proof.
  unfold elementwise, Dims. unfold bind at 1, gets at 1.
  destruct (DimsOf h a) as [ar ac]. unfold bind at 1, gets at 1.
  destruct (DimsOf h b) as [br bc]. cbn [fst snd].
  destruct (untransposeExtractCmplx a) as [[aU aTrans] aConj].
  destruct (untransposeExtractCmplx b) as [[bU bTrans] bConj].
  destruct (negb (ar =? br) || negb (ac =? bc)) eqn:Hdim.
  - assert (Hne : (ar, ac) <> (br, bc)).
    { intros E. injection E as -> ->. rewrite !Nat.eqb_refl in Hdim. discriminate. }
    unfold panic. split.
    + intros E. injection E as <-. auto.
    + intros [-> _]. reflexivity.
  - apply orb_false_iff in Hdim as [H1 H2].
    apply negb_false_iff, Nat.eqb_eq in H1, H2. subst br bc.
    unfold bind at 1.
    destruct (CDense_reuseAsNonZeroed m ar ac h) as [[] h1|e h1] eqn:Er.
    + split.
      * intros E. exfalso. revert E.
        match goal with
        | |- ?rest h1 = _ -> _ => assert (Hn : neverShape rest)
        end.
        { destruct a, b;
            repeat first
              [ apply neverShape_workspace; intros
              | apply neverShape_genericCells
              | apply neverShape_denseRows
              | match goal with |- neverShape (if ?c then _ else _) => destruct c end
              | apply neverShape_bind; [|intros]
              | solve [auto with noshape] ]. }
        intros E. exact (Hn _ _ _ E eq_refl).
      * intros [_ [Hne|Hm]]; [congruence|].
        assert (E : CDense_reuseAsNonZeroed m ar ac h = Panic ErrShape h)
          by (apply CDense_reuseAsNonZeroed_shape; auto).
        congruence.
    + split.
      * intros E. injection E as -> ->.
        apply CDense_reuseAsNonZeroed_shape in Er. destruct Er as [-> Hm]. auto.
      * intros [-> [Hne|Hm]]; [congruence|].
        assert (E : CDense_reuseAsNonZeroed m ar ac h = Panic ErrShape h)
          by (apply CDense_reuseAsNonZeroed_shape; auto).
        congruence.
Qed.

Lemma CDense_Mul_shape m a b h h' :
  CDense_Mul m a b h = Panic ErrShape h'
  <-> h' = h /\ ((DimsOf h a).2 <> (DimsOf h b).1
                 \/ destMismatch h m (DimsOf h a).1 (DimsOf h b).2).
Proof.
  unfold CDense_Mul, Dims. unfold bind at 1, gets at 1.
  destruct (DimsOf h a) as [ar ac]. unfold bind at 1, gets at 1.
  destruct (DimsOf h b) as [br bc]. cbn [fst snd].
  destruct (untransposeExtractCmplx a) as [[aU aTrans] aConj].
  destruct (untransposeExtractCmplx b) as [[bU bTrans] bConj].
  destruct (ac =? br) eqn:Hdim; cbn [negb].
  - apply Nat.eqb_eq in Hdim. subst br.
    unfold bind at 1.
    destruct (CDense_reuseAsNonZeroed m ar bc h) as [[] h1|e h1] eqn:Er.
    + split.
      * intros E. exfalso. revert E.
        match goal with
        | |- ?rest h1 = _ -> _ => assert (Hn : neverShape rest)
        end.
        { destruct (isPtr m aU); [|destruct (isPtr m bU)];
            try (apply neverShape_workspace; intros);
            apply neverShape_mulKernel. }
        intros E. exact (Hn _ _ _ E eq_refl).
      * intros [_ [Hne|Hm]]; [congruence|].
        assert (E : CDense_reuseAsNonZeroed m ar bc h = Panic ErrShape h)
          by (apply CDense_reuseAsNonZeroed_shape; auto).
        congruence.
    + split.
      * intros E. injection E as -> ->.
        apply CDense_reuseAsNonZeroed_shape in Er. destruct Er as [-> Hm]. auto.
      * intros [-> [Hne|Hm]]; [congruence|].
        assert (E : CDense_reuseAsNonZeroed m ar bc h = Panic ErrShape h)
          by (apply CDense_reuseAsNonZeroed_shape; auto).
        congruence.
  - apply Nat.eqb_neq in Hdim. unfold panic. split.
    + intros E. injection E as <-. auto.
    + intros [-> _]. reflexivity.
Qed.

(** ** The claims on shape panics and on Mul without dense operands *)

(** C2 (amended) -- Add and Sub panic with ErrShape whenever the operands'
    dimensions differ, and Mul whenever the inner dimensions differ, before
    anything is written.  A shape panic arises exactly in these cases or when
    the receiver is not empty and has not the dimensions of the result (the
    operands being of non-zero size); in every case the store is left as it
    was. *)
Theorem ShapeMismatch_Add_Sub_Mul m a b h :
  (DimsOf h a <> DimsOf h b ->
     CDense_Add m a b h = Panic ErrShape h /\ CDense_Sub m a b h = Panic ErrShape h)
  /\ ((DimsOf h a).2 <> (DimsOf h b).1 -> CDense_Mul m a b h = Panic ErrShape h)
  /\ (forall h', CDense_Add m a b h = Panic ErrShape h'
        <-> h' = h /\ (DimsOf h a <> DimsOf h b
                       \/ destMismatch h m (DimsOf h a).1 (DimsOf h a).2))
  /\ (forall h', CDense_Sub m a b h = Panic ErrShape h'
        <-> h' = h /\ (DimsOf h a <> DimsOf h b
                       \/ destMismatch h m (DimsOf h a).1 (DimsOf h a).2))
  /\ (forall h', CDense_Mul m a b h = Panic ErrShape h'
        <-> h' = h /\ ((DimsOf h a).2 <> (DimsOf h b).1
                       \/ destMismatch h m (DimsOf h a).1 (DimsOf h b).2)).
Proof.
  split; [|split; [|split; [|split]]].
  - intros Hne. split; apply elementwise_shape; auto.
  - intros Hne. apply CDense_Mul_shape. auto.
  - intros h'. apply elementwise_shape.
  - intros h'. apply elementwise_shape.
  - intros h'. apply CDense_Mul_shape.
Qed.

(** The claim as stated fails: with operands of equal dimensions (2 x 2) and
    a non-empty 1 x 1 receiver, Add panics with ErrShape. *)
Lemma ShapeMismatch_not_only_operands :
  ~ (failsWith (CDense_Add 2 (PDense 0) (PDense 1) heapABD) ErrShape
     <-> DimsOf heapABD (PDense 0) <> DimsOf heapABD (PDense 1)).
Proof.
  intros [H _]. apply H; [|reflexivity].
  exists heapABD. vm_compute. reflexivity.
Qed.

Lemma mulKernel_noop m aU bU aT bT h :
  isDense aU && isDense bU = false -> mulKernel m true aU bU aT bT h = Ok tt h.
Proof.
  intros Hd. destruct aU; try reflexivity.
  destruct bU; try reflexivity. discriminate.
Qed.

(** C10 (amended) -- When, after untransposing, an operand of Mul is not a
    plain dense matrix, the receiver is itself neither of the untransposed
    operands, and its storage shares no cell with that of a dense first
    operand, Mul (on conforming non-zero dimensions and a receiver that is
    empty or of the result's shape) returns without panicking and does what
    resizing the receiver does and nothing else: every cell of the store
    keeps its value, and a non-empty receiver leaves the store unchanged. *)
Theorem Mul_without_dense_operands h m a b :
  let aU := (untransposeExtractCmplx a).1.1 in
  let bU := (untransposeExtractCmplx b).1.1 in
  isDense aU && isDense bU = false ->
  isPtr m aU = false -> isPtr m bU = false ->
  (forall p, aU = PDense p ->
     sep (General.Data (CDense.mat (getDense h m)))
         (General.Data (CDense.mat (getDense h p)))) ->
  (DimsOf h a).2 = (DimsOf h b).1 ->
  (DimsOf h a).1 <> 0 -> (DimsOf h b).2 <> 0 ->
  destOK h m (DimsOf h a).1 (DimsOf h b).2 ->
  exists h',
    CDense_Mul m a b h = Ok tt h'
    /\ CDense_reuseAsNonZeroed m (DimsOf h a).1 (DimsOf h b).2 h = Ok tt h'
    /\ agree h h' nilSlice
    /\ (General.Stride (CDense.mat (getDense h m)) <> 0 -> h' = h).
Proof.
  intros aU bU Hd Hpa Hpb _ Hin Hr Hc Hdest.
  destruct (CDense_reuseAsNonZeroed_spec h m _ _ Hdest Hr Hc)
    as (h1 & g1 & E1 & _ & _ & _ & _ & _ & _ & _ & _ & Hag & _ & Hsame).
  exists h1. split; [|split; [exact E1|split; assumption]].
  unfold CDense_Mul, Dims. unfold bind at 1, gets at 1.
  destruct (DimsOf h a) as [ar ac]. unfold bind at 1, gets at 1.
  destruct (DimsOf h b) as [br bc]. cbn [fst snd] in *. subst br.
  rewrite Nat.eqb_refl. cbn [negb].
  subst aU bU.
  destruct (untransposeExtractCmplx a) as [[aU aTrans] aConj].
  destruct (untransposeExtractCmplx b) as [[bU bTrans] bConj].
  cbn [fst] in *. rewrite (bind_Ok _ _ _ _ _ E1). rewrite Hpa, Hpb.
  apply mulKernel_noop. exact Hd.
Qed.

Lemma heapDenseDiag_wf0 : wfGeneral heapDenseDiag (CDense.mat (getDense heapDenseDiag 0)).
Proof.
  split; [|vm_compute; lia]. split; [vm_compute; lia|].
  intros i Hi. change (i < 1) in Hi. destruct i; [vm_compute; eauto|lia].
Qed.

Lemma heapABDiags_cells i : i < 4 ->
  is_Some (cellAt heapABDiags 0 i) /\ is_Some (cellAt heapABDiags 1 i).
Proof.
  intros Hi. do 4 (destruct i as [|i]; [vm_compute; eauto|]). lia.
Qed.

Lemma heapABDiags_wf1 : wfGeneral heapABDiags (CDense.mat (getDense heapABDiags 1)).
Proof.
  split; [|vm_compute; lia]. split; [lia|].
  intros i Hi. apply heapABDiags_cells. exact Hi.
Qed.

Lemma Mul_without_dense_operands_witness :
  exists h',
    CDense_Mul 1 (PDense 0) (PDiag 0) heapABDiags = Ok tt h'
    /\ CDense_reuseAsNonZeroed 1 2 2 heapABDiags = Ok tt h'
    /\ agree heapABDiags h' nilSlice
    /\ (General.Stride (CDense.mat (getDense heapABDiags 1)) <> 0 -> h' = heapABDiags).
Proof.
  apply (Mul_without_dense_operands heapABDiags 1 (PDense 0) (PDiag 0)).
  - reflexivity.
  - reflexivity.
  - reflexivity.
  - intros p E. injection E as <-. intros x i [-> _] [E _]. discriminate.
  - reflexivity.
  - vm_compute. lia.
  - vm_compute. lia.
  - split; [vm_compute; lia|]. split; [apply heapABDiags_wf1|].
    right. split; [vm_compute; lia|]. split; [reflexivity|]. split; [reflexivity|].
    apply heapABDiags_wf1.
Defined.

(** The claim as stated fails on operands that do not conform: a.Dims() is
    2 x 2 and the diagonal matrix d3 is 3 x 3, and b.Mul(a, d3) panics with
    ErrShape before the operands are untransposed. *)
Lemma Mul_nonconforming_operands_panic :
  isDense (untransposeExtractCmplx (PDiag 1)).1.1 = false
  /\ DimsOf heapABDiags (PDense 0) = (2, 2)
  /\ DimsOf heapABDiags (PDiag 1) = (3, 3)
  /\ CDense_Mul 1 (PDense 0) (PDiag 1) heapABDiags = Panic ErrShape heapABDiags.
Proof.
  split; [reflexivity|]. split; [reflexivity|]. split; [reflexivity|].
  vm_compute. reflexivity.
Qed.

(** When the receiver is one of the operands, as in m.Mul(m, d) with a dense
    m = [[1]] and a diagonal d, the workspace is installed before the types
    of the operands are inspected: the call amounts to taking the workspace
    and running the deferred restore, which copies the workspace, that no
    product was written to, over m. *)
Lemma Mul_aliased_receiver_restores_workspace :
  isDense (untransposeExtractCmplx (PDiag 0)).1.1 = false
  /\ CDense_Mul 0 (PDense 0) (PDiag 0) heapDenseDiag
     = (wr <- CDense_isolatedWorkspace 0 (PDense 0) ;; wr.2) heapDenseDiag.
Proof.
  split; [reflexivity|]. vm_compute. reflexivity.
Qed.

(** ** DiagFrom *)

Lemma DiagCDense_reuseAsNonZeroed_spec h d n :
  destDiagOK h d n -> n <> 0 ->
  exists h1 v1,
    DiagCDense_reuseAsNonZeroed d n h = Ok tt h1
    /\ getDiag h1 d = DiagCDense.mk v1
    /\ Vector.N v1 = n /\ Vector.Inc v1 <> 0
    /\ wfVector h1 v1
    /\ (forall p, p <> d -> getDiag h1 p = getDiag h p)
    /\ cdenses h1 = cdenses h
    /\ agree h h1 nilSlice
    /\ (forall x i, inWin (Vector.Data v1) x i ->
          inWin (Vector.Data (DiagCDense.mat (getDiag h d))) x i
          \/ cellAt h x i = None)
    /\ (Vector.Inc (DiagCDense.mat (getDiag h d)) <> 0 -> h1 = h).
Proof.
  intros (Hd & Hv & Hcase) Hn.
  unfold DiagCDense_reuseAsNonZeroed.
  apply Nat.eqb_neq in Hn as Hn'. rewrite Hn'.
  destruct (getDiag h d) as [v0] eqn:Eg. simpl in Hv, Hcase.
  unfold DiagCDense_IsEmpty, diagMat, bind, gets, ret. cbv beta iota. rewrite Eg.
  cbn [DiagCDense.mat].
  destruct Hcase as [[Hinc HN] | (Hinc & HN & Hwf)].
  - rewrite Hinc. cbn [Nat.eqb]. cbv beta iota. rewrite ?Eg. cbn [DiagCDense.mat].
    unfold useC.
    destruct (n <=? cap (Vector.Data v0)) eqn:Hcap.
    + apply Nat.leb_le in Hcap. unfold ret, setDiagMat, modify.
      cbn [arrays cdenses cdiags].
      eexists _, _. split; [reflexivity|].
      split.
      { unfold getDiag. cbn [cdiags].
        rewrite !list_lookup_insert_eq by (rewrite ?length_insert; assumption).
        cbn. reflexivity. }
      cbn [Vector.N Vector.Inc Vector.Data].
      split; [reflexivity|]. split; [lia|].
      split.
      { unfold wfVector. cbn [Vector.N Vector.Inc Vector.Data].
        revert Hv Hcap. destruct (Vector.Data v0) as [|a off l cp]; simpl;
          intros Hv Hcap; [lia|].
        split; [|intros _; lia]. split; [lia|].
        intros i Hi. rewrite Nat.add_0_r. apply Hv. lia. }
      split.
      { intros p Hp. unfold getDiag. cbn [cdiags].
        rewrite !list_lookup_insert_ne by congruence. reflexivity. }
      split; [reflexivity|].
      split; [intros x i Hs; split; [exact Hs|reflexivity]|].
      split; [|intros Hs; lia].
      intros x i Hw. left. revert Hw.
      destruct (Vector.Data v0) as [|a off l cp]; simpl; [tauto|]. lia.
    + apply Nat.leb_gt in Hcap. unfold make, setDiagMat, modify.
      cbn [arrays cdenses cdiags].
      eexists _, _. split; [reflexivity|].
      split.
      { unfold getDiag. cbn [cdiags].
        rewrite !list_lookup_insert_eq by (rewrite ?length_insert; assumption).
        cbn. reflexivity. }
      cbn [Vector.N Vector.Inc Vector.Data].
      split; [reflexivity|]. split; [lia|].
      split.
      { unfold wfVector. cbn [Vector.N Vector.Inc Vector.Data]. simpl.
        split; [|intros _; lia]. split; [lia|].
        intros i Hi. apply mk_is_Some with czero.
        pose proof (cellAt_make_new h n i Hi) as E.
        unfold cellAt in *. cbn [arrays] in *. exact E. }
      split.
      { intros p Hp. unfold getDiag. cbn [cdiags].
        rewrite !list_lookup_insert_ne by congruence. reflexivity. }
      split; [reflexivity|].
      split.
      { intros x i Hs.
        pose proof (cellAt_make_old h n x i Hs) as E.
        unfold cellAt in *. cbn [arrays] in *. rewrite E. split; [exact Hs|reflexivity]. }
      split; [|intros Hs; lia].
      intros x i [-> _]. right. apply cellAt_fresh.
  - apply Nat.eqb_neq in Hinc as Hinc'. rewrite Hinc'.
    cbv beta iota. rewrite ?Eg. cbn [DiagCDense.mat].
    subst n. rewrite Nat.eqb_refl. cbn [negb].
    exists h, v0. split; [reflexivity|].
    split; [assumption|]. split; [reflexivity|]. split; [assumption|].
    split; [assumption|]. split; [reflexivity|]. split; [reflexivity|].
    split; [apply agree_refl|]. split; [|reflexivity].
    intros x i Hw. left. assumption.
Qed.

Section FrameDiag.
(** The store [h] differs from [h0] by the struct of the diagonal matrix [d]
    and by cells that the slice [s] reaches. *)
Variables (h0 h : Heap) (d : ptr) (s : slice).
Hypothesis Hcells : agree h0 h s.
Hypothesis Hdense : forall p, getDense h p = getDense h0 p.
Hypothesis Hdiag : forall p, p <> d -> getDiag h p = getDiag h0 p.

Lemma atOf_agreeD a :
  wfM h0 a -> indepDiag h0 d s a -> ~ mentionsDiag d a ->
  forall i j, atOf h a i j = atOf h0 a i j.
Proof.
  induction a as [p|p|u IH|u IH|r c f]; simpl; intros Hwf Hin Hnm i j.
  - rewrite Hdense. unfold denseAtOf. destruct Hwf as (Hv & _).
    rewrite (sliceGet_agree h0 h s) by assumption. reflexivity.
  - rewrite Hdiag by assumption. destruct Hin as [E|Hsep]; [contradiction|].
    unfold diagAtOf. destruct Hwf as (Hv & _).
    rewrite (sliceGet_agree h0 h s) by assumption. reflexivity.
  - apply IH; assumption.
  - rewrite IH by assumption. reflexivity.
  - reflexivity.
Qed.

Lemma DimsOf_agreeD a : ~ mentionsDiag d a -> DimsOf h a = DimsOf h0 a.
Proof.
  induction a as [p|p|u IH|u IH|r c f]; simpl; intros Hnm.
  - rewrite Hdense. reflexivity.
  - rewrite Hdiag by assumption. reflexivity.
  - rewrite IH by assumption. reflexivity.
  - rewrite IH by assumption. reflexivity.
  - reflexivity.
Qed.

Lemma wfM_agreeD a : wfM h0 a -> ~ mentionsDiag d a -> wfM h a.
Proof.
  induction a as [p|p|u IH|u IH|r c f]; simpl; intros Hwf Hnm.
  - rewrite Hdense. destruct Hwf as (Hv & Hrest). split; [|exact Hrest].
    eapply validSlice_agree; eassumption.
  - rewrite Hdiag by assumption. destruct Hwf as (Hv & Hrest). split; [|exact Hrest].
    eapply validSlice_agree; eassumption.
  - apply IH; assumption.
  - apply IH; assumption.
  - exact I.
Qed.

Lemma indepDiag_reuse s1 a :
  (forall x i, inWin s1 x i -> inWin s x i \/ cellAt h0 x i = None) ->
  wfM h0 a -> indepDiag h0 d s a -> ~ mentionsDiag d a -> indepDiag h d s1 a.
Proof.
  intros Hwin.
  induction a as [p|p|u IH|u IH|r c f]; simpl; intros Hwf Hin Hnm.
  - rewrite Hdense. eapply sep_window; [apply Hwf|eassumption|assumption].
  - right. rewrite Hdiag by assumption. destruct Hin as [E|Hsep]; [contradiction|].
    eapply sep_window; [apply Hwf|eassumption|assumption].
  - apply IH; assumption.
  - apply IH; assumption.
  - exact I.
Qed.
End FrameDiag.

Lemma mentionsDiag_Dims h d a :
  mentionsDiag d a ->
  DimsOf h a = (Vector.N (DiagCDense.mat (getDiag h d)),
                Vector.N (DiagCDense.mat (getDiag h d))).
Proof.
  induction a as [p|p|u IH|u IH|r c f]; simpl; intros Hm; try contradiction.
  - subst p. reflexivity.
  - rewrite (IH Hm). reflexivity.
  - rewrite (IH Hm). reflexivity.
Qed.

Lemma strided_inj_pos off inc k k' :
  inc <> 0 -> strided off inc k = strided off inc k' -> k = k'.
Proof.
  unfold strided. intros Hinc E.
  apply Nat.add_cancel_l in E. apply Nat.mul_cancel_r in E; assumption.
Qed.

Section DiagTarget.
(** A well-formed diagonal destination [d] with struct [v] in the store
    [h1]. *)
Variables (h1 : Heap) (d : ptr) (v : Vector.t) (am off l cp : nat).
Hypothesis Hg : getDiag h1 d = DiagCDense.mk v.
Hypothesis Hwf : wfVector h1 v.
Hypothesis Hinc : Vector.Inc v <> 0.
Hypothesis Hd : Vector.Data v = Slice am off l cp.

Let n := Vector.N v.
Let pos := strided off (Vector.Inc v).

Lemma diag_cells_ok k :
  k < n ->
  k * Vector.Inc v < l
  /\ is_Some (cellAt h1 am (pos k))
  /\ inWin (Vector.Data v) am (pos k).
Proof.
  intros Hk. destruct (wfVector_cell h1 v k Hwf Hk) as [Hidx Hs].
  destruct Hwf as (Hv & _). rewrite Hd in *. simpl in Hv, Hidx, Hs.
  destruct Hv as [Hlc _].
  split; [exact Hidx|].
  apply Nat.ltb_lt in Hidx as Hb. rewrite Hb in Hs.
  split; [exact Hs|]. unfold pos, strided. simpl. split; [reflexivity|]. lia.
Qed.

(** What an operand reads on its diagonal is not affected by the entries of
    [d] written so far, even when the operand is a view of [d]. *)
Lemma atOf_diag_under_fill h val k a :
  filledTo h1 h am pos n val k ->
  wfM h1 a -> indepDiag h1 d (Vector.Data v) a ->
  forall i, k <= i -> atOf h a i i = atOf h1 a i i.
Proof.
  intros Hf.
  assert (Hag : agree h1 h (Vector.Data v)).
  { eapply filledTo_agree; [exact Hf| |]; intros j Hj; apply diag_cells_ok; exact Hj. }
  induction a as [p|p|u IH|u IH|r c f]; simpl; intros Hwa Hin i Hi.
  - rewrite (filledTo_getDense _ _ _ _ _ _ _ p Hf).
    unfold denseAtOf. destruct Hwa as (Hv & _).
    rewrite (sliceGet_agree h1 h (Vector.Data v)) by assumption. reflexivity.
  - rewrite (filledTo_getDiag _ _ _ _ _ _ _ p Hf).
    destruct Hin as [->|Hsep].
    + rewrite Hg. cbn [DiagCDense.mat]. unfold diagAtOf.
      destruct (Vector.N v <=? i) eqn:HN; [reflexivity|].
      rewrite Nat.eqb_refl. cbn [negb]. rewrite Hd, !sliceGet_Slice.
      destruct (i * Vector.Inc v <? l); [|reflexivity].
      apply Nat.leb_gt in HN.
      destruct Hf as (_ & _ & _ & _ & Hrest & _).
      specialize (Hrest i Hi HN). unfold pos, strided in Hrest. rewrite Hrest.
      reflexivity.
    + unfold diagAtOf. destruct Hwa as (Hv & _).
      rewrite (sliceGet_agree h1 h (Vector.Data v)) by assumption. reflexivity.
  - apply IH; assumption.
  - rewrite IH by assumption. reflexivity.
  - reflexivity.
Qed.

Lemma setDiag_store h i x val k :
  filledTo h1 h am pos n val k -> i < n ->
  DiagCDense_setDiag d i x h = Ok tt (storeAt am (pos i) x h).
Proof.
  intros Hf Hi. destruct (diag_cells_ok i Hi) as (Hidx & Hs & _).
  unfold DiagCDense_setDiag, diagMat, bind, gets.
  rewrite (filledTo_getDiag _ _ _ _ _ _ _ d Hf), Hg. cbn [DiagCDense.mat].
  apply Nat.leb_gt in Hi as Hi'. fold n. rewrite Hi'. rewrite Hd.
  apply writeSlice_ok; [exact Hidx|].
  eapply (filledTo_is_Some h1 h am pos n val k i); [exact Hf|exact Hi|exact Hs].
Qed.

Lemma diag_read_back h val i j :
  filledTo h1 h am pos n val n -> i < n -> j < n ->
  diagAtOf h v i j = inr (if i =? j then val i else czero).
Proof.
  intros Hf Hi Hj. destruct (diag_cells_ok i Hi) as (Hidx & _ & _).
  unfold diagAtOf. apply Nat.leb_gt in Hi as Hi', Hj as Hj'. fold n. rewrite Hi', Hj'.
  destruct (i =? j); cbn [negb]; [|reflexivity].
  rewrite Hd, sliceGet_Slice. apply Nat.ltb_lt in Hidx as Hb. rewrite Hb.
  destruct Hf as (_ & _ & _ & _ & _ & Hdone). specialize (Hdone i Hi).
  unfold pos, strided in Hdone. rewrite Hdone. reflexivity.
Qed.

(** The loop of DiagFrom over an operand that is not a DiagCDense. *)
Lemma diagLoop_fill a fa :
  (forall h k i, filledTo h1 h am pos n fa k -> k <= i -> i < n ->
     atOf h a i i = inr (fa i)) ->
  exists h2,
    forRange n 0 (fun i => bind (At a i i) (fun x => DiagCDense_setDiag d i x)) h1
    = Ok tt h2
    /\ filledTo h1 h2 am pos n fa n.
Proof.
  intros Hread.
  apply (fill_range h1 am pos n fa _ 0 n 0 h1).
  - intros k k' _ _. apply strided_inj_pos. exact Hinc.
  - intros k Hk. apply diag_cells_ok. exact Hk.
  - lia.
  - intros k h Hk Hf. cbn [Nat.add] in *.
    rewrite (bind_Ok _ _ _ _ _ (At_ok _ _ _ _ _ (Hread h k k Hf (le_n _) Hk))).
    eapply setDiag_store; eassumption.
  - apply filledTo_start.
Qed.

(** The kernel's vector copy into [d]. *)
Lemma Copy_fill vec fa :
  Vector.N vec = n ->
  (forall h k i, filledTo h1 h am pos n fa k -> k <= i -> i < n ->
     sliceGet h (Vector.Data vec) (i * Vector.Inc vec) = Some (fa i)) ->
  exists h2, Copy vec v h1 = Ok tt h2 /\ filledTo h1 h2 am pos n fa n.
Proof.
  intros HN Hread. unfold Copy. rewrite HN.
  apply (fill_range h1 am pos n fa _ 0 n 0 h1).
  - intros k k' _ _. apply strided_inj_pos. exact Hinc.
  - intros k Hk. apply diag_cells_ok. exact Hk.
  - lia.
  - intros k h Hk Hf. cbn [Nat.add] in *.
    rewrite (bind_Ok _ _ _ _ _ (readSlice_ok _ _ _ _ (Hread h k k Hf (le_n _) Hk))).
    destruct (diag_cells_ok k Hk) as (Hidx & Hs & _).
    rewrite Hd. apply writeSlice_ok; [exact Hidx|].
    eapply (filledTo_is_Some h1 h am pos n fa k k); [exact Hf|exact Hk|exact Hs].
  - apply filledTo_start.
Qed.
End DiagTarget.

Lemma wfVector_Slice h v :
  wfVector h v -> Vector.N v <> 0 ->
  exists am off l cp, Vector.Data v = Slice am off l cp.
Proof.
  intros (_ & Hlen) HN. destruct Hlen as [_ Hlen]; [lia|]. revert Hlen.
  destruct (Vector.Data v) as [|am off l cp]; simpl; intros Hlen.
  - rewrite Nat.add_1_r in Hlen. inversion Hlen.
  - eauto.
Qed.

Lemma diagAtOf_sliceGet h v i x :
  i < Vector.N v -> diagAtOf h v i i = inr x ->
  sliceGet h (Vector.Data v) (i * Vector.Inc v) = Some x.
Proof.
  intros Hi. unfold diagAtOf. apply Nat.leb_gt in Hi. rewrite Hi.
  rewrite Nat.eqb_refl. cbn [negb]. destruct (sliceGet _ _ _); congruence.
Qed.

(** C7 (amended) -- Diagonal extraction: for a well-formed matrix m with
    n = min(rows, cols) >= 1 and a diagonal receiver d that is empty or of
    size n, and whose storage no other matrix under m reaches, d.DiagFrom(m)
    returns; afterwards d is n x n, d.at(i, i) is the entry m.at(i, i) of the
    call for every i < n, and d.at(i, j) is 0 for i <> j.  Unless m is a
    view of d itself, m is unchanged by the call.  When m is a DiagCDense the
    entries are copied by the kernel's vector copy. *)
Theorem DiagFrom_extracts_diagonal h d m n :
  (DimsOf h m).1 `min` (DimsOf h m).2 = n -> n <> 0 ->
  wfM h m -> destDiagOK h d n ->
  indepDiag h d (Vector.Data (DiagCDense.mat (getDiag h d))) m ->
  exists h',
    DiagCDense_DiagFrom d m h = Ok tt h'
    /\ DimsOf h' (PDiag d) = (n, n)
    /\ (forall i, i < n -> atOf h' (PDiag d) i i = inr (valOf h m i i))
    /\ (forall i j, i < n -> j < n -> i <> j -> atOf h' (PDiag d) i j = inr czero)
    /\ (~ mentionsDiag d m -> forall i j, atOf h' m i j = atOf h m i j)
    /\ (forall r, m = PDiag r ->
          DiagCDense_DiagFrom d m h
          = bind (DiagCDense_reuseAsNonZeroed d n)
              (fun _ => bind (diagMat r) (fun vec =>
                 bind (diagMat d) (fun dv => Copy vec dv))) h).
Proof.
  intros Hmin Hn Hwm Hdest Hin.
  destruct (DiagCDense_reuseAsNonZeroed_spec h d n Hdest Hn)
    as (h1 & v1 & E1 & Hg1 & HN1 & Hinc1 & Hwf1 & Hdiag & Hdense & Hag & Hwin & Hsame).
  set (s0 := Vector.Data (DiagCDense.mat (getDiag h d))) in *.
  assert (Hdense' : forall p, getDense h1 p = getDense h p)
    by (intros p; unfold getDense; rewrite Hdense; reflexivity).
  (* the operand after the resize *)
  assert (Hop : wfM h1 m /\ indepDiag h1 d (Vector.Data v1) m
                /\ (forall i j, atOf h1 m i j = atOf h m i j)
                /\ DimsOf h1 m = DimsOf h m).
  { destruct (Nat.eq_dec (Vector.Inc (DiagCDense.mat (getDiag h d))) 0) as [Hz|Hnz].
    - assert (Hnm : ~ mentionsDiag d m).
      { intros Hm. rewrite (mentionsDiag_Dims h d m Hm) in Hmin. cbn [fst snd] in Hmin.
        destruct Hdest as (_ & _ & [[_ HN0]|[Hc _]]); [|contradiction].
        rewrite HN0 in Hmin. simpl in Hmin. congruence. }
      pose proof (agree_weaken _ _ s0 Hag) as Hag0.
      split; [apply (wfM_agreeD h h1 d s0); assumption|].
      split; [apply (indepDiag_reuse h h1 d s0); assumption|].
      split; [apply (atOf_agreeD h h1 d s0); assumption|].
      apply (DimsOf_agreeD h h1 d); assumption.
    - specialize (Hsame Hnz). subst h1. unfold s0 in Hin.
      rewrite Hg1 in Hin. cbn [DiagCDense.mat] in Hin. auto. }
  destruct Hop as (Hwm1 & Hin1 & Eat1 & Edim1).
  destruct (wfVector_Slice h1 v1 Hwf1) as (am & off & l & cp & Hd1); [lia|].
  set (pos := strided off (Vector.Inc v1)).
  set (val := fun i => valOf h1 m i i).
  assert (Hread : forall h2 k i,
            filledTo h1 h2 am pos (Vector.N v1) val k -> k <= i -> i < Vector.N v1 ->
            atOf h2 m i i = inr (val i)).
  { intros h2 k i Hf Hk Hi.
    rewrite (atOf_diag_under_fill h1 d v1 am off l cp Hg1 Hwf1 Hinc1 Hd1 h2 val k m Hf Hwm1 Hin1 i Hk).
    apply atOf_valOf; [assumption|rewrite Edim1; lia..]. }
  assert (Hfin : forall h2,
     filledTo h1 h2 am pos (Vector.N v1) val (Vector.N v1) ->
     DimsOf h2 (PDiag d) = (n, n)
     /\ (forall i, i < n -> atOf h2 (PDiag d) i i = inr (valOf h m i i))
     /\ (forall i j, i < n -> j < n -> i <> j -> atOf h2 (PDiag d) i j = inr czero)
     /\ (~ mentionsDiag d m -> forall i j, atOf h2 m i j = atOf h m i j)).
  { intros h2 Hf.
    assert (Hg2 : getDiag h2 d = DiagCDense.mk v1)
      by (rewrite (filledTo_getDiag _ _ _ _ _ _ _ d Hf); exact Hg1).
    split; [simpl; rewrite Hg2; simpl; congruence|].
    split; [|split].
    - intros i Hi. simpl. rewrite Hg2. cbn [DiagCDense.mat].
      rewrite (diag_read_back h1 v1 am off l cp Hwf1 Hinc1 Hd1 h2 val i i Hf); try lia.
      rewrite Nat.eqb_refl. unfold val, valOf. rewrite Eat1. reflexivity.
    - intros i j Hi Hj Hne. simpl. rewrite Hg2. cbn [DiagCDense.mat].
      rewrite (diag_read_back h1 v1 am off l cp Hwf1 Hinc1 Hd1 h2 val i j Hf); try lia.
      apply Nat.eqb_neq in Hne. rewrite Hne. reflexivity.
    - intros Hnm i j. rewrite <- Eat1.
      apply (atOf_agreeD h1 h2 d (Vector.Data v1)); try assumption.
      + eapply filledTo_agree; [exact Hf| |]; intros k Hk;
          apply (diag_cells_ok h1 v1 am off l cp Hwf1 Hinc1 Hd1 k Hk).
      + intros p. eapply filledTo_getDense; eassumption.
      + intros p _. eapply filledTo_getDiag; eassumption. }
  assert (Hloop : exists h2,
     forRange n 0 (fun i => bind (At m i i) (fun x => DiagCDense_setDiag d i x)) h1
     = Ok tt h2
     /\ filledTo h1 h2 am pos (Vector.N v1) val (Vector.N v1)).
  { rewrite <- HN1.
    apply (diagLoop_fill h1 d v1 am off l cp Hg1 Hwf1 Hinc1 Hd1 m val). exact Hread. }
  assert (Hstart : forall k : nat * nat -> M unit,
     bind (Dims m) k h = k (DimsOf h m) h) by reflexivity.
  assert (Hgen : forall (P : Heap -> Prop),
     (forall h2, filledTo h1 h2 am pos (Vector.N v1) val (Vector.N v1) -> P h2) ->
     exists h',
       bind (DiagCDense_reuseAsNonZeroed d n)
         (fun _ => forRange n 0
            (fun i => bind (At m i i) (fun x => DiagCDense_setDiag d i x))) h = Ok tt h'
       /\ P h').
  { intros P HP. destruct Hloop as (h2 & E2 & Hf2). exists h2.
    rewrite (bind_Ok _ _ _ _ _ E1). split; [exact E2|]. apply HP. exact Hf2. }
  assert (Hkernel : forall r, m = PDiag r ->
            DiagCDense_DiagFrom d m h
            = bind (DiagCDense_reuseAsNonZeroed d n)
                (fun _ => bind (diagMat r) (fun vec =>
                   bind (diagMat d) (fun dv => Copy vec dv))) h).
  { intros r ->. unfold DiagCDense_DiagFrom. rewrite Hstart.
    destruct (DimsOf h (PDiag r)) as [mr mc]. cbn [fst snd] in Hmin. rewrite Hmin.
    reflexivity. }
  enough (Hmain : exists h',
            DiagCDense_DiagFrom d m h = Ok tt h'
            /\ DimsOf h' (PDiag d) = (n, n)
            /\ (forall i, i < n -> atOf h' (PDiag d) i i = inr (valOf h m i i))
            /\ (forall i j, i < n -> j < n -> i <> j ->
                  atOf h' (PDiag d) i j = inr czero)
            /\ (~ mentionsDiag d m -> forall i j, atOf h' m i j = atOf h m i j)).
  { destruct Hmain as (h' & E & A & B & C0 & D). exists h'. auto 10. }
  clear Hkernel.
  unfold DiagCDense_DiagFrom. rewrite Hstart.
  destruct (DimsOf h m) as [mr mc] eqn:Edim. cbn [fst snd] in Hmin. rewrite Hmin.
  destruct m as [pm|r|u|u|fr fc ff]; try (destruct (Hgen _ Hfin) as (h' & E & HP);
    exists h'; split; [exact E|exact HP]).
  (* the operand is a DiagCDense: the kernel's vector copy *)
  rewrite (bind_Ok _ _ _ _ _ E1).
  unfold diagMat at 1. unfold bind at 1, gets at 1.
  unfold diagMat at 1. unfold bind at 1, gets at 1. rewrite Hg1. cbn [DiagCDense.mat].
  destruct (Copy_fill h1 v1 am off l cp Hwf1 Hinc1 Hd1
              (DiagCDense.mat (getDiag h1 r)) val) as (h2 & E2 & Hf2).
  - simpl in Edim1. injection Edim1 as E3 E4.
    rewrite HN1, <- Hmin. rewrite <- E3, <- E4. symmetry. apply Nat.min_id.
  - intros h2 k i Hf Hk Hi.
    pose proof (Hread h2 k i Hf Hk Hi) as Ea. simpl in Ea.
    rewrite (filledTo_getDiag _ _ _ _ _ _ _ r Hf) in Ea.
    apply diagAtOf_sliceGet; [|exact Ea].
    simpl in Edim1. injection Edim1 as E3 E4. lia.
  - exists h2. split; [exact E2|]. apply Hfin. exact Hf2.
Qed.

Lemma heapABDiag_cells i : i < 4 -> is_Some (cellAt heapABDiag 0 i).
Proof.
  intros Hi. do 4 (destruct i as [|i]; [vm_compute; eauto|]). lia.
Qed.

Lemma DiagFrom_extracts_diagonal_witness :
  exists h',
    DiagCDense_DiagFrom 0 (PDense 0) heapABDiag = Ok tt h'
    /\ DimsOf h' (PDiag 0) = (2, 2)
    /\ (forall i, i < 2 -> atOf h' (PDiag 0) i i = inr (valOf heapABDiag (PDense 0) i i))
    /\ (forall i j, i < 2 -> j < 2 -> i <> j -> atOf h' (PDiag 0) i j = inr czero)
    /\ (~ mentionsDiag 0 (PDense 0) ->
        forall i j, atOf h' (PDense 0) i j = atOf heapABDiag (PDense 0) i j)
    /\ (forall r, PDense 0 = PDiag r ->
          DiagCDense_DiagFrom 0 (PDense 0) heapABDiag
          = bind (DiagCDense_reuseAsNonZeroed 0 2)
              (fun _ => bind (diagMat r) (fun vec =>
                 bind (diagMat 0) (fun dv => Copy vec dv))) heapABDiag).
Proof.
  apply (DiagFrom_extracts_diagonal heapABDiag 0 (PDense 0) 2).
  - reflexivity.
  - lia.
  - split; [|vm_compute; lia]. split; [lia|]. intros i Hi. apply heapABDiag_cells. exact Hi.
  - split; [vm_compute; lia|]. split; [exact I|]. left. split; reflexivity.
  - intros x i Hw _. exact Hw.
Defined.

(** The diagonal of the test's matrix a = [[1+1i, 0],[1, 2i]]. *)
Example DiagFrom_example :
  resultOf (('(a, b, d) <- exampleABDiag ;;
             DiagCDense_DiagFrom d (PDense a) ;;
             entries (PDiag d)) emptyHeap)
  = Some [[Cx 1 1; Cx 0 0]; [Cx 0 0; Cx 0 2]].
Proof. vm_compute. reflexivity. Qed.

Lemma heapShared_cells h : h = heapShared47 \/ h = heapShared25 ->
  forall i, i < 9 -> is_Some (cellAt h 0 i).
Proof.
  intros [-> | ->] i Hi; do 9 (destruct i as [|i]; [vm_compute; eauto|]); lia.
Qed.

Lemma heapShared_destDiagOK h :
  h = heapShared47 \/ h = heapShared25 -> destDiagOK h 0 3.
Proof.
  intros Hh. split; [destruct Hh as [-> | ->]; vm_compute; lia|].
  cbv zeta.
  assert (Hd : exists lo, lo + 3 <= 9
            /\ DiagCDense.mat (getDiag h 0) = Vector.mk 3 (Slice 0 lo 3 (9 - lo)) 1).
  { destruct Hh as [-> | ->]; [exists 4|exists 2]; (split; [lia|reflexivity]). }
  destruct Hd as (lo & Hlo & ->). cbn [Vector.Data Vector.N Vector.Inc].
  assert (Hv : validSlice h (Slice 0 lo 3 (9 - lo))).
  { split; [lia|]. intros i Hi. apply heapShared_cells; [exact Hh|lia]. }
  split; [exact Hv|]. right. split; [discriminate|]. split; [reflexivity|].
  split; [exact Hv|]. intros _. cbn [Vector.N Vector.Inc Vector.Data len]. lia.
Qed.


(** The claim as stated fails when the storage of the receiver lies inside
    that of m.  With m a 3 x 3 matrix over data = [1, ..., 9] and d of size 3
    over data[4:7], the cell of m(1, 1) = 5 has been overwritten by the time
    it is read, and d(1, 1) is 1.  With d over data[2:5], d(1, 1) is 5, but
    storing d(2, 2) has set m(1, 1) to 9. *)
Lemma DiagFrom_receiver_inside_source :
  (DimsOf heapShared47 (PDense 0) = (3, 3)
   /\ wfM heapShared47 (PDense 0)
   /\ destDiagOK heapShared47 0 3
   /\ exists h',
        DiagCDense_DiagFrom 0 (PDense 0) heapShared47 = Ok tt h'
        /\ atOf heapShared47 (PDense 0) 1 1 = inr (Cx 5 0)
        /\ atOf h' (PDiag 0) 1 1 = inr (Cx 1 0)
        /\ atOf h' (PDiag 0) 1 1 <> atOf heapShared47 (PDense 0) 1 1)
  /\ (DimsOf heapShared25 (PDense 0) = (3, 3)
      /\ wfM heapShared25 (PDense 0)
      /\ destDiagOK heapShared25 0 3
      /\ exists h',
           DiagCDense_DiagFrom 0 (PDense 0) heapShared25 = Ok tt h'
           /\ atOf h' (PDiag 0) 1 1 = inr (Cx 5 0)
           /\ atOf h' (PDense 0) 1 1 = inr (Cx 9 0)
           /\ atOf h' (PDiag 0) 1 1 <> atOf h' (PDense 0) 1 1).
Proof.
  split.
  - split; [reflexivity|]. split.
    { split; [|vm_compute; lia]. split; [lia|].
      intros i Hi. apply heapShared_cells; [left; reflexivity|exact Hi]. }
    split; [apply heapShared_destDiagOK; left; reflexivity|].
    eexists. split; [vm_compute; reflexivity|].
    split; [vm_compute; reflexivity|]. split; [vm_compute; reflexivity|].
    intros E.
    apply (f_equal (fun s => match s with
                             | inr z => PrimFloat.eqb (re z) 1
                             | inl _ => false
                             end)) in E.
    vm_compute in E. discriminate.
  - split; [reflexivity|]. split.
    { split; [|vm_compute; lia]. split; [lia|].
      intros i Hi. apply heapShared_cells; [right; reflexivity|exact Hi]. }
    split; [apply heapShared_destDiagOK; right; reflexivity|].
    eexists. split; [vm_compute; reflexivity|].
    split; [vm_compute; reflexivity|]. split; [vm_compute; reflexivity|].
    intros E.
    apply (f_equal (fun s => match s with
                             | inr z => PrimFloat.eqb (re z) 5
                             | inl _ => false
                             end)) in E.
    vm_compute in E. discriminate.
Qed.

(** ** Scale and Copy into an independent destination *)

Lemma forRange_ext n i0 body body' h :
  (forall i h1, body i h1 = body' i h1) ->
  forRange n i0 body h = forRange n i0 body' h.
Proof.
  intros Hb. revert i0 h. induction n as [|n IH]; intros i0 h; simpl; [reflexivity|].
  unfold bind. rewrite Hb. destruct (body' i0 h); [apply IH|reflexivity].
Qed.

Section ScaleTarget.
(** A well-formed destination [m] with struct [g] in the store [h1]. *)
Variables (h1 : Heap) (m : ptr) (g : General.t) (am off l cp : nat).
Hypothesis Hg : getDense h1 m = CDense.mk g.
Hypothesis Hwf : wfGeneral h1 g.
Hypothesis Hd : General.Data g = Slice am off l cp.

Let R := General.Rows g.
Let C := General.Cols g.
Let St := General.Stride g.
Let pos := rowMajor off St C.

Lemma scaleRows_fill f ga fa :
  let val k := cmul (fa (k / C) (k mod C)) f in
  C <> 0 -> General.Stride ga <> 0 ->
  (R - 1) * General.Stride ga + C <= len (General.Data ga) ->
  len (General.Data ga) <= cap (General.Data ga) ->
  (forall h n r c, filledTo h1 h am pos (R * C) val n -> r < R -> c < C ->
     sliceGet h (General.Data ga) (r * General.Stride ga + c) = Some (fa r c)) ->
  exists h2, scaleRows m f R C ga h1 = Ok tt h2
             /\ filledTo h1 h2 am pos (R * C) val (R * C).
Proof.
  intros val HC HSa Hlen Hcap Hread. unfold scaleRows.
  set (Sa := General.Stride ga) in *.
  pose (I := fun (r : nat) (s : nat * nat) (h : Heap) =>
               let '(ja, jm) := s in
               ja = r * Sa /\ jm = r * St
               /\ filledTo h1 h am pos (R * C) val (r * C)).
  match goal with
  | |- exists h2, forLoop _ ?cond ?post ?body _ _ = _ /\ _ =>
      destruct (forLoop_inv I cond post body R) with (extra := 0)
        (s := (0, 0)) (h := h1) as (s' & h2 & E & Hi)
  end.
  - intros r [ja jm] h Hr (-> & -> & Hf). split.
    { apply Nat.ltb_lt. fold Sa. nia. }
    assert (Hrow : r * Sa + C <= cap (General.Data ga)).
    { assert (r * Sa <= (R - 1) * Sa) by (apply Nat.mul_le_mono_r; lia). lia. }
    destruct (fill_range h1 am pos (R * C) val
                (fun i => bind (readSlice (reslice (General.Data ga) (r * Sa) (r * Sa + C)) i)
                   (fun v => bind (denseMat m) (fun g' =>
                         writeSlice (General.Data g') (i + r * St) (cmul v f))))
                (r * C) C 0 h) as (h3 & E3 & Hf3).
    + apply (target_inj h1 g); assumption.
    + apply (target_some h1 g am off l cp); assumption.
    + nia.
    + intros c h' Hc Hf'. cbn [Nat.add].
      pose proof (Hread h' _ r c Hf' Hr Hc) as Ea.
      assert (Hrd : sliceGet h' (reslice (General.Data ga) (r * Sa) (r * Sa + C)) c
                    = Some (fa r c)).
      { rewrite sliceGet_reslice; [exact Ea|lia|].
        assert (r * Sa <= (R - 1) * Sa) by (apply Nat.mul_le_mono_r; lia). lia. }
      rewrite (bind_Ok _ _ _ _ _ (readSlice_ok _ _ _ _ Hrd)).
      assert (Hk : r * C + c < R * C) by nia.
      destruct (dense_cells_ok h1 g am off l cp _ Hwf Hd Hk) as (Hidx & Hs & _).
      fold C St in Hidx, Hs. fold pos in Hs.
      destruct (divmod_rc r c C Hc) as [Ediv Emod].
      rewrite Ediv, Emod in Hidx.
      unfold val. rewrite Ediv, Emod.
      unfold pos at 1. rewrite rowMajor_rc by assumption.
      replace (off + r * St + c) with (off + (c + r * St)) by lia.
      apply (dense_write_store h' m g am off l cp); try assumption.
      * rewrite (filledTo_getDense _ _ _ _ _ _ _ m Hf'). exact Hg.
      * lia.
      * replace (off + (c + r * St)) with (off + r * St + c) by lia.
        rewrite <- (rowMajor_rc off St C r c Hc).
        eapply filledTo_is_Some; [exact Hf'|exact Hk|exact Hs].
    + exact Hf.
    + exists h3. split.
      { rewrite (bind_Ok _ _ _ _ _ (sliceExpr_row g h _ _ Hrow)).
        unfold rangeSlice.
        assert (El : len (reslice (General.Data ga) (r * Sa) (r * Sa + C)) = C).
        { revert Hlen. destruct (General.Data ga); simpl; lia. }
        fold C. rewrite El. exact E3. }
      exists (Datatypes.S r * Sa, Datatypes.S r * St), h3. split.
      { unfold bind, denseMat, gets, ret.
        rewrite (filledTo_getDense _ _ _ _ _ _ _ m Hf3), Hg. cbn [CDense.mat].
        fold St. f_equal. f_equal; lia. }
      unfold I. split; [reflexivity|]. split; [reflexivity|].
      replace (Datatypes.S r * C) with (r * C + C) by lia. exact Hf3.
  - intros [ja jm] h (-> & _). apply Nat.ltb_ge. fold Sa. lia.
  - unfold I. split; [lia|]. split; [lia|]. apply filledTo_start.
  - destruct s' as [ja jm]. destruct Hi as (_ & _ & Hf).
    exists h2. rewrite Nat.add_0_r in E. split; assumption.
Qed.
End ScaleTarget.

(** Copy into a destination of the operand's shape that shares no storage
    with the operand. *)
Lemma CDense_Copy_spec h m g a R C :
  getDense h m = CDense.mk g -> wfGeneral h g ->
  General.Rows g = R -> General.Cols g = C -> C <> 0 ->
  DimsOf h a = (R, C) -> wfM h a -> indep h m (General.Data g) a ->
  exists h2,
    CDense_Copy m a h = Ok (R, C) h2
    /\ getDense h2 m = CDense.mk g
    /\ (forall r c, r < R -> c < C ->
          atOf h2 (PDense m) r c = inr (valOf h a r c)).
Proof.
  intros Hg Hwf HR HC HC0 Da Hwa Hin.
  destruct (wfGeneral_Slice h g Hwf) as (am & off & l & cp & Hd); [lia|].
  set (pos := rowMajor off (General.Stride g) (General.Cols g)).
  set (val := fun k => valOf h a (k / General.Cols g) (k mod General.Cols g)).
  assert (Hread : forall h2 n r c,
             filledTo h h2 am pos (General.Rows g * General.Cols g) val n ->
             r < General.Rows g -> c < General.Cols g ->
             atOf h2 a r c = inr (valOf h a r c) /\ atOf h2 a r c = inr (valOf h a r c)).
  { intros h2 n r c Hf Hr Hc.
    rewrite (operand_under_fill h h2 m (General.Data g) am pos _ val n a Hf);
      try assumption.
    - split; apply atOf_valOf; try assumption; rewrite Da; simpl; lia.
    - intros k Hk. eapply dense_cells_ok; eauto.
    - intros k Hk. eapply dense_cells_ok; eauto. }
  destruct (genericCells_fill h m g am off l cp Hg Hwf Hd (fun x _ => x) a a
              (valOf h a) (valOf h a) Hread) as (h2 & E2 & Hf2).
  exists h2.
  assert (Hg2 : getDense h2 m = CDense.mk g)
    by (rewrite (filledTo_getDense _ _ _ _ _ _ _ m Hf2); exact Hg).
  split; [|split; [exact Hg2|]].
  - unfold CDense_Copy, Dims. unfold bind at 1, gets at 1. rewrite Da.
    unfold denseMat at 1. unfold bind at 1, gets at 1. rewrite Hg. cbn [CDense.mat].
    rewrite HR, HC, !Nat.min_id.
    unfold genericCells in E2. rewrite HR, HC in E2.
    erewrite bind_Ok; [reflexivity|].
    rewrite <- E2. apply forRange_ext. intros i hi. apply forRange_ext. intros j hj.
    unfold bind. rewrite At_atOf.
    destruct (atOf hj a i j) eqn:Ea; [reflexivity|]. rewrite At_atOf, Ea. reflexivity.
  - intros r c Hr Hc. simpl. rewrite Hg2. cbn [CDense.mat].
    rewrite (filled_rowMajor_read h h2 g am off l cp val r c); try assumption; try lia.
    unfold val. destruct (divmod_rc r c (General.Cols g)) as [-> ->]; [lia|]. reflexivity.
Qed.

(** The row loop of Scale into a destination that shares no storage with the
    operand. *)
Lemma scaleRows_spec h m g a f R C :
  getDense h m = CDense.mk g -> wfGeneral h g ->
  General.Rows g = R -> General.Cols g = C -> C <> 0 ->
  DimsOf h (PDense a) = (R, C) -> wfM h (PDense a) ->
  indep h m (General.Data g) (PDense a) ->
  exists h2,
    scaleRows m f R C (CDense.mat (getDense h a)) h = Ok tt h2
    /\ getDense h2 m = CDense.mk g
    /\ agree h h2 (General.Data g)
    /\ cdenses h2 = cdenses h /\ cdiags h2 = cdiags h
    /\ (forall r c, r < R -> c < C ->
          atOf h2 (PDense m) r c = inr (cmul (valOf h (PDense a) r c) f)).
Proof.
  intros Hg Hwf HR HC HC0 Da Hwa Hin.
  destruct (wfGeneral_Slice h g Hwf) as (am & off & l & cp & Hd); [lia|].
  set (pos := rowMajor off (General.Stride g) (General.Cols g)).
  set (ga := CDense.mat (getDense h a)) in *.
  simpl in Da, Hwa. fold ga in Da, Hwa. injection Da as HRa HCa.
  assert (Hsome : forall k, k < General.Rows g * General.Cols g ->
                            is_Some (cellAt h am (pos k)))
    by (intros k Hk; eapply dense_cells_ok; eauto).
  assert (Hinw : forall k, k < General.Rows g * General.Cols g ->
                           inWin (General.Data g) am (pos k))
    by (intros k Hk; eapply dense_cells_ok; eauto).
  destruct (scaleRows_fill h m g am off l cp Hg Hwf Hd f ga (valOf h (PDense a)))
    as (h2 & E2 & Hf2).
  - lia.
  - destruct Hwa as (_ & Hcs & _). lia.
  - destruct Hwa as (_ & _ & Hlen). rewrite HR, HC. rewrite HRa, HCa in Hlen. exact Hlen.
  - eapply wfGeneral_len_cap. exact Hwa.
  - intros h2 n r c Hf Hr Hc.
    apply denseAtOf_sliceGet; [lia..|].
    pose proof (operand_under_fill h h2 m (General.Data g) am pos _ _ n (PDense a) Hf
                  Hsome Hinw Hwa Hin r c) as E.
    simpl in E. rewrite (filledTo_getDense _ _ _ _ _ _ _ a Hf) in E. fold ga in E.
    rewrite E. change (atOf h (PDense a) r c = inr (valOf h (PDense a) r c)).
    apply atOf_valOf; [exact Hwa|simpl; fold ga; lia..].
  - exists h2. rewrite HR, HC in E2. split; [exact E2|].
    assert (Hg2 : getDense h2 m = CDense.mk g)
      by (rewrite (filledTo_getDense _ _ _ _ _ _ _ m Hf2); exact Hg).
    split; [exact Hg2|].
    split; [eapply filledTo_agree; eassumption|].
    split; [apply Hf2|]. split; [apply Hf2|].
    intros r c Hr Hc. simpl. rewrite Hg2. cbn [CDense.mat].
    rewrite (filled_rowMajor_read h h2 g am off l cp _ r c Hwf Hd Hf2); try lia.
    destruct (divmod_rc r c (General.Cols g)) as [-> ->]; [lia|]. reflexivity.
Qed.

Section InPlace.
(** A well-formed, non-empty dense matrix [a] in the store [h]. *)
Variables (h : Heap) (a : ptr).
Hypothesis Ha : a < length (cdenses h).
Hypothesis Hwf : wfGeneral h (CDense.mat (getDense h a)).

Let ga := CDense.mat (getDense h a).
Let R := General.Rows ga.
Let C := General.Cols ga.
Hypothesis HR : R <> 0.
Hypothesis HC : C <> 0.

Let X := length (cdenses h).
Let gX := General.mk R C C (Slice (length (arrays h)) 0 (R * C) (R * C)).
Let hw := withFresh h R C.

Lemma withFresh_getDense_old p : p < length (cdenses h) -> getDense hw p = getDense h p.
Proof.
  intros Hp. unfold getDense, hw, withFresh. cbn [cdenses].
  rewrite lookup_app_l by assumption. reflexivity.
Qed.

Lemma withFresh_getDense_new : getDense hw X = CDense.mk gX.
Proof.
  unfold getDense, hw, withFresh, X. cbn [cdenses].
  rewrite lookup_app_r by lia. rewrite Nat.sub_diag. reflexivity.
Qed.

Lemma withFresh_agree : agree h hw nilSlice.
Proof.
  intros x i Hs. pose proof (cellAt_make_old h (R * C) x i Hs) as E.
  unfold cellAt, hw, withFresh in *. cbn [arrays] in *. rewrite E.
  split; [exact Hs|reflexivity].
Qed.

Lemma withFresh_wf_new : wfGeneral hw gX.
Proof.
  unfold wfGeneral, gX. cbn [General.Rows General.Cols General.Stride General.Data].
  split; [|split; [lia|simpl; nia]].
  split; [lia|]. intros i Hi. apply mk_is_Some with czero.
  pose proof (cellAt_make_new h (R * C) i Hi) as E.
  unfold cellAt, hw, withFresh in *. cbn [arrays Nat.add] in *. exact E.
Qed.

Lemma withFresh_wf_old : wfGeneral hw ga.
Proof.
  destruct Hwf as (Hv & Hrest). split; [|exact Hrest].
  eapply validSlice_agree; [apply withFresh_agree|exact Hv].
Qed.

Lemma withFresh_sep : sep (General.Data gX) (General.Data ga).
Proof.
  intros x i H1 H2. destruct H1 as [-> _].
  destruct Hwf as (Hv & _).
  pose proof (validSlice_inWin h _ _ _ Hv H2) as [v Hs].
  rewrite cellAt_fresh in Hs. discriminate.
Qed.

Lemma withFresh_sep_sym : sep (General.Data ga) (General.Data gX).
Proof. intros x i H1 H2. exact (withFresh_sep x i H2 H1). Qed.

Lemma withFresh_atOf r c : atOf hw (PDense a) r c = atOf h (PDense a) r c.
Proof.
  simpl. rewrite (withFresh_getDense_old a Ha). unfold denseAtOf.
  destruct Hwf as (Hv & _).
  rewrite (sliceGet_agree h hw nilSlice); try assumption; try reflexivity.
  - apply withFresh_agree.
  - intros x i [].
Qed.

(** From the store with the fresh matrix on: scale into it, then copy it
    into [a]. *)
Lemma scale_then_copy k :
  exists hf h',
    scaleRows X k R C ga hw = Ok tt hf
    /\ CDense_Copy a (PDense X) hf = Ok (R, C) h'
    /\ DimsOf h' (PDense a) = (R, C)
    /\ (forall r c, r < R -> c < C ->
          atOf h' (PDense a) r c = inr (cmul (valOf h (PDense a) r c) k)).
Proof.
  assert (Hneq : a <> X) by (unfold X; lia).
  pose proof (withFresh_getDense_old a Ha) as Hga. fold ga in Hga.
  destruct (scaleRows_spec hw X gX a k R C) as (hf & E1 & HgX & Hag & Hcd & _ & Hval).
  - apply withFresh_getDense_new.
  - apply withFresh_wf_new.
  - reflexivity.
  - reflexivity.
  - exact HC.
  - simpl. rewrite Hga. reflexivity.
  - simpl. rewrite Hga. apply withFresh_wf_old.
  - simpl. rewrite Hga. split; [exact Hneq|apply withFresh_sep].
  - rewrite Hga in E1.
    assert (Hgaf : getDense hf a = getDense h a)
      by (unfold getDense at 1; rewrite Hcd; apply (withFresh_getDense_old a Ha)).
    destruct (CDense_Copy_spec hf a ga (PDense X) R C) as (h' & E2 & Hg' & Hval').
    + rewrite Hgaf. unfold ga. destruct (getDense h a). reflexivity.
    + destruct withFresh_wf_old as (Hv & Hrest). split; [|exact Hrest].
      eapply validSlice_agree; [exact Hag|exact Hv].
    + reflexivity.
    + reflexivity.
    + exact HC.
    + simpl. rewrite HgX. reflexivity.
    + simpl. rewrite HgX. cbn [CDense.mat].
      destruct withFresh_wf_new as (Hv & Hrest). split; [|exact Hrest].
      eapply validSlice_agree; [exact Hag|exact Hv].
    + simpl. rewrite HgX. cbn [CDense.mat]. split; [lia|apply withFresh_sep_sym].
    + exists hf, h'. split; [exact E1|]. split; [exact E2|].
      split; [simpl; rewrite Hg'; reflexivity|].
      intros r c Hr Hc. rewrite (Hval' r c Hr Hc).
      unfold valOf at 1. rewrite (Hval r c Hr Hc).
      unfold valOf. rewrite withFresh_atOf. reflexivity.
Qed.
End InPlace.

Lemma reuse_same_shape h m :
  General.Rows (CDense.mat (getDense h m)) <> 0 ->
  General.Cols (CDense.mat (getDense h m)) <> 0 ->
  General.Stride (CDense.mat (getDense h m)) <> 0 ->
  CDense_reuseAsNonZeroed m (General.Rows (CDense.mat (getDense h m)))
    (General.Cols (CDense.mat (getDense h m))) h = Ok tt h.
Proof.
  intros HR HC HS. unfold CDense_reuseAsNonZeroed.
  apply Nat.eqb_neq in HR, HC, HS. rewrite HR, HC. cbn [orb].
  unfold CDense_IsEmpty, denseMat, bind, gets, ret. rewrite HS.
  rewrite !Nat.eqb_refl. reflexivity.
Qed.

Lemma reuse_fresh_empty h r c :
  r <> 0 -> c <> 0 ->
  CDense_reuseAsNonZeroed (length (cdenses h)) r c
    (mkHeap (arrays h) (cdenses h ++ [CDense.zero]) (cdiags h))
  = Ok tt (withFresh h r c).
Proof.
  intros Hr Hc. unfold CDense_reuseAsNonZeroed.
  apply Nat.eqb_neq in Hr as Hr', Hc as Hc'. rewrite Hr', Hc'. cbn [orb].
  assert (Eg : getDense (mkHeap (arrays h) (cdenses h ++ [CDense.zero]) (cdiags h))
                 (length (cdenses h)) = CDense.zero).
  { unfold getDense. cbn [cdenses]. rewrite lookup_app_r by lia.
    rewrite Nat.sub_diag. reflexivity. }
  unfold CDense_IsEmpty, denseMat, bind, gets, ret. rewrite Eg.
  cbn [CDense.mat CDense.zero General.zero General.Stride General.Data Nat.eqb].
  unfold useC. cbv beta iota. rewrite ?Eg.
  cbn [CDense.mat CDense.zero General.zero General.Stride General.Data cap].
  assert (Hrc : (r * c <=? 0) = false) by (apply Nat.leb_gt; nia).
  rewrite Hrc. unfold make, setDenseMat, modify, withFresh. cbn [arrays cdenses cdiags].
  f_equal. f_equal.
  rewrite insert_app_r_alt by lia. rewrite Nat.sub_diag. reflexivity.
Qed.

Section InPlacePaths.
Variables (h : Heap) (a : ptr).
Hypothesis Ha : a < length (cdenses h).
Hypothesis Hwf : wfGeneral h (CDense.mat (getDense h a)).

Let ga := CDense.mat (getDense h a).
Let R := General.Rows ga.
Let C := General.Cols ga.
Hypothesis HR : R <> 0.
Hypothesis HC : C <> 0.

Let X := length (cdenses h).
Let hw := withFresh h R C.

(** In place, Scale computes into a workspace and copies it back. *)
Lemma Scale_self_unfold k :
  CDense_Scale a k (PDense a) h
  = defer (bind (CDense_Copy a (PDense X)) (fun _ => ret tt))
      (scaleRows X k R C ga) hw.
Proof.
  unfold CDense_Scale, Dims. unfold bind at 1, gets at 1. cbn [DimsOf].
  fold ga. fold R C.
  assert (HS : General.Stride ga <> 0) by (destruct Hwf as (_ & Hcs & _); fold ga in Hcs; fold C in Hcs; lia).
  rewrite (bind_Ok _ _ _ _ _ (reuse_same_shape h a HR HC HS)).
  cbn [untransposeExtractCmplx].
  unfold denseMat at 1. unfold bind at 1, gets at 1. fold ga.
  cbn [isPtr]. rewrite Nat.eqb_refl. unfold bind at 1, ret at 1.
  reflexivity.
Qed.

(** Through a fresh receiver, Scale computes into it directly. *)
Lemma scaleViaTmp_unfold k :
  scaleViaTmp a k h
  = bind (scaleRows X k R C ga)
      (fun _ => bind (CDense_Copy a (PDense X)) (fun _ => ret tt)) hw.
Proof.
  unfold scaleViaTmp.
  set (h0 := mkHeap (arrays h) (cdenses h ++ [CDense.zero]) (cdiags h)).
  assert (Ega0 : getDense h0 a = getDense h a).
  { unfold getDense, h0. cbn [cdenses]. rewrite lookup_app_l by assumption. reflexivity. }
  change (bind (CDense_Scale X k (PDense a))
            (fun _ => bind (CDense_Copy a (PDense X)) (fun _ => ret tt)) h0
          = bind (scaleRows X k R C ga)
              (fun _ => bind (CDense_Copy a (PDense X)) (fun _ => ret tt)) hw).
  enough (Es : CDense_Scale X k (PDense a) h0 = scaleRows X k R C ga hw)
    by (unfold bind at 1; rewrite Es; reflexivity).
  unfold CDense_Scale, Dims. unfold bind at 1, gets at 1. cbn [DimsOf].
  rewrite Ega0. fold ga. fold R C.
  rewrite (bind_Ok _ _ _ _ _ (reuse_fresh_empty h R C HR HC)). fold hw.
  cbn [untransposeExtractCmplx].
  assert (Egaw : getDense hw a = getDense h a).
  { unfold getDense, hw, withFresh. cbn [cdenses].
    rewrite lookup_app_l by assumption. reflexivity. }
  unfold denseMat at 1. unfold bind at 1, gets at 1. rewrite Egaw. fold ga.
  cbn [isPtr]. assert (Hne : (a =? X) = false) by (apply Nat.eqb_neq; unfold X; lia).
  rewrite Hne.
  assert (Hov : CDense_checkOverlap X ga hw = Ok false hw).
  { unfold CDense_checkOverlap, denseMat, bind, gets, ret.
    assert (EgX : getDense hw X = CDense.mk (General.mk R C C
                    (Slice (length (arrays h)) 0 (R * C) (R * C)))).
    { unfold getDense, hw, withFresh, X. cbn [cdenses].
      rewrite lookup_app_r by lia. rewrite Nat.sub_diag. reflexivity. }
    rewrite EgX. cbn [CDense.mat General.Data].
    destruct (wfGeneral_Slice h ga Hwf HC) as (aa & offa & la & ca & Eda).
    rewrite Eda. cbn [intersect].
    assert (Haa : aa <> length (arrays h)).
    { intros ->. destruct Hwf as (Hv & _ & Hlen). fold ga in Hv, Hlen.
      rewrite Eda in Hv, Hlen. simpl in Hv, Hlen. destruct Hv as [Hlc Hv].
      destruct (Hv 0) as [v Hs]; [fold R C in Hlen; nia|].
      rewrite cellAt_fresh in Hs. discriminate. }
    apply Nat.eqb_neq in Haa. rewrite Nat.eqb_sym, Haa. reflexivity. }
  rewrite (bind_Ok _ _ _ _ _ Hov). reflexivity.
Qed.
End InPlacePaths.

(** C1 -- Self-aliasing correctness of Scale: for every well-formed dense
    matrix a and every scalar k, the in-place call a.Scale(k, a) and the
    detour through a fresh receiver, tmp.Scale(k, a) followed by
    a.Copy(tmp), end in the same store; a keeps its dimensions and every
    entry of a is its former value times k.  On an empty a both panic with
    ErrZeroLength and leave a as it is. *)
Theorem Scale_in_place h a k :
  a < length (cdenses h) ->
  wfGeneral h (CDense.mat (getDense h a)) ->
  let R := General.Rows (CDense.mat (getDense h a)) in
  let C := General.Cols (CDense.mat (getDense h a)) in
  (R <> 0 -> C <> 0 ->
     exists h',
       CDense_Scale a k (PDense a) h = Ok tt h'
       /\ scaleViaTmp a k h = Ok tt h'
       /\ DimsOf h' (PDense a) = (R, C)
       /\ (forall r c, r < R -> c < C ->
             atOf h' (PDense a) r c = inr (cmul (valOf h (PDense a) r c) k)))
  /\ (R = 0 \/ C = 0 ->
      CDense_Scale a k (PDense a) h = Panic ErrZeroLength h
      /\ exists h',
           scaleViaTmp a k h = Panic ErrZeroLength h'
           /\ arrays h' = arrays h /\ getDense h' a = getDense h a).
Proof.
  intros Ha Hwf R C. split.
  - intros HR HC.
    destruct (scale_then_copy h a Ha Hwf HR HC k) as (hf & h' & E1 & E2 & Hdim & Hval).
    exists h'. split; [|split; [|split; assumption]].
    + rewrite (Scale_self_unfold h a Ha Hwf HR HC k). unfold defer.
      rewrite E1. unfold bind. rewrite E2. reflexivity.
    + rewrite (scaleViaTmp_unfold h a Ha Hwf HR HC k).
      rewrite (bind_Ok _ _ _ _ _ E1). unfold bind. rewrite E2. reflexivity.
  - intros Hz.
    assert (Hb : (R =? 0) || (C =? 0) = true).
    { destruct Hz as [-> | ->]; [reflexivity|]. rewrite Nat.eqb_refl. apply orb_true_r. }
    split.
    + unfold CDense_Scale, Dims. unfold bind at 1, gets at 1. cbn [DimsOf]. fold R C.
      unfold bind at 1, CDense_reuseAsNonZeroed at 1. rewrite Hb. reflexivity.
    + set (h0 := mkHeap (arrays h) (cdenses h ++ [CDense.zero]) (cdiags h)).
      assert (Ega0 : getDense h0 a = getDense h a).
      { unfold getDense, h0. cbn [cdenses]. rewrite lookup_app_l by assumption.
        reflexivity. }
      exists h0. split; [|split; [reflexivity|exact Ega0]].
      unfold scaleViaTmp.
      change (bind (CDense_Scale (length (cdenses h)) k (PDense a))
                (fun _ => bind (CDense_Copy a (PDense (length (cdenses h))))
                            (fun _ => ret tt)) h0
              = Panic ErrZeroLength h0).
      apply bind_Panic.
      unfold CDense_Scale, Dims. unfold bind at 1, gets at 1. cbn [DimsOf].
      rewrite Ega0. fold R C.
      unfold bind at 1, CDense_reuseAsNonZeroed at 1. rewrite Hb. reflexivity.
Qed.

Lemma Scale_in_place_witness :
  let R := General.Rows (CDense.mat (getDense heapABC 0)) in
  let C := General.Cols (CDense.mat (getDense heapABC 0)) in
  (R <> 0 -> C <> 0 ->
     exists h',
       CDense_Scale 0 (Cx 0 1) (PDense 0) heapABC = Ok tt h'
       /\ scaleViaTmp 0 (Cx 0 1) heapABC = Ok tt h'
       /\ DimsOf h' (PDense 0) = (R, C)
       /\ (forall r c, r < R -> c < C ->
             atOf h' (PDense 0) r c
             = inr (cmul (valOf heapABC (PDense 0) r c) (Cx 0 1))))
  /\ (R = 0 \/ C = 0 ->
      CDense_Scale 0 (Cx 0 1) (PDense 0) heapABC = Panic ErrZeroLength heapABC
      /\ exists h',
           scaleViaTmp 0 (Cx 0 1) heapABC = Panic ErrZeroLength h'
           /\ arrays h' = arrays heapABC /\ getDense h' 0 = getDense heapABC 0).
Proof.
  apply (Scale_in_place heapABC 0 (Cx 0 1)).
  - vm_compute. lia.
  - split; [|vm_compute; lia]. split; [vm_compute; lia|].
    intros i Hi. apply heapABC_cells. exact Hi.
Defined.

(** Concrete scenario 4 of the test file, and the same scaling in place. *)
Example ExampleCDense_Scale :
  resultOf ((da <- sliceLit [Cx 0 1; Cx 0 1; Cx 0 1; Cx 0 1] ;;
             a <- NewCDense 2 2 da ;;
             m <- newCDense General.zero ;;
             CDense_Scale m (Cx 0 1) (PDense a) ;;
             x <- entries (PDense m) ;;
             CDense_Scale a (Cx 0 1) (PDense a) ;;
             y <- entries (PDense a) ;;
             ret (x, y)) emptyHeap)
  = Some ([[Cx (-1) 0; Cx (-1) 0]; [Cx (-1) 0; Cx (-1) 0]],
          [[Cx (-1) 0; Cx (-1) 0]; [Cx (-1) 0; Cx (-1) 0]]).
Proof. vm_compute. reflexivity. Qed.

(** ** Mul over plain dense operands *)

Lemma opGet_opGetOf t A i l h v :
  opGetOf h t A i l = Some v -> opGet t A i l h = Ok v h.
Proof.
  destruct t; simpl; intros E.
  - apply readSlice_ok. exact E.
  - apply readSlice_ok. exact E.
  - destruct (sliceGet h (General.Data A) (l * General.Stride A + i)) as [z|] eqn:Ez;
      [|discriminate].
    simpl in E. injection E as <-.
    rewrite (bind_Ok _ _ _ _ _ (readSlice_ok _ _ _ _ Ez)). reflexivity.
Qed.

Lemma dot_dotSum h tA tB A B fa fb i j k l0 acc :
  (forall l, l0 <= l -> l < l0 + k ->
     opGetOf h tA A i l = Some (fa i l) /\ opGetOf h tB B l j = Some (fb l j)) ->
  dot k l0 tA tB A B i j acc h = Ok (dotSum fa fb i j k l0 acc) h.
Proof.
  revert l0 acc. induction k as [|k IH]; intros l0 acc Hread; simpl.
  - reflexivity.
  - destruct (Hread l0) as [Ea Eb]; [lia..|].
    rewrite (bind_Ok _ _ _ _ _ (opGet_opGetOf _ _ _ _ _ _ Ea)).
    rewrite (bind_Ok _ _ _ _ _ (opGet_opGetOf _ _ _ _ _ _ Eb)).
    apply IH. intros l Hl1 Hl2. apply Hread; lia.
Qed.

Lemma dotSum_ext fa fa' fb fb' i j k l0 acc :
  (forall l, l0 <= l -> l < l0 + k -> fa i l = fa' i l /\ fb l j = fb' l j) ->
  dotSum fa fb i j k l0 acc = dotSum fa' fb' i j k l0 acc.
Proof.
  revert l0 acc. induction k as [|k IH]; intros l0 acc He; simpl; [reflexivity|].
  destruct (He l0) as [-> ->]; [lia..|].
  apply IH. intros l Hl1 Hl2. apply He; lia.
Qed.

Section GemmTarget.
(** The destination struct [g] of Gemm, well-formed in the store [h1]. *)
Variables (h1 : Heap) (g : General.t) (am off l cp : nat).
Hypothesis Hwf : wfGeneral h1 g.
Hypothesis Hd : General.Data g = Slice am off l cp.

Let R := General.Rows g.
Let C := General.Cols g.
Let St := General.Stride g.
Let pos := rowMajor off St C.

Lemma Gemm_fill tA tB alpha beta A B K fa fb :
  let val k :=
    cadd (cmul alpha (dotSum fa fb (k / C) (k mod C) K 0 czero))
         (cmul beta (cellVal h1 am (pos k))) in
  opDims tA A = (R, K) -> opDims tB B = (K, C) ->
  (forall h n i j x, filledTo h1 h am pos (R * C) val n -> i < R -> j < C -> x < K ->
     opGetOf h tA A i x = Some (fa i x) /\ opGetOf h tB B x j = Some (fb x j)) ->
  exists h2, Gemm tA tB alpha A B beta g h1 = Ok tt h2
             /\ filledTo h1 h2 am pos (R * C) val (R * C).
Proof.
  intros val HdA HdB Hread. unfold Gemm. rewrite HdA, HdB.
  fold R C. rewrite !Nat.eqb_refl. cbn [negb orb].
  apply (fill_nested h1 am pos val
           (fun i j => bind (dot K 0 tA tB A B i j czero) (fun s =>
              bind (readSlice (General.Data g) (i * General.Stride g + j)) (fun c =>
                writeSlice (General.Data g) (i * General.Stride g + j)
                  (cadd (cmul alpha s) (cmul beta c)))))).
  - apply (target_inj h1 g). exact Hwf.
  - apply (target_some h1 g am off l cp); assumption.
  - intros i j h Hi Hj Hf.
    rewrite (bind_Ok _ _ _ _ _ (dot_dotSum h tA tB A B fa fb i j K 0 czero
               (fun x _ Hx => Hread h _ i j x Hf Hi Hj Hx))).
    assert (Hk : i * C + j < R * C) by nia.
    destruct (dense_cells_ok h1 g am off l cp _ Hwf Hd Hk) as (Hidx & Hs & _).
    fold C St in Hidx, Hs. fold pos in Hs.
    destruct (divmod_rc i j C Hj) as [Ediv Emod].
    rewrite Ediv, Emod in Hidx.
    assert (Hpos : pos (i * C + j) = off + (i * St + j))
      by (unfold pos; rewrite rowMajor_rc by assumption; lia).
    assert (Hcur : cellAt h am (off + (i * St + j)) = cellAt h1 am (pos (i * C + j))).
    { rewrite <- Hpos. destruct Hf as (_ & _ & _ & _ & Hrest & _). apply Hrest; lia. }
    destruct Hs as [c0 Hc0].
    assert (Hrd : sliceGet h (General.Data g) (i * General.Stride g + j) = Some c0).
    { rewrite Hd, sliceGet_Slice. fold St. apply Nat.ltb_lt in Hidx as Hb. rewrite Hb.
      rewrite Hcur. exact Hc0. }
    rewrite (bind_Ok _ _ _ _ _ (readSlice_ok _ _ _ _ Hrd)).
    rewrite Hd. fold St. rewrite writeSlice_ok.
    + rewrite Hpos. unfold val. rewrite Ediv, Emod.
      unfold cellVal. rewrite Hc0. reflexivity.
    + exact Hidx.
    + rewrite Hcur, Hc0. eauto.
  - apply filledTo_start.
Qed.
End GemmTarget.

Lemma Mul_dense_spec h c pa pb t M K N h1 :
  DimsOf h (viewOf t pa) = (M, K) -> DimsOf h (PDense pb) = (K, N) ->
  M <> 0 -> N <> 0 ->
  wfM h (PDense pa) -> wfM h (PDense pb) -> destOK h c M N ->
  indep h c (General.Data (CDense.mat (getDense h c))) (PDense pa) ->
  indep h c (General.Data (CDense.mat (getDense h c))) (PDense pb) ->
  CDense_reuseAsNonZeroed c M N h = Ok tt h1 ->
  exists h2,
    CDense_Mul c (viewOf t pa) (PDense pb) h = Ok tt h2
    /\ DimsOf h2 (PDense c) = (M, N)
    /\ (forall i j, i < M -> j < N ->
          atOf h2 (PDense c) i j
          = inr (cadd (cmul cone (dotSum (valOf h (viewOf t pa)) (valOf h (PDense pb))
                                    i j K 0 czero))
                      (cmul czero (valOf h1 (PDense c) i j))))
    /\ length (arrays h2) = length (arrays h1)
    /\ cdenses h2 = cdenses h1.
Proof.
  intros Da Db HM HN Hwa Hwb Hdest Hia Hib Ereuse.
  destruct (CDense_reuseAsNonZeroed_spec h c M N Hdest HM HN)
    as (h1' & g1 & E1 & Hg1 & HR1 & HC1 & HS1 & Hwf1 & Hdense & Hdiag & _ & Hag & Hwin & _).
  rewrite Ereuse in E1. injection E1 as <-.
  assert (Hdiag' : forall p, getDiag h1 p = getDiag h p)
    by (intros p; unfold getDiag; rewrite Hdiag; reflexivity).
  set (s0 := General.Data (CDense.mat (getDense h c))) in *.
  pose proof (agree_weaken _ _ s0 Hag) as Hag0.
  assert (Hwa1 : wfM h1 (PDense pa)) by (eapply wfM_agree; eassumption).
  assert (Hwb1 : wfM h1 (PDense pb)) by (eapply wfM_agree; eassumption).
  assert (Hia1 : indep h1 c (General.Data g1) (PDense pa)) by (eapply indep_reuse; eassumption).
  assert (Hib1 : indep h1 c (General.Data g1) (PDense pb)) by (eapply indep_reuse; eassumption).
  assert (Ea1 : forall i j, atOf h1 (PDense pa) i j = atOf h (PDense pa) i j)
    by (apply (atOf_agree h h1 c s0); assumption).
  assert (Eb1 : forall i j, atOf h1 (PDense pb) i j = atOf h (PDense pb) i j)
    by (apply (atOf_agree h h1 c s0); assumption).
  assert (Ega : getDense h1 pa = getDense h pa) by (apply Hdense; apply Hia).
  assert (Egb : getDense h1 pb = getDense h pb) by (apply Hdense; apply Hib).
  destruct (wfGeneral_Slice h1 g1 Hwf1) as (am & off & l & cp & Hd1); [lia|].
  set (ga := CDense.mat (getDense h1 pa)) in *.
  set (gb := CDense.mat (getDense h1 pb)) in *.
  set (tA := if t then Trans else NoTrans).
  (* the dimensions of the operands *)
  assert (HdA : opDims tA ga = (General.Rows g1, K)).
  { unfold tA, ga. rewrite Ega, HR1. destruct t; simpl in Da |- *.
    - injection Da as <- <-. reflexivity.
    - injection Da as <- <-. reflexivity. }
  assert (HdB : opDims NoTrans gb = (K, General.Cols g1)).
  { unfold gb. rewrite Egb, HC1. simpl in Db |- *. exact Db. }
  (* what the kernel reads *)
  assert (HvA : forall i x, i < M -> x < K ->
            atOf h1 (viewOf t pa) i x = inr (valOf h (viewOf t pa) i x)).
  { intros i x Hi Hx. unfold valOf.
    assert (E : atOf h1 (viewOf t pa) i x = atOf h (viewOf t pa) i x)
      by (destruct t; simpl; apply Ea1).
    rewrite E. destruct (atOf_wf h (viewOf t pa)) with (i := i) (j := x) as [v Hv].
    - destruct t; exact Hwa.
    - rewrite Da. exact Hi.
    - rewrite Da. exact Hx.
    - rewrite Hv. reflexivity. }
  assert (HvB : forall x j, x < K -> j < N ->
            atOf h1 (PDense pb) x j = inr (valOf h (PDense pb) x j)).
  { intros x j Hx Hj. rewrite Eb1. apply atOf_valOf; [exact Hwb|rewrite Db; simpl; lia..]. }
  destruct (Gemm_fill h1 g1 am off l cp Hwf1 Hd1 tA NoTrans cone czero ga gb K
              (valOf h (viewOf t pa)) (valOf h (PDense pb)) HdA HdB) as (h2 & E2 & Hf2).
  { intros h2 n i j x Hf Hi Hj Hx. rewrite HR1 in Hi. rewrite HC1 in Hj.
    assert (Hsome : forall k, k < General.Rows g1 * General.Cols g1 ->
              is_Some (cellAt h1 am (rowMajor off (General.Stride g1) (General.Cols g1) k)))
      by (intros k Hk; eapply dense_cells_ok; eauto).
    assert (Hinw : forall k, k < General.Rows g1 * General.Cols g1 ->
              inWin (General.Data g1) am
                (rowMajor off (General.Stride g1) (General.Cols g1) k))
      by (intros k Hk; eapply dense_cells_ok; eauto).
    pose proof (operand_under_fill h1 h2 c (General.Data g1) am _ _ _ n (PDense pa) Hf
                  Hsome Hinw Hwa1 Hia1) as Sa.
    pose proof (operand_under_fill h1 h2 c (General.Data g1) am _ _ _ n (PDense pb) Hf
                  Hsome Hinw Hwb1 Hib1) as Sb.
    split.
    - pose proof (HvA i x Hi Hx) as Ev.
      unfold tA. destruct t; simpl in Ev |- *.
      + pose proof (Sa x i) as Sa'. simpl in Sa'. rewrite <- Sa' in Ev.
        rewrite (filledTo_getDense _ _ _ _ _ _ _ pa Hf) in Ev.
        apply denseAtOf_sliceGet; [| |exact Ev].
        * injection HdA as E3 E4. fold ga. lia.
        * injection HdA as E3 E4. fold ga. lia.
      + pose proof (Sa i x) as Sa'. simpl in Sa'. rewrite <- Sa' in Ev.
        rewrite (filledTo_getDense _ _ _ _ _ _ _ pa Hf) in Ev.
        apply denseAtOf_sliceGet; [| |exact Ev].
        * injection HdA as E3 E4. fold ga. lia.
        * injection HdA as E3 E4. fold ga. lia.
    - pose proof (HvB x j Hx Hj) as Ev. simpl in Ev.
      pose proof (Sb x j) as Sb'. simpl in Sb'. rewrite <- Sb' in Ev.
      rewrite (filledTo_getDense _ _ _ _ _ _ _ pb Hf) in Ev.
      simpl. apply denseAtOf_sliceGet; [| |exact Ev].
      + injection HdB as E3 E4. fold gb. lia.
      + injection HdB as E3 E4. fold gb. lia. }
  exists h2.
  assert (Hg2 : getDense h2 c = CDense.mk g1)
    by (rewrite (filledTo_getDense _ _ _ _ _ _ _ c Hf2); exact Hg1).
  split; [|split; [simpl; rewrite Hg2; simpl; congruence|split; [|split]]].
  - (* the call reduces to the kernel *)
    unfold CDense_Mul, Dims. unfold bind at 1, gets at 1. rewrite Da.
    unfold bind at 1, gets at 1. rewrite Db. rewrite Nat.eqb_refl. cbn [negb].
    assert (Hu : untransposeExtractCmplx (viewOf t pa) = (PDense pa, t, false))
      by (destruct t; reflexivity).
    rewrite Hu. cbn [untransposeExtractCmplx].
    rewrite (bind_Ok _ _ _ _ _ Ereuse).
    assert (Hpa : isPtr c (PDense pa) = false) by (apply Nat.eqb_neq; apply Hia).
    assert (Hpb : isPtr c (PDense pb) = false) by (apply Nat.eqb_neq; apply Hib).
    rewrite Hpa, Hpb. unfold mulKernel.
    unfold bind at 1. unfold bind at 1. unfold denseMat at 1, gets at 1.
    unfold bind at 1. unfold CDense_checkOverlap at 1.
    unfold bind at 1, denseMat at 1, gets at 1. unfold ret at 1. unfold ret at 1.
    unfold bind at 1. unfold bind at 1. unfold denseMat at 1, gets at 1.
    unfold bind at 1. unfold CDense_checkOverlap at 1.
    unfold bind at 1, denseMat at 1, gets at 1. unfold ret at 1. unfold ret at 1.
    unfold bind at 1, denseMat at 1, gets at 1.
    unfold bind at 1, denseMat at 1, gets at 1.
    unfold bind at 1, denseMat at 1, gets at 1. rewrite Hg1. cbn [CDense.mat].
    fold ga gb. exact E2.
  - intros i j Hi Hj. simpl. rewrite Hg2. cbn [CDense.mat].
    rewrite (filled_rowMajor_read h1 h2 g1 am off l cp _ i j Hwf1 Hd1 Hf2); try lia.
    destruct (divmod_rc i j (General.Cols g1)) as [-> ->]; [lia|].
    do 3 f_equal.
    unfold valOf, cellVal. simpl. rewrite Hg1. cbn [CDense.mat]. unfold denseAtOf.
    assert (Hi' : (General.Rows g1 <=? i) = false) by (apply Nat.leb_gt; lia).
    assert (Hj' : (General.Cols g1 <=? j) = false) by (apply Nat.leb_gt; lia).
    rewrite Hi', Hj'. rewrite Hd1, sliceGet_Slice.
    destruct (wfGeneral_cell h1 g1 i j Hwf1) as [Hidx _]; [lia..|].
    rewrite Hd1 in Hidx. simpl in Hidx. apply Nat.ltb_lt in Hidx. rewrite Hidx.
    rewrite rowMajor_rc by lia. rewrite <- Nat.add_assoc.
    destruct (cellAt h1 am (off + (i * General.Stride g1 + j))); reflexivity.
  - apply Hf2.
  - apply Hf2.
Qed.

(** C4 (amended) -- Transpose without materialization: for dense matrices a
    and b with rows_a = rows_b (the inner dimension of the product of the
    transpose of a with b), a dense matrix aT holding the materialized
    transpose of a, and a receiver c (empty or of the result's shape) that
    shares no storage with them, Mul(c, a.T(), b) and Mul(c, aT, b) both
    return and give the same entry at every position.  The call on the view
    allocates no matrix, and no buffer either when c is not empty: the
    transposition reaches the kernel as a flag. *)
Theorem Mul_transposed_view h c a aT b K M N :
  DimsOf h (PDense a) = (K, M) -> DimsOf h (PDense b) = (K, N) ->
  DimsOf h (PDense aT) = (M, K) ->
  M <> 0 -> N <> 0 ->
  wfM h (PDense a) -> wfM h (PDense aT) -> wfM h (PDense b) ->
  (forall i x, i < M -> x < K -> atOf h (PDense aT) i x = atOf h (PDense a) x i) ->
  destOK h c M N ->
  indep h c (General.Data (CDense.mat (getDense h c))) (PDense a) ->
  indep h c (General.Data (CDense.mat (getDense h c))) (PDense aT) ->
  indep h c (General.Data (CDense.mat (getDense h c))) (PDense b) ->
  exists h1 h2,
    CDense_Mul c (CDense_T a) (PDense b) h = Ok tt h1
    /\ CDense_Mul c (PDense aT) (PDense b) h = Ok tt h2
    /\ DimsOf h1 (PDense c) = (M, N) /\ DimsOf h2 (PDense c) = (M, N)
    /\ (forall i j, i < M -> j < N ->
          exists v, atOf h1 (PDense c) i j = inr v /\ atOf h2 (PDense c) i j = inr v)
    /\ length (cdenses h1) = length (cdenses h)
    /\ (General.Stride (CDense.mat (getDense h c)) <> 0 ->
        length (arrays h1) = length (arrays h)).
Proof.
  intros Da Db DaT HM HN Hwa HwaT Hwb Htr Hdest Hia HiaT Hib.
  destruct (CDense_reuseAsNonZeroed_spec h c M N Hdest HM HN)
    as (hr & g1 & Er & _ & _ & _ & _ & _ & _ & _ & Hlen & _ & _ & Hsame).
  destruct (Mul_dense_spec h c a b true M K N hr) as (h1 & E1 & D1 & V1 & L1 & C1);
    try assumption.
  { simpl. simpl in Da. injection Da as -> ->. reflexivity. }
  destruct (Mul_dense_spec h c aT b false M K N hr) as (h2 & E2 & D2 & V2 & L2 & C2);
    try assumption.
  exists h1, h2. split; [exact E1|]. split; [exact E2|].
  split; [exact D1|]. split; [exact D2|]. split; [|split].
  - intros i j Hi Hj. eexists. split; [apply V1; assumption|].
    rewrite (V2 i j Hi Hj). do 3 f_equal.
    apply dotSum_ext. intros x _ Hx. split; [|reflexivity].
    unfold valOf.
    change (atOf h (viewOf true a) i x) with (atOf h (PDense a) x i).
    change (viewOf false aT) with (PDense aT).
    rewrite (Htr i x Hi Hx). reflexivity.
  - rewrite C1. exact Hlen.
  - intros Hs. rewrite L1. rewrite (Hsame Hs). reflexivity.
Qed.

Lemma heapMulT_cells i :
  (i < 4 -> is_Some (cellAt heapMulT 0 i) /\ is_Some (cellAt heapMulT 1 i))
  /\ (i < 6 -> is_Some (cellAt heapMulT 2 i)).
Proof.
  split; intros Hi.
  - do 4 (destruct i as [|i]; [vm_compute; eauto|]). lia.
  - do 6 (destruct i as [|i]; [vm_compute; eauto|]). lia.
Qed.

Lemma Mul_transposed_view_witness :
  exists h1 h2,
    CDense_Mul 3 (CDense_T 0) (PDense 2) heapMulT = Ok tt h1
    /\ CDense_Mul 3 (PDense 1) (PDense 2) heapMulT = Ok tt h2
    /\ DimsOf h1 (PDense 3) = (2, 3) /\ DimsOf h2 (PDense 3) = (2, 3)
    /\ (forall i j, i < 2 -> j < 3 ->
          exists v, atOf h1 (PDense 3) i j = inr v /\ atOf h2 (PDense 3) i j = inr v)
    /\ length (cdenses h1) = length (cdenses heapMulT)
    /\ (General.Stride (CDense.mat (getDense heapMulT 3)) <> 0 ->
        length (arrays h1) = length (arrays heapMulT)).
Proof.
  apply (Mul_transposed_view heapMulT 3 0 1 2 2 2 3).
  - reflexivity.
  - reflexivity.
  - reflexivity.
  - lia.
  - lia.
  - split; [|vm_compute; lia]. split; [lia|]. intros i Hi. apply heapMulT_cells. exact Hi.
  - split; [|vm_compute; lia]. split; [lia|]. intros i Hi. apply heapMulT_cells. exact Hi.
  - split; [|vm_compute; lia]. split; [lia|]. intros i Hi. apply heapMulT_cells. exact Hi.
  - intros i x Hi Hx.
    destruct i as [|[|i]]; [| |lia]; (destruct x as [|[|x]]; [| |lia]); reflexivity.
  - split; [vm_compute; lia|]. split; [exact I|]. left. reflexivity.
  - split; [lia|]. intros x i Hw _. exact Hw.
  - split; [lia|]. intros x i Hw _. exact Hw.
  - split; [lia|]. intros x i Hw _. exact Hw.
Defined.

(** The claim as stated fails: a is 1 x 2 and b is 2 x 1, so cols_a = rows_b,
    yet a.T() is 2 x 1 and Mul(c, a.T(), b) panics with ErrShape and produces
    no result. *)
Lemma Mul_transposed_view_needs_equal_rows :
  (DimsOf heapRowCol (PDense 0)).2 = (DimsOf heapRowCol (PDense 1)).1
  /\ CDense_Mul 2 (CDense_T 0) (PDense 1) heapRowCol = Panic ErrShape heapRowCol.
Proof. split; reflexivity. Qed.

(** Concrete scenario 3 of the test file. *)
Example ExampleCDense_Mul :
  resultOf ((da <- sliceLit [Cx 4 1; Cx 0 0; Cx 0 0; Cx 0 1] ;;
             a <- NewCDense 2 2 da ;;
             db <- sliceLit [Cx 0 4; Cx 0 0; Cx 0 0; Cx 0 0; Cx 0 0; Cx 4 0] ;;
             b <- NewCDense 2 3 db ;;
             c <- newCDense General.zero ;;
             CDense_Mul c (PDense a) (PDense b) ;;
             entries (PDense c)) emptyHeap)
  = Some [[Cx (-4) 16; Cx 0 0; Cx 0 0]; [Cx 0 0; Cx 0 0; Cx 0 4]].
Proof. vm_compute. reflexivity. Qed.
(** * Canonical cycles *)

Section CanonicaliseFacts.
Context {N : Type} `{!GraphNode N}.
Implicit Types (c s : list N).

(** The in-place reversal loop, started on the middle part of a slice,
    reverses that part. *)
Lemma swapLoop_middle fuel (pre mid post : list N) :
  length mid <= fuel ->
  swapLoop fuel (length pre) (length pre + length mid - 1) (pre ++ mid ++ post)
  = pre ++ rev mid ++ post.
Proof.
  revert pre mid post. induction fuel as [|k IH]; intros pre mid post Hf.
  - destruct mid; [reflexivity|simpl in Hf; lia].
  - destruct mid as [|x mid].
    { simpl. case_eq (length pre <? length pre + 0 - 1); [|reflexivity].
      intros E. apply Nat.ltb_lt in E. lia. }
    destruct mid as [|y mid' _] using rev_ind.
    { simpl. replace (length pre + 1 - 1) with (length pre) by lia.
      rewrite Nat.ltb_irrefl. reflexivity. }
    cbn [swapLoop].
    assert (Hj : length pre + length (x :: mid' ++ [y]) - 1
                 = length pre + S (length mid')).
    { simpl. rewrite length_app. simpl. lia. }
    rewrite Hj.
    assert ((length pre <? length pre + S (length mid')) = true) as ->
      by (apply Nat.ltb_lt; lia).
    assert (Hi : (pre ++ (x :: mid' ++ [y]) ++ post) !! length pre = Some x).
    { rewrite lookup_app_r by lia. rewrite Nat.sub_diag. reflexivity. }
    assert (Hjl : (pre ++ (x :: mid' ++ [y]) ++ post) !! (length pre + S (length mid'))
                  = Some y).
    { rewrite lookup_app_r by lia.
      replace (length pre + S (length mid') - length pre) with (S (length mid')) by lia.
      simpl. rewrite <- app_assoc. rewrite lookup_app_r by lia.
      rewrite Nat.sub_diag. reflexivity. }
    rewrite Hi, Hjl.
    assert (Hins : <[length pre + S (length mid') := x]>
                     (<[length pre := y]> (pre ++ (x :: mid' ++ [y]) ++ post))
                   = (pre ++ [y]) ++ mid' ++ ([x] ++ post)).
    { replace (length pre) with (length pre + 0) at 2 by lia.
      rewrite insert_app_r. simpl.
      rewrite insert_app_r_alt by lia.
      replace (length pre + S (length mid') - length pre) with (S (length mid')) by lia.
      simpl. rewrite <- (app_assoc mid').
      replace (length mid') with (length mid' + 0) at 1 by lia.
      rewrite insert_app_r. simpl. rewrite <- !app_assoc. reflexivity. }
    rewrite Hins.
    replace (length pre + 1) with (length (pre ++ [y]))
      by (rewrite length_app; reflexivity).
    replace (length pre + S (length mid') - 1)
      with (length (pre ++ [y]) + length mid' - 1)
      by (rewrite length_app; simpl; lia).
    rewrite IH.
    + simpl. rewrite rev_app_distr. simpl. rewrite <- !app_assoc. reflexivity.
    + simpl in Hf. rewrite length_app in Hf. simpl in Hf. lia.
Qed.

Lemma swapLoop_rev s :
  swapLoop (length s) 0 (length s - 1) s = rev s.
Proof.
  pose proof (swapLoop_middle (length s) [] s [] (le_n _)) as E.
  simpl in E. rewrite !app_nil_r in E. exact E.
Qed.

(** The scan keeps its state when no node has an ID below [min]. *)
Lemma scanMin_none s i idx min :
  (forall y, y ∈ s -> (min <= ID y)%Z) -> scanMin s i idx min = (idx, min).
Proof.
  revert i. induction s as [|n s IH]; intros i Hs; [reflexivity|].
  simpl. assert ((ID n <? min)%Z = false) as ->.
  { apply Z.ltb_ge. apply Hs. left. }
  apply IH. intros y Hy. apply Hs. right. exact Hy.
Qed.

(** The scan stops at the first node of least ID. *)
Lemma scanMin_found pre m post i idx min :
  (forall y, y ∈ pre -> (ID m < ID y)%Z) ->
  (forall y, y ∈ post -> (ID m <= ID y)%Z) ->
  (ID m < min)%Z ->
  scanMin (pre ++ m :: post) i idx min = (i + length pre + 1, ID m).
Proof.
  revert i idx min. induction pre as [|y pre IH]; intros i idx min Hpre Hpost Hm.
  - simpl. assert ((ID m <? min)%Z = true) as -> by (apply Z.ltb_lt; exact Hm).
    rewrite scanMin_none by exact Hpost. f_equal. lia.
  - simpl.
    assert (Hy : (ID m < ID y)%Z) by (apply Hpre; left).
    assert (Hpre' : forall z, z ∈ pre -> (ID m < ID z)%Z)
      by (intros z Hz; apply Hpre; right; exact Hz).
    destruct (ID y <? min)%Z.
    + rewrite IH by assumption. f_equal. lia.
    + rewrite IH by assumption. f_equal. lia.
Qed.

(** Every non-empty slice splits at its first node of least ID. *)
Lemma first_min_split c :
  c <> [] ->
  exists pre m post,
    c = pre ++ m :: post
    /\ (forall y, y ∈ pre -> (ID m < ID y)%Z)
    /\ (forall y, y ∈ post -> (ID m <= ID y)%Z).
Proof.
  induction c as [|x c IH]; [congruence|]. intros _.
  destruct c as [|x' c'].
  { exists [], x, []. split; [reflexivity|]. split; intros y Hy; inversion Hy. }
  destruct IH as (pre & m & post & E & Hpre & Hpost); [congruence|].
  destruct (Z_le_gt_dec (ID x) (ID m)) as [Hle|Hgt].
  - exists [], x, (x' :: c'). split; [reflexivity|].
    split; [intros y Hy; inversion Hy|].
    intros y Hy. rewrite E in Hy. apply elem_of_app in Hy as [Hy|Hy].
    + specialize (Hpre y Hy). lia.
    + apply elem_of_cons in Hy as [->|Hy]; [lia|]. specialize (Hpost y Hy). lia.
  - exists (x :: pre), m, post. rewrite E. split; [reflexivity|].
    split; [|exact Hpost].
    intros y Hy. apply elem_of_cons in Hy as [->|Hy]; [lia|]. apply Hpre, Hy.
Qed.

Lemma last_cons_ne (x : N) t : t <> [] -> last (x :: t) = last t.
Proof. destruct t; [congruence|reflexivity]. Qed.

(** canonicalise on a slice split at its first node of least ID. *)
Lemma canonicalise_at pre m post :
  post ++ pre <> [] ->
  (forall y, y ∈ pre -> (ID m < ID y)%Z) ->
  (forall y, y ∈ post -> (ID m <= ID y)%Z) ->
  canonicalise (pre ++ m :: post) = canonForm m (post ++ pre).
Proof.
  intros Hne Hpre Hpost.
  assert (Hlen : 2 <= length (pre ++ m :: post)).
  { rewrite length_app. simpl.
    destruct pre, post; simpl in *; try lia. congruence. }
  unfold canonicalise.
  assert ((length (pre ++ m :: post) <? 2) = false) as -> by (apply Nat.ltb_ge; exact Hlen).
  assert (Hstep : forall c', c' = m :: post ++ pre ->
    match c' !! (length c' - 1), c' !! 1 with
    | Some cl, Some c1 =>
        if (ID cl <? ID c1)%Z then
          match c' with
          | x :: s => x :: swapLoop (length s) 0 (length s - 1) s
          | [] => c'
          end
        else c'
    | _, _ => c'
    end = canonForm m (post ++ pre)).
  { intros c' ->. unfold canonForm.
    set (t := post ++ pre) in *.
    replace ((m :: t) !! (length (m :: t) - 1)) with (last t).
    2:{ rewrite <- (last_cons_ne m t Hne). rewrite last_lookup. simpl.
        rewrite Nat.sub_0_r. reflexivity. }
    replace ((m :: t) !! 1) with (head t) by (destruct t; reflexivity).
    destruct (last t) as [z|] eqn:El; destruct (head t) as [x|] eqn:Eh; try reflexivity.
    rewrite swapLoop_rev. reflexivity. }
  destruct pre as [|c0 pre].
  - cbn [app]. rewrite scanMin_none by exact Hpost. cbn [Nat.eqb negb].
    rewrite app_nil_r in Hstep. rewrite app_nil_r. exact (Hstep _ eq_refl).
  - cbn [app].
    rewrite (scanMin_found pre m post 0 0 (ID c0)).
    + assert (Hpl : 0 + length pre + 1 = length (c0 :: pre)) by (simpl; lia).
      rewrite Hpl.
      assert ((length (c0 :: pre) =? 0) = false) as -> by reflexivity.
      cbn [negb].
      change (c0 :: pre ++ m :: post) with ((c0 :: pre) ++ m :: post).
      rewrite drop_app_length, take_app_length.
      exact (Hstep _ eq_refl).
    + intros y Hy. apply Hpre. right. exact Hy.
    + exact Hpost.
    + apply Hpre. left.
Qed.

Lemma canonicalise_short c : length c < 2 -> canonicalise c = c.
Proof.
  intros H. unfold canonicalise. apply Nat.ltb_lt in H. rewrite H. reflexivity.
Qed.

Lemma canonForm_Permutation (m : N) t : canonForm m t ≡ₚ m :: t.
Proof.
  unfold canonForm. destruct (head t), (last t); try reflexivity.
  destruct (_ <? _)%Z; [|reflexivity].
  constructor. symmetry. apply Permutation_rev.
Qed.

Lemma head_rev (t : list N) : head (rev t) = last t.
Proof.
  destruct t as [|y t _] using rev_ind; [reflexivity|].
  rewrite rev_app_distr. simpl. rewrite last_snoc. reflexivity.
Qed.

Lemma last_rev (t : list N) : last (rev t) = head t.
Proof. rewrite <- (rev_involutive t) at 2. rewrite head_rev. reflexivity. Qed.

(** Of a cycle with distinct IDs and of its reverse, the canonical form is
    the same. *)
Lemma canonForm_rev (m : N) t :
  NoDup (ID <$> t) -> canonForm m (rev t) = canonForm m t.
Proof.
  intros Hnd. unfold canonForm. rewrite head_rev, last_rev, rev_involutive.
  destruct t as [|x t]; [reflexivity|].
  destruct t as [|z t _] using rev_ind; [reflexivity|].
  change (x :: t ++ [z]) with ((x :: t) ++ [z]). rewrite last_snoc.
  cbn [app head].
  assert (Hxz : ID x <> ID z).
  { rewrite fmap_cons, fmap_app in Hnd. apply NoDup_cons in Hnd as [Hx _].
    intros E. apply Hx. apply elem_of_app. right. rewrite E. simpl. left. }
  destruct (ID z <? ID x)%Z eqn:E1; destruct (ID x <? ID z)%Z eqn:E2;
    try reflexivity.
  - apply Z.ltb_lt in E1, E2. lia.
  - apply Z.ltb_ge in E1, E2. lia.
Qed.

(** X1 -- canonicalise returns the cycle it was given: a rotation of the
    slice or of its reverse, hence a permutation of it. *)
Theorem canonicalise_same_cycle c :
  (exists l1 l2,
     (c = l1 ++ l2 \/ rev c = l1 ++ l2) /\ canonicalise c = l2 ++ l1)
  /\ canonicalise c ≡ₚ c.
Proof.
  destruct (Nat.lt_ge_cases (length c) 2) as [Hs|Hl].
  { rewrite canonicalise_short by exact Hs. split; [|reflexivity].
    exists [], c. split; [left; reflexivity|]. rewrite app_nil_r. reflexivity. }
  destruct (first_min_split c) as (pre & m & post & E & Hpre & Hpost).
  { intros ->. simpl in Hl. lia. }
  assert (Hne : post ++ pre <> []).
  { intros E0. apply app_eq_nil in E0 as [-> ->]. subst c. simpl in Hl. lia. }
  subst c. rewrite (canonicalise_at pre m post Hne Hpre Hpost).
  split.
  - unfold canonForm.
    destruct (head (post ++ pre)) as [x|]; [destruct (last (post ++ pre)) as [z|]|].
    + destruct (ID z <? ID x)%Z.
      * exists (rev post), (m :: rev pre). split.
        -- right. rewrite rev_app_distr. simpl. rewrite <- app_assoc. reflexivity.
        -- simpl. rewrite rev_app_distr. reflexivity.
      * exists pre, (m :: post). split; [left|]; reflexivity.
    + exists pre, (m :: post). split; [left|]; reflexivity.
    + exists pre, (m :: post). split; [left|]; reflexivity.
  - rewrite canonForm_Permutation.
    rewrite (Permutation_app_comm pre (m :: post)). reflexivity.
Qed.

(** X2 -- the canonical form of a non-empty cycle starts at a node of least
    ID. *)
Theorem canonicalise_starts_at_least_ID c :
  c <> [] ->
  exists m t, canonicalise c = m :: t /\ forall y, y ∈ c -> (ID m <= ID y)%Z.
Proof.
  intros Hc.
  destruct (Nat.lt_ge_cases (length c) 2) as [Hs|Hl].
  { rewrite canonicalise_short by exact Hs.
    destruct c as [|x [|y c]]; [congruence| |simpl in Hs; lia].
    exists x, []. split; [reflexivity|].
    intros y Hy. apply elem_of_cons in Hy as [->|Hy]; [lia|inversion Hy]. }
  destruct (first_min_split c Hc) as (pre & m & post & E & Hpre & Hpost).
  assert (Hne : post ++ pre <> []).
  { intros E0. apply app_eq_nil in E0 as [-> ->]. subst c. simpl in Hl. lia. }
  subst c. rewrite (canonicalise_at pre m post Hne Hpre Hpost).
  assert (Hmin : forall y, y ∈ pre ++ m :: post -> (ID m <= ID y)%Z).
  { intros y Hy. apply elem_of_app in Hy as [Hy|Hy].
    - specialize (Hpre y Hy). lia.
    - apply elem_of_cons in Hy as [->|Hy]; [lia|]. apply Hpost, Hy. }
  unfold canonForm.
  destruct (head (post ++ pre)) as [x|]; [destruct (last (post ++ pre)) as [z|]|];
    [destruct (ID z <? ID x)%Z| |]; eauto.
Qed.


Lemma elem_of_rev (y : N) t : y ∈ rev t <-> y ∈ t.
Proof. rewrite <- (Permutation_rev t). reflexivity. Qed.

(** The canonical form keeps the start and chooses the direction. *)
Lemma canonForm_cases (m : N) t :
  exists t', canonForm m t = m :: t' /\ (t' = t \/ t' = rev t)
    /\ forall x z, head t' = Some x -> last t' = Some z -> (ID x <= ID z)%Z.
Proof.
  unfold canonForm.
  destruct (head t) as [x'|] eqn:Eh.
  2:{ exists t. split; [reflexivity|]. split; [left; reflexivity|]. congruence. }
  destruct (last t) as [z'|] eqn:El.
  2:{ exists t. split; [reflexivity|]. split; [left; reflexivity|]. congruence. }
  destruct (ID z' <? ID x')%Z eqn:Elt.
  - exists (rev t). split; [reflexivity|]. split; [right; reflexivity|].
    intros x z. rewrite head_rev, last_rev. intros Hx Hz.
    apply Z.ltb_lt in Elt.
    assert (x = z') by congruence. assert (z = x') by congruence. subst. lia.
  - exists t. split; [reflexivity|]. split; [left; reflexivity|].
    intros x z Hx Hz. apply Z.ltb_ge in Elt.
    assert (x = x') by congruence. assert (z = z') by congruence. subst. exact Elt.
Qed.

(** X3 -- the direction of the canonical form: the ID of its second node is
    not above the ID of its last node. *)
Theorem canonicalise_direction c m t x z :
  canonicalise c = m :: t -> head t = Some x -> last t = Some z ->
  (ID x <= ID z)%Z.
Proof.
  intros E Hx Hz.
  destruct (Nat.lt_ge_cases (length c) 2) as [Hs|Hl].
  { rewrite canonicalise_short in E by exact Hs. subst c.
    destruct t; [discriminate|simpl in Hs; lia]. }
  destruct (first_min_split c) as (pre & m' & post & Ec & Hpre & Hpost).
  { intros ->. simpl in Hl. lia. }
  assert (Hne : post ++ pre <> []).
  { intros E0. apply app_eq_nil in E0 as [-> ->]. subst c. simpl in Hl. lia. }
  subst c. rewrite (canonicalise_at pre m' post Hne Hpre Hpost) in E.
  destruct (canonForm_cases m' (post ++ pre)) as (t' & E' & _ & Hdir).
  rewrite E' in E. injection E as _ <-. exact (Hdir x z Hx Hz).
Qed.

(** X4 -- canonicalise is idempotent: a canonical cycle is left as it is. *)
Theorem canonicalise_idempotent c :
  canonicalise (canonicalise c) = canonicalise c.
Proof.
  destruct (Nat.lt_ge_cases (length c) 2) as [Hs|Hl].
  { rewrite (canonicalise_short c Hs). apply canonicalise_short, Hs. }
  destruct (first_min_split c) as (pre & m & post & Ec & Hpre & Hpost).
  { intros ->. simpl in Hl. lia. }
  assert (Hne : post ++ pre <> []).
  { intros E0. apply app_eq_nil in E0 as [-> ->]. subst c. simpl in Hl. lia. }
  subst c. rewrite (canonicalise_at pre m post Hne Hpre Hpost).
  destruct (canonForm_cases m (post ++ pre)) as (t' & E' & Ht' & Hdir).
  rewrite E'.
  assert (Hall : forall y, y ∈ t' -> (ID m <= ID y)%Z).
  { intros y Hy.
    assert (Hy' : y ∈ post ++ pre).
    { destruct Ht' as [->| ->]; [exact Hy|].
      apply elem_of_rev. exact Hy. }
    apply elem_of_app in Hy' as [Hy'|Hy'].
    - apply Hpost, Hy'.
    - specialize (Hpre y Hy'). lia. }
  assert (Hne' : t' ++ [] <> []).
  { rewrite app_nil_r. destruct Ht' as [->| ->]; [exact Hne|].
    intros E0. apply Hne. rewrite <- (rev_involutive (post ++ pre)), E0. reflexivity. }
  pose proof (canonicalise_at [] m t' Hne') as Ec. cbn [app] in Ec.
  rewrite Ec; [|intros y Hy; inversion Hy|exact Hall].
  rewrite app_nil_r. unfold canonForm.
  destruct (head t') as [x|] eqn:Eh; [|reflexivity].
  destruct (last t') as [z|] eqn:El; [|reflexivity].
  assert ((ID z <? ID x)%Z = false) as ->; [|reflexivity].
  apply Z.ltb_ge. exact (Hdir x z eq_refl eq_refl).
Qed.

(** X5 -- the canonical form does not depend on the node the cycle starts
    at: for nodes of distinct IDs, a slice and its rotations have the same
    canonical form. *)
Theorem canonicalise_rotation l1 l2 :
  NoDup (ID <$> (l1 ++ l2)) ->
  canonicalise (l2 ++ l1) = canonicalise (l1 ++ l2).
Proof.
  intros Hnd.
  destruct (Nat.lt_ge_cases (length (l1 ++ l2)) 2) as [Hs|Hl].
  { destruct l1 as [|a l1]; [rewrite app_nil_r; reflexivity|].
    destruct l2 as [|b l2]; [rewrite app_nil_r; reflexivity|].
    rewrite length_app in Hs. simpl in Hs. lia. }
  destruct (first_min_split (l1 ++ l2)) as (pre & m & post & Ec & Hpre & Hpost).
  { intros E0. rewrite E0 in Hl. simpl in Hl. lia. }
  assert (Hne : post ++ pre <> []).
  { intros E0. apply app_eq_nil in E0 as [-> ->]. rewrite Ec in Hl. simpl in Hl. lia. }
  assert (Hstrict : forall y, y ∈ post -> (ID m < ID y)%Z).
  { intros y Hy. specialize (Hpost y Hy).
    assert (ID m <> ID y); [|lia].
    rewrite Ec, fmap_app, fmap_cons in Hnd.
    apply NoDup_app in Hnd as (_ & _ & Hnd). apply NoDup_cons in Hnd as [Hm _].
    intros E0. apply Hm. rewrite E0. apply (list_elem_of_fmap_2 ID). exact Hy. }
  rewrite Ec at 1. rewrite (canonicalise_at pre m post Hne Hpre Hpost).
  apply app_eq_app in Ec as (l & [[E1 E2]|[E1 E2]]).
  - (* l1 = pre ++ l, m :: post = l ++ l2 *)
    destruct l as [|m' l].
    + simpl in E2. rewrite app_nil_r in E1. subst l1 l2.
      pose proof (canonicalise_at [] m (post ++ pre)) as E. cbn [app] in E.
      rewrite <- app_assoc in E. rewrite app_nil_r in E. 
      change ((m :: post) ++ pre) with (m :: post ++ pre).
      apply E.
      * exact Hne.
      * intros y Hy. inversion Hy.
      * intros y Hy. apply elem_of_app in Hy as [Hy|Hy]; [apply Hpost, Hy|].
        specialize (Hpre y Hy). lia.
    + injection E2 as <- E2. subst l1 post.
      replace (l2 ++ pre ++ m :: l) with ((l2 ++ pre) ++ m :: l)
        by (rewrite <- app_assoc; reflexivity).
      rewrite canonicalise_at.
      * rewrite <- !app_assoc. reflexivity.
      * rewrite app_assoc. intros E0. apply Hne.
        apply app_eq_nil in E0 as [E0 ->]. rewrite app_nil_r. exact E0.
      * intros y Hy. apply elem_of_app in Hy as [Hy|Hy]; [|apply Hpre, Hy].
        apply Hstrict. apply elem_of_app. right. exact Hy.
      * intros y Hy. apply Hpost. apply elem_of_app. left. exact Hy.
  - (* pre = l1 ++ l, l2 = l ++ m :: post *)
    subst pre l2.
    replace ((l ++ m :: post) ++ l1) with (l ++ m :: (post ++ l1))
      by (rewrite <- app_assoc; reflexivity).
    rewrite canonicalise_at.
    + rewrite <- !app_assoc. reflexivity.
    + rewrite <- app_assoc. exact Hne.
    + intros y Hy. apply Hpre. apply elem_of_app. right. exact Hy.
    + intros y Hy. apply elem_of_app in Hy as [Hy|Hy]; [apply Hpost, Hy|].
      assert (ID m < ID y)%Z; [|lia]. apply Hpre. apply elem_of_app. left. exact Hy.
Qed.

(** X6 -- the canonical form does not depend on the direction the cycle is
    walked in: for nodes of distinct IDs, a slice and its reverse have the
    same canonical form. *)
Theorem canonicalise_reversal c :
  NoDup (ID <$> c) -> canonicalise (rev c) = canonicalise c.
Proof.
  intros Hnd.
  destruct (Nat.lt_ge_cases (length c) 2) as [Hs|Hl].
  { destruct c as [|x [|y c]]; [reflexivity|reflexivity|simpl in Hs; lia]. }
  destruct (first_min_split c) as (pre & m & post & Ec & Hpre & Hpost).
  { intros ->. simpl in Hl. lia. }
  assert (Hne : post ++ pre <> []).
  { intros E0. apply app_eq_nil in E0 as [-> ->]. subst c. simpl in Hl. lia. }
  subst c.
  assert (Hstrict : forall y, y ∈ post -> (ID m < ID y)%Z).
  { intros y Hy. specialize (Hpost y Hy).
    assert (ID m <> ID y); [|lia].
    rewrite fmap_app, fmap_cons in Hnd.
    apply NoDup_app in Hnd as (_ & _ & Hnd). apply NoDup_cons in Hnd as [Hm _].
    intros E0. apply Hm. rewrite E0. apply (list_elem_of_fmap_2 ID). exact Hy. }
  rewrite (canonicalise_at pre m post Hne Hpre Hpost).
  rewrite rev_app_distr. simpl. rewrite <- app_assoc. simpl.
  rewrite canonicalise_at.
  - rewrite <- rev_app_distr. apply canonForm_rev.
    rewrite fmap_app. rewrite fmap_app, fmap_cons in Hnd.
    apply NoDup_app in Hnd as (Hn1 & Hn2 & Hn3).
    apply NoDup_cons in Hn3 as [Hm Hn3].
    apply NoDup_app. split; [exact Hn3|]. split; [|exact Hn1].
    intros y Hy Hy'. apply (Hn2 y Hy'). right. exact Hy.
  - rewrite <- rev_app_distr. intros E0. apply Hne.
    rewrite <- (rev_involutive (post ++ pre)), E0. reflexivity.
  - intros y Hy. apply Hstrict. apply elem_of_rev. exact Hy.
  - intros y Hy. assert (ID m < ID y)%Z; [|lia]. apply Hpre.
    apply elem_of_rev. exact Hy.
Qed.
End CanonicaliseFacts.

Lemma canonicalise_starts_at_least_ID_witness :
  exists m t, canonicalise [3; 1; 2]%Z = m :: t
              /\ forall y, y ∈ [3; 1; 2]%Z -> (ID m <= ID y)%Z.
Proof. apply (canonicalise_starts_at_least_ID [3; 1; 2]%Z). discriminate. Defined.

Lemma canonicalise_direction_witness : (ID 2 <= ID 3)%Z.
Proof.
  apply (canonicalise_direction [2; 1; 3]%Z 1%Z [2; 3]%Z 2%Z 3%Z); reflexivity.
Defined.

Lemma canonicalise_rotation_witness :
  canonicalise ([1; 3] ++ [2])%Z = canonicalise ([2] ++ [1; 3])%Z.
Proof.
  apply (canonicalise_rotation [2]%Z [1; 3]%Z).
  apply (bool_decide_unpack _). vm_compute. exact I.
Defined.

Lemma canonicalise_reversal_witness :
  canonicalise (rev [2; 1; 3; 5]%Z) = canonicalise [2; 1; 3; 5]%Z.
Proof.
  apply (canonicalise_reversal [2; 1; 3; 5]%Z).
  apply (bool_decide_unpack _). vm_compute. exact I.
Defined.

(** The expected cycles of the test, without their closing node, are in
    canonical form. *)
Example canonicalise_expected_cycles :
  Forall (fun c => canonicalise c = c)
    [[0; 1; 2]; [1; 2; 7; 5]; [1; 2; 9]; [1; 4; 8; 5]; [2; 4; 8; 5; 7];
     [1; 2; 4]]%Z.
Proof. repeat constructor. Qed.
(** * More on DiagCDense *)

(** Zero: every entry of the diagonal is set to zero; the struct, the cells
    between the entries of a strided vector and all other storage are left
    as they are.  On an empty receiver nothing happens. *)
Lemma DiagCDense_Zero_fill h d am off l cp :
  let v := DiagCDense.mat (getDiag h d) in
  wfVector h v -> Vector.Inc v <> 0 -> Vector.Data v = Slice am off l cp ->
  exists h',
    DiagCDense_Zero d h = Ok tt h'
    /\ filledTo h h' am (strided off (Vector.Inc v)) (Vector.N v)
         (fun _ => czero) (Vector.N v).
Proof.
  intros v Hwf Hinc Hd.
  unfold DiagCDense_Zero. unfold diagMat at 1. unfold bind at 1, gets at 1.
  fold v.
  apply (fill_range h am (strided off (Vector.Inc v)) (Vector.N v)
           (fun _ => czero) _ 0 (Vector.N v) 0 h).
  - intros k k' _ _. apply strided_inj_pos. exact Hinc.
  - intros k Hk. apply (diag_cells_ok h v am off l cp Hwf Hinc Hd k Hk).
  - lia.
  - intros k h1 Hk Hf. cbn [Nat.add] in *.
    destruct (diag_cells_ok h v am off l cp Hwf Hinc Hd k Hk) as (Hidx & Hs & _).
    unfold diagMat, bind, gets.
    rewrite (filledTo_getDiag _ _ _ _ _ _ _ d Hf). fold v. rewrite Hd.
    rewrite (Nat.mul_comm (Vector.Inc v) k).
    apply writeSlice_ok; [exact Hidx|].
    exact (filledTo_is_Some h h1 am (strided off (Vector.Inc v)) (Vector.N v) _ k k
             Hf Hk Hs).
  - apply filledTo_start.
Qed.

(** X7 -- Zero sets every entry of a well-formed diagonal matrix to zero
    and keeps its dimensions; no cell outside the window of the receiver and
    no cell between the entries of a strided diagonal is written. *)
Theorem DiagCDense_Zero_clears h d :
  let v := DiagCDense.mat (getDiag h d) in
  wfVector h v ->
  exists h',
    DiagCDense_Zero d h = Ok tt h'
    /\ cdiags h' = cdiags h /\ cdenses h' = cdenses h
    /\ (forall i j, i < Vector.N v -> j < Vector.N v ->
          atOf h' (PDiag d) i j = inr czero)
    /\ (forall x i, ~ inWin (Vector.Data v) x i -> cellAt h' x i = cellAt h x i)
    /\ (forall i, (forall k, k < Vector.N v -> i <> k * Vector.Inc v) ->
          sliceGet h' (Vector.Data v) i = sliceGet h (Vector.Data v) i).
Proof.
  intros v Hwf.
  destruct (Nat.eq_dec (Vector.N v) 0) as [HN|HN].
  { exists h. unfold DiagCDense_Zero, diagMat, bind, gets. fold v. rewrite HN.
    split; [reflexivity|]. split; [reflexivity|]. split; [reflexivity|].
    split; [intros i j Hi; lia|]. split; reflexivity. }
  destruct (wfVector_Slice h v Hwf HN) as (am & off & l & cp & Hd).
  assert (Hinc : Vector.Inc v <> 0) by (destruct Hwf as (_ & Hp); specialize (Hp ltac:(lia)); lia).
  destruct (DiagCDense_Zero_fill h d am off l cp Hwf Hinc Hd) as (h' & E & Hf).
  fold v in Hf.
  exists h'. split; [exact E|].
  pose proof Hf as (Hcd & Hcg & _ & Hout & _ & _).
  split; [exact Hcg|]. split; [exact Hcd|].
  split.
  { intros i j Hi Hj. simpl.
    rewrite (filledTo_getDiag _ _ _ _ _ _ _ d Hf). fold v.
    rewrite (diag_read_back h v am off l cp Hwf Hinc Hd h' _ i j Hf Hi Hj).
    destruct (i =? j); reflexivity. }
  split.
  - intros x i Hw. apply Hout. intros k Hk E0. apply Hw.
    injection E0 as -> ->.
    apply (diag_cells_ok h v am off l cp Hwf Hinc Hd k Hk).
  - intros i Hi. rewrite Hd, !sliceGet_Slice.
    destruct (i <? l); [|reflexivity].
    apply Hout. intros k Hk E0. injection E0 as E0.
    unfold strided in E0. apply (Hi k Hk). lia.
Qed.

(** The kernel copy and setDiag never panic with ErrShape. *)
Lemma neverShape_kernelCopy x y : neverShape (Copy x y).
Proof.
  unfold Copy. apply neverShape_forRange. intros i.
  apply neverShape_bind; [apply neverShape_readSlice|].
  intros v. apply neverShape_writeSlice.
Qed.

Lemma neverShape_setDiag d i x : neverShape (DiagCDense_setDiag d i x).
Proof.
  unfold DiagCDense_setDiag, diagMat. apply neverShape_bind; [apply neverShape_gets|].
  intros v. destruct (_ <=? _); [apply neverShape_panic; discriminate|].
  apply neverShape_writeSlice.
Qed.

Lemma DiagCDense_reuseAsNonZeroed_shape d r h h' :
  DiagCDense_reuseAsNonZeroed d r h = Panic ErrShape h'
  <-> h' = h /\ r <> 0
      /\ Vector.Inc (DiagCDense.mat (getDiag h d)) <> 0
      /\ Vector.N (DiagCDense.mat (getDiag h d)) <> r.
Proof.
  unfold DiagCDense_reuseAsNonZeroed.
  destruct (r =? 0) eqn:Hr.
  { apply Nat.eqb_eq in Hr. split; [discriminate|]. intros (_ & H & _). contradiction. }
  apply Nat.eqb_neq in Hr.
  unfold DiagCDense_IsEmpty, diagMat, bind, gets, ret.
  destruct (Vector.Inc (DiagCDense.mat (getDiag h d)) =? 0) eqn:Hi.
  { apply Nat.eqb_eq in Hi. split.
    - unfold useC. destruct (_ <=? _); discriminate.
    - intros (_ & _ & H & _). contradiction. }
  apply Nat.eqb_neq in Hi.
  destruct (r =? Vector.N (DiagCDense.mat (getDiag h d))) eqn:HN; cbn [negb].
  - apply Nat.eqb_eq in HN. split; [discriminate|]. intros (_ & _ & _ & H). congruence.
  - apply Nat.eqb_neq in HN. split.
    + intros E. injection E as <-. repeat split; auto.
    + intros [-> _]. reflexivity.
Qed.

Lemma DiagFrom_unfold d m h :
  DiagCDense_DiagFrom d m h
  = bind (DiagCDense_reuseAsNonZeroed d ((DimsOf h m).1 `min` (DimsOf h m).2))
      (fun _ =>
         match m with
         | PDiag r =>
             bind (diagMat r) (fun vec => bind (diagMat d) (fun dv => Copy vec dv))
         | _ =>
             forRange ((DimsOf h m).1 `min` (DimsOf h m).2) 0
               (fun i => bind (At m i i) (fun x => DiagCDense_setDiag d i x))
         end) h.
Proof.
  unfold DiagCDense_DiagFrom, Dims. unfold bind at 1, gets at 1.
  destruct (DimsOf h m) as [mr mc]. reflexivity.
Qed.

(** X8 -- DiagFrom refuses a source with a zero dimension (ErrZeroLength)
    and, with ErrShape, exactly a receiver that is not empty and whose size
    is not min(r, c); in both cases nothing has been written. *)
Theorem DiagFrom_rejects h d m :
  let n := (DimsOf h m).1 `min` (DimsOf h m).2 in
  let v := DiagCDense.mat (getDiag h d) in
  (n = 0 -> DiagCDense_DiagFrom d m h = Panic ErrZeroLength h)
  /\ (forall h', DiagCDense_DiagFrom d m h = Panic ErrShape h'
        <-> h' = h /\ n <> 0 /\ Vector.Inc v <> 0 /\ Vector.N v <> n).
Proof.
  intros n v. rewrite DiagFrom_unfold. fold n. subst v.
  split.
  - intros Hn. unfold bind, DiagCDense_reuseAsNonZeroed. rewrite Hn. reflexivity.
  - intros h'. unfold bind at 1.
    destruct (DiagCDense_reuseAsNonZeroed d n h) as [[] h1|e h1] eqn:Er.
    + split.
      * intros E. exfalso. revert E.
        match goal with
        | |- ?rest h1 = _ -> _ => assert (Hn : neverShape rest)
        end.
        { destruct m;
            repeat first
              [ apply neverShape_kernelCopy
              | apply neverShape_setDiag
              | apply neverShape_At
              | apply neverShape_gets
              | apply neverShape_forRange; intros
              | apply neverShape_bind; [|intros] ]. }
        intros E. exact (Hn _ _ _ E eq_refl).
      * intros (_ & H).
        assert (E : DiagCDense_reuseAsNonZeroed d n h = Panic ErrShape h)
          by (apply DiagCDense_reuseAsNonZeroed_shape; auto).
        congruence.
    + split.
      * intros E. injection E as -> ->.
        apply DiagCDense_reuseAsNonZeroed_shape in Er. exact Er.
      * intros (-> & H).
        assert (E : DiagCDense_reuseAsNonZeroed d n h = Panic ErrShape h)
          by (apply DiagCDense_reuseAsNonZeroed_shape; auto).
        congruence.
Qed.
Lemma getDiag_put h d x G :
  d < length G ->
  getDiag (mkHeap (arrays h) (cdenses h) (<[d := x]> G)) d = x.
Proof.
  intros Hd. unfold getDiag. cbn [cdiags].
  rewrite list_lookup_insert_eq by exact Hd. reflexivity.
Qed.

Lemma heap_eta h : mkHeap (arrays h) (cdenses h) (cdiags h) = h.
Proof. destruct h. reflexivity. Qed.

Lemma getDiag_lookup h d :
  d < length (cdiags h) -> cdiags h !! d = Some (getDiag h d).
Proof.
  intros Hd. unfold getDiag. destruct (lookup_lt_is_Some_2 _ _ Hd) as [x ->].
  reflexivity.
Qed.

(** X9 -- Reset keeps the buffer of the receiver, and reuseAsNonZeroed
    takes it up again without clearing it: after Reset, a resize to any
    size within the capacity allocates nothing and exposes the entries the
    buffer holds; resizing a matrix of increment 1 back to its own size
    restores the store exactly. *)
Theorem Reset_keeps_storage h d a off l cp N inc r :
  d < length (cdiags h) ->
  getDiag h d = DiagCDense.mk (Vector.mk N (Slice a off l cp) inc) ->
  r <> 0 -> r <= cp ->
  exists h',
    (DiagCDense_Reset d ;; DiagCDense_reuseAsNonZeroed d r) h = Ok tt h'
    /\ arrays h' = arrays h /\ cdenses h' = cdenses h
    /\ getDiag h' d = DiagCDense.mk (Vector.mk r (Slice a off r cp) 1)
    /\ (forall p, p <> d -> getDiag h' p = getDiag h p)
    /\ (N = r -> l = r -> inc = 1 -> h' = h).
Proof.
  intros Hd Hg Hr Hcap.
  unfold DiagCDense_Reset, DiagCDense_reuseAsNonZeroed, DiagCDense_IsEmpty.
  unfold bind, diagMat, setDiagMat, gets, modify, sliceExpr, useC, ret.
  cbn [arrays cdenses cdiags].
  rewrite Hg. cbn [DiagCDense.mat Vector.N Vector.Data Vector.Inc].
  assert (Hr' : (r =? 0) = false) by (apply Nat.eqb_neq; exact Hr).
  assert (Hc' : (r <=? cp) = true) by (apply Nat.leb_le; exact Hcap).
  repeat (rewrite ?getDiag_put by (rewrite ?length_insert; exact Hd);
          rewrite ?list_insert_insert_eq, ?Nat.add_0_r, ?Nat.sub_0_r, ?Hr', ?Hc';
          cbv beta iota;
          cbn [DiagCDense.mat Vector.N Vector.Data Vector.Inc cap reslice
               arrays cdenses cdiags andb Nat.leb Nat.eqb negb]).
  eexists. split; [reflexivity|].
  split; [reflexivity|]. split; [reflexivity|].
  split; [apply getDiag_put; exact Hd|].
  split.
  - intros p Hp. unfold getDiag. cbn [cdiags].
    rewrite list_lookup_insert_ne by congruence. reflexivity.
  - intros -> -> ->. rewrite <- Hg.
    rewrite list_insert_id by (apply getDiag_lookup; exact Hd).
    apply heap_eta.
Qed.

(** Writing to a cell the value it holds leaves the store as it is. *)
Lemma storeAt_same h a i v : cellAt h a i = Some v -> storeAt a i v h = h.
Proof.
  unfold cellAt, storeAt. intros Hc.
  destruct (arrays h !! a) as [L|] eqn:EL; [|discriminate]. simpl in Hc.
  rewrite <- (heap_eta h) at 4. f_equal.
  rewrite (list_alter_ext _ (fun x => x) (arrays h) (arrays h) a); [|
    intros x Hx; rewrite EL in Hx; injection Hx as <-; apply list_insert_id, Hc
    | reflexivity ].
  apply list_alter_id. reflexivity.
Qed.

(** Copying a well-formed vector onto itself changes nothing. *)
Lemma Copy_self h v : wfVector h v -> Copy v v h = Ok tt h.
Proof.
  intros Hwf. unfold Copy.
  destruct (forRange_inv (fun _ h1 => h1 = h)
              (fun i => bind (readSlice (Vector.Data v) (i * Vector.Inc v))
                          (fun x => writeSlice (Vector.Data v) (i * Vector.Inc v) x))
              (Vector.N v) 0 h) as (h' & E & ->); [|reflexivity|exact E].
  intros k h1 Hk ->. cbn [Nat.add].
  destruct (wfVector_cell h v k Hwf Hk) as (Hidx & x & Hx).
  exists h. split; [|reflexivity].
  rewrite (bind_Ok _ _ _ _ _ (readSlice_ok _ _ _ _ Hx)).
  destruct (Vector.Data v) as [|a off l cp]; [discriminate|].
  rewrite sliceGet_Slice in Hx. simpl in Hidx.
  apply Nat.ltb_lt in Hidx as Hb. rewrite Hb in Hx.
  rewrite writeSlice_ok; [|exact Hidx|rewrite Hx; eauto].
  rewrite storeAt_same by exact Hx. reflexivity.
Qed.

(** X10 -- copying the diagonal of a matrix into itself, d.DiagFrom(d) (or
    d.DiagFrom(d.T()), T returning the receiver), returns and leaves the
    store exactly as it was. *)
Theorem DiagFrom_self h d :
  let v := DiagCDense.mat (getDiag h d) in
  wfVector h v -> Vector.N v <> 0 ->
  DiagCDense_DiagFrom d (DiagCDense_T d) h = Ok tt h.
Proof.
  intros v Hwf HN. unfold DiagCDense_T. rewrite DiagFrom_unfold.
  cbn [DimsOf fst snd]. fold v. rewrite Nat.min_id.
  assert (Hinc : Vector.Inc v <> 0)
    by (destruct Hwf as (_ & Hp); specialize (Hp ltac:(lia)); lia).
  assert (Er : DiagCDense_reuseAsNonZeroed d (Vector.N v) h = Ok tt h).
  { unfold DiagCDense_reuseAsNonZeroed, DiagCDense_IsEmpty, diagMat, bind, gets, ret.
    assert ((Vector.N v =? 0) = false) as -> by (apply Nat.eqb_neq; exact HN).
    cbv beta. fold v.
    assert ((Vector.Inc v =? 0) = false) as -> by (apply Nat.eqb_neq; exact Hinc).
    cbv beta iota. fold v.
    rewrite Nat.eqb_refl. reflexivity. }
  rewrite (bind_Ok _ _ _ _ _ Er).
  unfold diagMat, bind, gets. fold v. apply Copy_self. exact Hwf.
Qed.

(** X11 -- NewDiagCDense does not copy its data: the new matrix reads the
    entries of the slice it was given, no storage is allocated, and Zero on
    the matrix overwrites the caller's slice. *)
Theorem NewDiagCDense_shares_data h n a off cp :
  let data := Slice a off n cp in
  n <> 0 -> validSlice h data ->
  exists d h1 h2,
    NewDiagCDense (Z.of_nat n) data h = Ok d h1
    /\ d = length (cdiags h)
    /\ arrays h1 = arrays h
    /\ DimsOf h1 (PDiag d) = (n, n)
    /\ (forall i x, i < n -> sliceGet h data i = Some x ->
          atOf h1 (PDiag d) i i = inr x)
    /\ DiagCDense_Zero d h1 = Ok tt h2
    /\ (forall i, i < n -> sliceGet h2 data i = Some czero).
Proof.
  intros data Hn Hv.
  set (v := Vector.mk n data 1).
  set (h1 := mkHeap (arrays h) (cdenses h) (cdiags h ++ [DiagCDense.mk v])).
  assert (E1 : NewDiagCDense (Z.of_nat n) data h = Ok (length (cdiags h)) h1).
  { unfold NewDiagCDense.
    assert ((Z.of_nat n <=? 0)%Z = false) as -> by (apply Z.leb_gt; lia).
    cbn [isNil data]. unfold bind at 1, ret at 1. cbn [len].
    rewrite Z.eqb_refl. cbn [negb]. rewrite Nat2Z.id. reflexivity. }
  assert (Hg : getDiag h1 (length (cdiags h)) = DiagCDense.mk v).
  { unfold getDiag, h1. cbn [cdiags]. rewrite lookup_app_r by lia.
    rewrite Nat.sub_diag. reflexivity. }
  assert (Hwf : wfVector h1 (DiagCDense.mat (getDiag h1 (length (cdiags h))))).
  { rewrite Hg. cbn [DiagCDense.mat]. split; [exact Hv|].
    intros _. cbn [Vector.N Vector.Inc Vector.Data v data len]. lia. }
  destruct (DiagCDense_Zero_fill h1 (length (cdiags h)) a off n cp) as (h2 & E2 & Hf).
  { exact Hwf. }
  { rewrite Hg. discriminate. }
  { rewrite Hg. reflexivity. }
  rewrite Hg in Hf. cbn [DiagCDense.mat Vector.N Vector.Inc v] in Hf.
  exists (length (cdiags h)), h1, h2.
  split; [exact E1|]. split; [reflexivity|]. split; [reflexivity|].
  split; [simpl; rewrite Hg; reflexivity|].
  split.
  - intros i x Hi Hx. simpl. rewrite Hg. cbn [DiagCDense.mat].
    unfold diagAtOf. cbn [Vector.N Vector.Inc Vector.Data v].
    apply Nat.leb_gt in Hi as Hi'. rewrite Hi'. rewrite Nat.eqb_refl. cbn [negb].
    rewrite Nat.mul_1_r.
    change (sliceGet h1 data i) with (sliceGet h data i). rewrite Hx. reflexivity.
  - split; [exact E2|].
    intros i Hi. unfold data. rewrite sliceGet_Slice.
    apply Nat.ltb_lt in Hi as Hb. rewrite Hb.
    destruct Hf as (_ & _ & _ & _ & _ & Hdone). specialize (Hdone i Hi).
    unfold strided in Hdone. rewrite Nat.mul_1_r in Hdone. exact Hdone.
Qed.

Lemma heapDiag2_wf : wfVector heapDiag2 (DiagCDense.mat (getDiag heapDiag2 0)).
Proof.
  split.
  - split; [vm_compute; lia|]. intros i Hi.
    do 2 (destruct i as [|i]; [vm_compute; eauto|]). vm_compute in Hi. lia.
  - intros _. vm_compute. lia.
Qed.

Lemma DiagCDense_Zero_clears_witness :
  exists h',
    DiagCDense_Zero 0 heapDiag2 = Ok tt h'
    /\ cdiags h' = cdiags heapDiag2 /\ cdenses h' = cdenses heapDiag2
    /\ (forall i j, i < Vector.N (DiagCDense.mat (getDiag heapDiag2 0)) ->
                    j < Vector.N (DiagCDense.mat (getDiag heapDiag2 0)) ->
          atOf h' (PDiag 0) i j = inr czero)
    /\ (forall x i, ~ inWin (Vector.Data (DiagCDense.mat (getDiag heapDiag2 0))) x i ->
          cellAt h' x i = cellAt heapDiag2 x i)
    /\ (forall i, (forall k, k < Vector.N (DiagCDense.mat (getDiag heapDiag2 0)) ->
                     i <> k * Vector.Inc (DiagCDense.mat (getDiag heapDiag2 0))) ->
          sliceGet h' (Vector.Data (DiagCDense.mat (getDiag heapDiag2 0))) i
          = sliceGet heapDiag2 (Vector.Data (DiagCDense.mat (getDiag heapDiag2 0))) i).
Proof. apply (DiagCDense_Zero_clears heapDiag2 0). exact heapDiag2_wf. Defined.

Lemma Reset_keeps_storage_witness :
  exists h',
    (DiagCDense_Reset 0 ;; DiagCDense_reuseAsNonZeroed 0 2) heapDiag2 = Ok tt h'
    /\ arrays h' = arrays heapDiag2 /\ cdenses h' = cdenses heapDiag2
    /\ getDiag h' 0 = DiagCDense.mk (Vector.mk 2 (Slice 0 0 2 2) 1)
    /\ (forall p, p <> 0 -> getDiag h' p = getDiag heapDiag2 p)
    /\ (2 = 2 -> 2 = 2 -> 1 = 1 -> h' = heapDiag2).
Proof.
  apply (Reset_keeps_storage heapDiag2 0 0 0 2 2 2 1 2).
  - vm_compute. lia.
  - reflexivity.
  - lia.
  - lia.
Defined.

Lemma DiagFrom_self_witness :
  DiagCDense_DiagFrom 0 (DiagCDense_T 0) heapDiag2 = Ok tt heapDiag2.
Proof.
  apply (DiagFrom_self heapDiag2 0).
  - exact heapDiag2_wf.
  - vm_compute. lia.
Defined.

Lemma NewDiagCDense_shares_data_witness :
  exists d h1 h2,
    NewDiagCDense (Z.of_nat 2) (Slice 0 0 2 2) heapData2 = Ok d h1
    /\ d = length (cdiags heapData2)
    /\ arrays h1 = arrays heapData2
    /\ DimsOf h1 (PDiag d) = (2, 2)
    /\ (forall i x, i < 2 -> sliceGet heapData2 (Slice 0 0 2 2) i = Some x ->
          atOf h1 (PDiag d) i i = inr x)
    /\ DiagCDense_Zero d h1 = Ok tt h2
    /\ (forall i, i < 2 -> sliceGet h2 (Slice 0 0 2 2) i = Some czero).
Proof.
  apply (NewDiagCDense_shares_data heapData2 2 0 0 2).
  - lia.
  - split; [lia|]. intros i Hi.
    do 2 (destruct i as [|i]; [vm_compute; eauto|]). lia.
Defined.
(** * More on the arithmetic of CDense *)

(** X12 -- Sub into a receiver that is empty or of the operands' shape and
    shares no storage with them: the receiver gets the operands' dimensions
    and the entrywise differences, whatever the operands are (dense,
    diagonal, views), and the operands read as before. *)
Theorem Sub_entrywise h m a b R C :
  DimsOf h a = (R, C) -> DimsOf h b = (R, C) -> R <> 0 -> C <> 0 ->
  wfM h a -> wfM h b -> destOK h m R C ->
  indep h m (General.Data (CDense.mat (getDense h m))) a ->
  indep h m (General.Data (CDense.mat (getDense h m))) b ->
  exists h',
    CDense_Sub m a b h = Ok tt h'
    /\ DimsOf h' (PDense m) = (R, C)
    /\ (forall r c, r < R -> c < C ->
          atOf h' (PDense m) r c = inr (csub (valOf h a r c) (valOf h b r c)))
    /\ (forall i j, atOf h' a i j = atOf h a i j)
    /\ (forall i j, atOf h' b i j = atOf h b i j).
Proof.
  intros Da Db HR HC Hwa Hwb Hdest Hia Hib.
  destruct (elementwise_spec csub h m a b R C Da Db HR HC Hwa Hwb Hdest Hia Hib)
    as (h' & E & Hd & Hv & Ha & Hb & _).
  exists h'. unfold CDense_Sub. auto.
Qed.

(** X13 -- Add of two transposed views is the transpose of Add: the generic
    path through At and set taken for a.T() and b.T() gives, at (j, i), the
    entry that the loop over the rows of the plain dense operands gives at
    (i, j). *)
Theorem Add_transposed_operands h c1 c2 pa pb R C :
  DimsOf h (PDense pa) = (R, C) -> DimsOf h (PDense pb) = (R, C) ->
  R <> 0 -> C <> 0 ->
  wfM h (PDense pa) -> wfM h (PDense pb) ->
  destOK h c1 C R -> destOK h c2 R C ->
  indep h c1 (General.Data (CDense.mat (getDense h c1))) (PDense pa) ->
  indep h c1 (General.Data (CDense.mat (getDense h c1))) (PDense pb) ->
  indep h c2 (General.Data (CDense.mat (getDense h c2))) (PDense pa) ->
  indep h c2 (General.Data (CDense.mat (getDense h c2))) (PDense pb) ->
  exists h1 h2,
    CDense_Add c1 (CDense_T pa) (CDense_T pb) h = Ok tt h1
    /\ CDense_Add c2 (PDense pa) (PDense pb) h = Ok tt h2
    /\ DimsOf h1 (PDense c1) = (C, R) /\ DimsOf h2 (PDense c2) = (R, C)
    /\ (forall i j, i < R -> j < C ->
          exists v, atOf h1 (PDense c1) j i = inr v
                    /\ atOf h2 (PDense c2) i j = inr v).
Proof.
  intros Da Db HR HC Hwa Hwb Hd1 Hd2 Hi1a Hi1b Hi2a Hi2b.
  destruct (elementwise_spec cadd h c1 (CDense_T pa) (CDense_T pb) C R)
    as (h1 & E1 & D1 & V1 & _); try assumption.
  { simpl. simpl in Da. injection Da as -> ->. reflexivity. }
  { simpl. simpl in Db. injection Db as -> ->. reflexivity. }
  destruct (elementwise_spec cadd h c2 (PDense pa) (PDense pb) R C)
    as (h2 & E2 & D2 & V2 & _); try assumption.
  exists h1, h2. split; [exact E1|]. split; [exact E2|].
  split; [exact D1|]. split; [exact D2|].
  intros i j Hi Hj. eexists. split; [apply V1; assumption|].
  rewrite (V2 i j Hi Hj). reflexivity.
Qed.

(** No operation yields a matrix with a zero dimension: when the
    result would have no rows or no columns (the operands agreeing in shape),
    Add, Sub, Mul and Scale panic with ErrZeroLength before anything is
    written. *)
Lemma zero_sized_result_is_refused h m a b f :
  (DimsOf h a = DimsOf h b -> (DimsOf h a).1 = 0 \/ (DimsOf h a).2 = 0 ->
     CDense_Add m a b h = Panic ErrZeroLength h
     /\ CDense_Sub m a b h = Panic ErrZeroLength h)
  /\ ((DimsOf h a).2 = (DimsOf h b).1 ->
      (DimsOf h a).1 = 0 \/ (DimsOf h b).2 = 0 ->
      CDense_Mul m a b h = Panic ErrZeroLength h)
  /\ ((DimsOf h a).1 = 0 \/ (DimsOf h a).2 = 0 ->
      CDense_Scale m f a h = Panic ErrZeroLength h).
Proof.
  assert (Hz : forall r c, r = 0 \/ c = 0 ->
                 CDense_reuseAsNonZeroed m r c h = Panic ErrZeroLength h).
  { intros r c Hrc. unfold CDense_reuseAsNonZeroed.
    assert ((r =? 0) || (c =? 0) = true) as ->; [|reflexivity].
    destruct Hrc as [-> | ->]; [reflexivity|]. rewrite Nat.eqb_refl. apply orb_true_r. }
  split; [|split].
  - intros Hd H0.
    assert (He : forall op, elementwise op m a b h = Panic ErrZeroLength h);
      [|split; apply He].
    intros op. unfold elementwise, Dims. unfold bind at 1, gets at 1.
    destruct (DimsOf h a) as [ar ac]. cbn [fst snd] in H0.
    unfold bind at 1, gets at 1. rewrite <- Hd.
    rewrite !Nat.eqb_refl. cbn [negb orb].
    destruct (untransposeExtractCmplx a) as [[aU aTrans] aConj].
    destruct (untransposeExtractCmplx b) as [[bU bTrans] bConj].
    apply bind_Panic. apply Hz. exact H0.
  - intros Hd H0. unfold CDense_Mul, Dims. unfold bind at 1, gets at 1.
    destruct (DimsOf h a) as [ar ac]. unfold bind at 1, gets at 1.
    destruct (DimsOf h b) as [br bc].
    cbn [fst snd] in Hd, H0. subst br. rewrite Nat.eqb_refl. cbn [negb].
    destruct (untransposeExtractCmplx a) as [[aU aTrans] aConj].
    destruct (untransposeExtractCmplx b) as [[bU bTrans] bConj].
    apply bind_Panic. apply Hz. exact H0.
  - intros H0. unfold CDense_Scale, Dims. unfold bind at 1, gets at 1.
    destruct (DimsOf h a) as [ar ac]. cbn [fst snd] in H0.
    apply bind_Panic. apply Hz. exact H0.
Qed.

Lemma Sub_entrywise_witness :
  exists h',
    CDense_Sub 2 (PDense 0) (PDense 1) heapABC = Ok tt h'
    /\ DimsOf h' (PDense 2) = (2, 2)
    /\ (forall r c, r < 2 -> c < 2 ->
          atOf h' (PDense 2) r c
          = inr (csub (valOf heapABC (PDense 0) r c) (valOf heapABC (PDense 1) r c)))
    /\ (forall i j, atOf h' (PDense 0) i j = atOf heapABC (PDense 0) i j)
    /\ (forall i j, atOf h' (PDense 1) i j = atOf heapABC (PDense 1) i j).
Proof.
  apply (Sub_entrywise heapABC 2 (PDense 0) (PDense 1) 2 2).
  - reflexivity.
  - reflexivity.
  - lia.
  - lia.
  - split; [|vm_compute; lia]. split; [lia|]. intros i Hi. apply heapABC_cells. exact Hi.
  - split; [|vm_compute; lia]. split; [lia|]. intros i Hi. apply heapABC_cells. exact Hi.
  - split; [vm_compute; lia|]. split; [exact I|]. left. reflexivity.
  - split; [lia|]. intros x i Hw _. exact Hw.
  - split; [lia|]. intros x i Hw _. exact Hw.
Defined.

Lemma Add_transposed_operands_witness :
  exists h1 h2,
    CDense_Add 2 (CDense_T 0) (CDense_T 1) heapABC = Ok tt h1
    /\ CDense_Add 2 (PDense 0) (PDense 1) heapABC = Ok tt h2
    /\ DimsOf h1 (PDense 2) = (2, 2) /\ DimsOf h2 (PDense 2) = (2, 2)
    /\ (forall i j, i < 2 -> j < 2 ->
          exists v, atOf h1 (PDense 2) j i = inr v
                    /\ atOf h2 (PDense 2) i j = inr v).
Proof.
  apply (Add_transposed_operands heapABC 2 2 0 1 2 2).
  - reflexivity.
  - reflexivity.
  - lia.
  - lia.
  - split; [|vm_compute; lia]. split; [lia|]. intros i Hi. apply heapABC_cells. exact Hi.
  - split; [|vm_compute; lia]. split; [lia|]. intros i Hi. apply heapABC_cells. exact Hi.
  - split; [vm_compute; lia|]. split; [exact I|]. left. reflexivity.
  - split; [vm_compute; lia|]. split; [exact I|]. left. reflexivity.
  - split; [lia|]. intros x i Hw _. exact Hw.
  - split; [lia|]. intros x i Hw _. exact Hw.
  - split; [lia|]. intros x i Hw _. exact Hw.
  - split; [lia|]. intros x i Hw _. exact Hw.
Defined.
(** ** Add and Sub in place *)

Section TargetInPlace.
(** A well-formed dense destination [m] with struct [g] in the store [h1];
    the operands may share its storage: an entry is read when its turn
    comes, before it is written. *)
Variables (h1 : Heap) (m : ptr) (g : General.t) (am off l cp : nat).
Hypothesis Hg : getDense h1 m = CDense.mk g.
Hypothesis Hwf : wfGeneral h1 g.
Hypothesis Hd : General.Data g = Slice am off l cp.

Let R := General.Rows g.
Let C := General.Cols g.
Let St := General.Stride g.
Let pos := rowMajor off St C.

Lemma denseRows_fill_at op ga gb fa fb :
  let val k := op (fa (k / C) (k mod C)) (fb (k / C) (k mod C)) in
  C <> 0 -> General.Stride ga <> 0 ->
  (R - 1) * General.Stride ga + C <= len (General.Data ga) ->
  len (General.Data ga) <= cap (General.Data ga) ->
  (forall h r c, filledTo h1 h am pos (R * C) val (r * C + c) -> r < R -> c < C ->
     sliceGet h (General.Data ga) (r * General.Stride ga + c) = Some (fa r c)
     /\ sliceGet h (General.Data gb) (c + r * General.Stride gb) = Some (fb r c)) ->
  exists h2, denseRows op m R C ga gb h1 = Ok tt h2
             /\ filledTo h1 h2 am pos (R * C) val (R * C).
Proof.
  intros val HC HSa Hlen Hcap Hread. unfold denseRows.
  set (Sa := General.Stride ga) in *. set (Sb := General.Stride gb) in *.
  pose (I := fun (r : nat) (s : nat * nat * nat) (h : Heap) =>
               let '(ja, jb, jm) := s in
               ja = r * Sa /\ jb = r * Sb /\ jm = r * St
               /\ filledTo h1 h am pos (R * C) val (r * C)).
  match goal with
  | |- exists h2, forLoop _ ?cond ?post ?body _ _ = _ /\ _ =>
      destruct (forLoop_inv I cond post body R) with (extra := 0)
        (s := (0, 0, 0)) (h := h1) as (s' & h2 & E & Hi)
  end.
  - intros r [[ja jb] jm] h Hr (-> & -> & -> & Hf). split.
    { apply Nat.ltb_lt. fold Sa. nia. }
    assert (Hrow : r * Sa + C <= cap (General.Data ga)).
    { assert (r * Sa <= (R - 1) * Sa) by (apply Nat.mul_le_mono_r; lia). lia. }
    destruct (fill_range h1 am pos (R * C) val
                (fun i => bind (readSlice (reslice (General.Data ga) (r * Sa) (r * Sa + C)) i)
                   (fun v => bind (readSlice (General.Data gb) (i + r * Sb))
                      (fun w => bind (denseMat m) (fun g' =>
                         writeSlice (General.Data g') (i + r * St) (op v w)))))
                (r * C) C 0 h) as (h3 & E3 & Hf3).
    + apply (target_inj h1 g off Hwf).
    + apply (target_some h1 g am off l cp Hwf Hd).
    + nia.
    + intros c h' Hc Hf'. cbn [Nat.add].
      destruct (Hread h' r c Hf' Hr Hc) as [Ea Eb].
      assert (Hrd : sliceGet h' (reslice (General.Data ga) (r * Sa) (r * Sa + C)) c
                    = Some (fa r c)).
      { rewrite sliceGet_reslice; [exact Ea|lia|].
        assert (r * Sa <= (R - 1) * Sa) by (apply Nat.mul_le_mono_r; lia). lia. }
      rewrite (bind_Ok _ _ _ _ _ (readSlice_ok _ _ _ _ Hrd)).
      rewrite (bind_Ok _ _ _ _ _ (readSlice_ok _ _ _ _ Eb)).
      assert (Hk : r * C + c < R * C) by nia.
      destruct (dense_cells_ok h1 g am off l cp _ Hwf Hd Hk) as (Hidx & Hs & _).
      fold C St in Hidx, Hs. fold pos in Hs.
      destruct (divmod_rc r c C Hc) as [Ediv Emod].
      rewrite Ediv, Emod in Hidx.
      unfold val. rewrite Ediv, Emod.
      unfold pos at 1. rewrite rowMajor_rc by assumption.
      replace (off + r * St + c) with (off + (c + r * St)) by lia.
      apply (dense_write_store h' m g am off l cp); try assumption.
      * rewrite (filledTo_getDense _ _ _ _ _ _ _ m Hf'). exact Hg.
      * lia.
      * replace (off + (c + r * St)) with (off + r * St + c) by lia.
        rewrite <- (rowMajor_rc off St C r c Hc).
        eapply filledTo_is_Some; [exact Hf'|exact Hk|exact Hs].
    + exact Hf.
    + exists h3. split.
      { rewrite (bind_Ok _ _ _ _ _ (sliceExpr_row g h _ _ Hrow)).
        unfold rangeSlice.
        assert (El : len (reslice (General.Data ga) (r * Sa) (r * Sa + C)) = C).
        { destruct (General.Data ga); simpl in *; lia. }
        fold C. rewrite El. exact E3. }
      exists (Datatypes.S r * Sa, Datatypes.S r * Sb, Datatypes.S r * St), h3. split.
      { unfold bind, denseMat, gets, ret.
        rewrite (filledTo_getDense _ _ _ _ _ _ _ m Hf3), Hg. cbn [CDense.mat].
        fold St. f_equal. f_equal; [f_equal|]; lia. }
      unfold I. split; [reflexivity|]. split; [reflexivity|]. split; [reflexivity|].
      replace (Datatypes.S r * C) with (r * C + C) by lia. exact Hf3.
  - intros [[ja jb] jm] h (-> & _). apply Nat.ltb_ge. fold Sa. lia.
  - unfold I. split; [lia|]. split; [lia|]. split; [lia|]. apply filledTo_start.
  - destruct s' as [[ja jb] jm]. destruct Hi as (_ & _ & _ & Hf).
    exists h2. rewrite Nat.add_0_r in E. split; assumption.
Qed.
End TargetInPlace.

(** The operand [p] of an operation on the plain dense receiver [m]: the
    receiver itself, or a well-formed matrix of the same shape that shares no
    storage with it.  What the row loop reads from it at (r, c), when the
    entries before (r, c) have been written, is its entry in the store the
    operation started from. *)
Lemma operand_read_in_place h m p R C am off l cp val h' r c :
  let g := CDense.mat (getDense h m) in
  wfGeneral h g -> General.Rows g = R -> General.Cols g = C ->
  General.Data g = Slice am off l cp ->
  (p = m \/ (DimsOf h (PDense p) = (R, C) /\ wfM h (PDense p)
             /\ indep h m (General.Data g) (PDense p))) ->
  filledTo h h' am (rowMajor off (General.Stride g) C) (R * C) val (r * C + c) ->
  r < R -> c < C ->
  sliceGet h' (General.Data (CDense.mat (getDense h p)))
    (r * General.Stride (CDense.mat (getDense h p)) + c)
  = Some (valOf h (PDense p) r c).
Proof.
  intros g Hwf HR HC Hd Hp Hf Hr Hc.
  assert (Hk : r * C + c < R * C) by nia.
  destruct Hp as [->|(Dp & Hwp & Hip)].
  - fold g.
    assert (Ev : atOf h (PDense m) r c = inr (valOf h (PDense m) r c)).
    { apply atOf_valOf; [exact Hwf|simpl; fold g; lia..]. }
    simpl in Ev. fold g in Ev.
    apply denseAtOf_sliceGet in Ev; [|lia..].
    destruct (wfGeneral_cell h g r c Hwf) as [Hidx _]; [lia..|].
    rewrite Hd in *. rewrite sliceGet_Slice in *. simpl in Hidx.
    apply Nat.ltb_lt in Hidx as Hb. rewrite Hb in *.
    rewrite <- Ev.
    destruct Hf as (_ & _ & _ & _ & Hrest & _).
    specialize (Hrest (r * C + c) (le_n _) Hk).
    rewrite rowMajor_rc in Hrest by exact Hc.
    rewrite <- Nat.add_assoc in Hrest. exact Hrest.
  - simpl in Dp. injection Dp as HRp HCp.
    apply denseAtOf_sliceGet; [lia..|].
    assert (Hsome : forall k, k < R * C ->
              is_Some (cellAt h am (rowMajor off (General.Stride g) C k))).
    { intros k Hk'. subst R C. eapply dense_cells_ok; eauto. }
    assert (Hinw : forall k, k < R * C ->
              inWin (General.Data g) am (rowMajor off (General.Stride g) C k)).
    { intros k Hk'. subst R C. eapply dense_cells_ok; eauto. }
    pose proof (operand_under_fill h h' m (General.Data g) am _ _ _ _ (PDense p) Hf
                  Hsome Hinw Hwp Hip r c) as E.
    simpl in E. rewrite (filledTo_getDense _ _ _ _ _ _ _ p Hf) in E.
    rewrite E. change (atOf h (PDense p) r c = inr (valOf h (PDense p) r c)).
    apply atOf_valOf; [exact Hwp|simpl; lia..].
Qed.

(** Add and Sub on plain dense operands, each of which may be the receiver
    itself. *)
Lemma elementwise_dense_aliasing op h m pa pb R C :
  let g := CDense.mat (getDense h m) in
  wfGeneral h g -> General.Rows g = R -> General.Cols g = C ->
  R <> 0 -> C <> 0 -> General.Stride g <> 0 ->
  (pa = m \/ (DimsOf h (PDense pa) = (R, C) /\ wfM h (PDense pa)
              /\ indep h m (General.Data g) (PDense pa))) ->
  (pb = m \/ (DimsOf h (PDense pb) = (R, C) /\ wfM h (PDense pb)
              /\ indep h m (General.Data g) (PDense pb))) ->
  exists h',
    elementwise op m (PDense pa) (PDense pb) h = Ok tt h'
    /\ getDense h' m = getDense h m
    /\ length (arrays h') = length (arrays h)
    /\ (forall r c, r < R -> c < C ->
          atOf h' (PDense m) r c
          = inr (op (valOf h (PDense pa) r c) (valOf h (PDense pb) r c)))
    /\ (forall a, wfM h a -> indep h m (General.Data g) a ->
          forall i j, atOf h' a i j = atOf h a i j).
Proof.
  intros g Hwf HR HC HR0 HC0 HS Hpa Hpb. subst R C.
  set (R := General.Rows g) in *. set (C := General.Cols g) in *.
  assert (HR : General.Rows g = R) by reflexivity.
  assert (HC : General.Cols g = C) by reflexivity.
  assert (Dm : DimsOf h (PDense m) = (R, C)) by (simpl; fold g; congruence).
  assert (Da : DimsOf h (PDense pa) = (R, C)) by (destruct Hpa as [->|[? _]]; assumption).
  assert (Db : DimsOf h (PDense pb) = (R, C)) by (destruct Hpb as [->|[? _]]; assumption).
  assert (Hwa : wfM h (PDense pa)) by (destruct Hpa as [->|(_ & ? & _)]; assumption).
  assert (Hwb : wfM h (PDense pb)) by (destruct Hpb as [->|(_ & ? & _)]; assumption).
  unfold elementwise, Dims.
  unfold bind at 1, gets at 1. rewrite Da.
  unfold bind at 1, gets at 1. rewrite Db.
  rewrite !Nat.eqb_refl. cbn [negb orb untransposeExtractCmplx].
  assert (Er : CDense_reuseAsNonZeroed m R C h = Ok tt h).
  { rewrite <- HR, <- HC. apply reuse_same_shape; fold g; congruence. }
  rewrite (bind_Ok _ _ _ _ _ Er).
  unfold denseMat at 1. unfold bind at 1, gets at 1.
  unfold denseMat at 1. unfold bind at 1, gets at 1.
  set (ga := CDense.mat (getDense h pa)). set (gb := CDense.mat (getDense h pb)).
  assert (Eo : forall (b : bool) x (k : unit -> M unit),
             bind (if b then bind (CDense_checkOverlap m x) (fun _ => ret tt)
                   else ret tt) k h = k tt h).
  { intros b x k. destruct b; [|reflexivity].
    destruct (CDense_checkOverlap_ok m x h) as (bo & Eb).
    unfold bind at 1. unfold bind at 1. rewrite Eb. reflexivity. }
  rewrite Eo, Eo.
  destruct (wfGeneral_Slice h g Hwf) as (am & off & l & cp & Hd); [lia|].
  destruct (denseRows_fill_at h m g am off l cp) with (op := op) (ga := ga) (gb := gb)
    (fa := valOf h (PDense pa)) (fb := valOf h (PDense pb)) as (h2 & E2 & Hf2).
  - destruct (getDense h m) as [g0] eqn:Eg. reflexivity.
  - exact Hwf.
  - exact Hd.
  - lia.
  - simpl in Hwa, Da. fold ga in Hwa, Da. injection Da as HRa HCa.
    destruct Hwa as (_ & Hcs & _). lia.
  - simpl in Hwa, Da. fold ga in Hwa, Da. injection Da as HRa HCa.
    destruct Hwa as (_ & _ & Hlen). fold R C. rewrite HRa, HCa in Hlen. exact Hlen.
  - eapply wfGeneral_len_cap. exact Hwa.
  - intros h' r c Hf Hr Hc. split.
    + eapply (operand_read_in_place h m pa R C am off l cp); eassumption.
    + rewrite Nat.add_comm.
      eapply (operand_read_in_place h m pb R C am off l cp); eassumption.
  - exists h2. split; [exact E2|].
    assert (Hg2 : getDense h2 m = getDense h m)
      by (apply (filledTo_getDense _ _ _ _ _ _ _ m Hf2)).
    split; [exact Hg2|]. split; [apply Hf2|].
    split.
    + intros r c Hr Hc. simpl. rewrite Hg2. fold g.
      rewrite (filled_rowMajor_read h h2 g am off l cp _ r c Hwf Hd Hf2 Hr Hc).
      fold C. destruct (divmod_rc r c C Hc) as [-> ->]. reflexivity.
    + intros a Hw Hi i j.
      apply (operand_under_fill h h2 m (General.Data g) am _ _ _ _ a Hf2);
        try assumption.
      * intros k Hk. eapply dense_cells_ok; eauto.
      * intros k Hk. eapply dense_cells_ok; eauto.
Qed.

(** X14 -- Add and Sub work in place: with the receiver as one of two plain
    dense operands, m.Add(m, b), m.Sub(m, b) and m.Sub(b, m) return, each
    entry of m being computed from the entries that m and b had before the
    call; b is not changed and nothing is allocated. *)
Theorem Add_Sub_in_place h m b R C :
  let g := CDense.mat (getDense h m) in
  wfGeneral h g -> General.Rows g = R -> General.Cols g = C ->
  R <> 0 -> C <> 0 -> General.Stride g <> 0 ->
  DimsOf h (PDense b) = (R, C) -> wfM h (PDense b) ->
  indep h m (General.Data g) (PDense b) ->
  (exists h',
     CDense_Add m (PDense m) (PDense b) h = Ok tt h'
     /\ getDense h' m = getDense h m
     /\ length (arrays h') = length (arrays h)
     /\ (forall r c, r < R -> c < C ->
           atOf h' (PDense m) r c
           = inr (cadd (valOf h (PDense m) r c) (valOf h (PDense b) r c)))
     /\ (forall i j, atOf h' (PDense b) i j = atOf h (PDense b) i j))
  /\ (exists h',
        CDense_Sub m (PDense m) (PDense b) h = Ok tt h'
        /\ getDense h' m = getDense h m
        /\ length (arrays h') = length (arrays h)
        /\ (forall r c, r < R -> c < C ->
              atOf h' (PDense m) r c
              = inr (csub (valOf h (PDense m) r c) (valOf h (PDense b) r c)))
        /\ (forall i j, atOf h' (PDense b) i j = atOf h (PDense b) i j))
  /\ (exists h',
        CDense_Sub m (PDense b) (PDense m) h = Ok tt h'
        /\ getDense h' m = getDense h m
        /\ length (arrays h') = length (arrays h)
        /\ (forall r c, r < R -> c < C ->
              atOf h' (PDense m) r c
              = inr (csub (valOf h (PDense b) r c) (valOf h (PDense m) r c)))
        /\ (forall i j, atOf h' (PDense b) i j = atOf h (PDense b) i j)).
Proof.
  intros g Hwf HR HC HR0 HC0 HS Db Hwb Hib.
  assert (Hb : b = m \/ (DimsOf h (PDense b) = (R, C) /\ wfM h (PDense b)
                         /\ indep h m (General.Data g) (PDense b))) by auto.
  assert (Hm : m = m \/ (DimsOf h (PDense m) = (R, C) /\ wfM h (PDense m)
                         /\ indep h m (General.Data g) (PDense m))) by auto.
  split; [|split].
  - destruct (elementwise_dense_aliasing cadd h m m b R C Hwf HR HC HR0 HC0 HS Hm Hb)
      as (h' & E & Hg & Hl & Hv & Hfr).
    exists h'. unfold CDense_Add. repeat (split; [assumption|]).
    apply Hfr; assumption.
  - destruct (elementwise_dense_aliasing csub h m m b R C Hwf HR HC HR0 HC0 HS Hm Hb)
      as (h' & E & Hg & Hl & Hv & Hfr).
    exists h'. unfold CDense_Sub. repeat (split; [assumption|]).
    apply Hfr; assumption.
  - destruct (elementwise_dense_aliasing csub h m b m R C Hwf HR HC HR0 HC0 HS Hb Hm)
      as (h' & E & Hg & Hl & Hv & Hfr).
    exists h'. unfold CDense_Sub. repeat (split; [assumption|]).
    apply Hfr; assumption.
Qed.

Lemma Add_Sub_in_place_witness :
  (exists h',
     CDense_Add 0 (PDense 0) (PDense 1) heapABC = Ok tt h'
     /\ getDense h' 0 = getDense heapABC 0
     /\ length (arrays h') = length (arrays heapABC)
     /\ (forall r c, r < 2 -> c < 2 ->
           atOf h' (PDense 0) r c
           = inr (cadd (valOf heapABC (PDense 0) r c) (valOf heapABC (PDense 1) r c)))
     /\ (forall i j, atOf h' (PDense 1) i j = atOf heapABC (PDense 1) i j))
  /\ (exists h',
        CDense_Sub 0 (PDense 0) (PDense 1) heapABC = Ok tt h'
        /\ getDense h' 0 = getDense heapABC 0
        /\ length (arrays h') = length (arrays heapABC)
        /\ (forall r c, r < 2 -> c < 2 ->
              atOf h' (PDense 0) r c
              = inr (csub (valOf heapABC (PDense 0) r c) (valOf heapABC (PDense 1) r c)))
        /\ (forall i j, atOf h' (PDense 1) i j = atOf heapABC (PDense 1) i j))
  /\ (exists h',
        CDense_Sub 0 (PDense 1) (PDense 0) heapABC = Ok tt h'
        /\ getDense h' 0 = getDense heapABC 0
        /\ length (arrays h') = length (arrays heapABC)
        /\ (forall r c, r < 2 -> c < 2 ->
              atOf h' (PDense 0) r c
              = inr (csub (valOf heapABC (PDense 1) r c) (valOf heapABC (PDense 0) r c)))
        /\ (forall i j, atOf h' (PDense 1) i j = atOf heapABC (PDense 1) i j)).
Proof.
  apply (Add_Sub_in_place heapABC 0 1 2 2).
  - split; [|vm_compute; lia]. split; [lia|]. intros i Hi. apply heapABC_cells. exact Hi.
  - reflexivity.
  - reflexivity.
  - lia.
  - lia.
  - vm_compute. lia.
  - reflexivity.
  - split; [|vm_compute; lia]. split; [lia|]. intros i Hi. apply heapABC_cells. exact Hi.
  - split; [lia|]. intros x i [-> _] [E _]. discriminate.
Defined.
(** ** Scale into a separate receiver *)

Lemma colMajor_qi off S R q i :
  i < R -> colMajor off S R (q * R + i) = off + i * S + q.
Proof.
  intros Hi. unfold colMajor. destruct (divmod_rc q i R Hi) as [-> ->]. reflexivity.
Qed.

Section ScaleColsTarget.
(** A well-formed dense destination [m] with struct [g] in the store [h1],
    filled column by column. *)
Variables (h1 : Heap) (m : ptr) (g : General.t) (am off l cp : nat).
Hypothesis Hg : getDense h1 m = CDense.mk g.
Hypothesis Hwf : wfGeneral h1 g.
Hypothesis Hd : General.Data g = Slice am off l cp.

Let R := General.Rows g.
Let C := General.Cols g.
Let St := General.Stride g.
Let pos := colMajor off St R.

Lemma colMajor_cell k :
  k < C * R ->
  (k mod R) * St + k / R < l
  /\ is_Some (cellAt h1 am (pos k))
  /\ inWin (General.Data g) am (pos k).
Proof.
  intros Hk.
  assert (HR : R <> 0) by (intros E; rewrite E in Hk; lia).
  pose proof (div_lt_cells _ _ _ Hk) as Hc.
  pose proof (Nat.mod_upper_bound k _ HR) as Hr.
  destruct (wfGeneral_cell h1 g _ _ Hwf Hr Hc) as [Hidx Hs].
  destruct Hwf as (Hv & _). rewrite Hd in *. simpl in Hv, Hidx, Hs.
  destruct Hv as [Hlc _].
  split; [exact Hidx|].
  apply Nat.ltb_lt in Hidx as Hb. rewrite Hb in Hs.
  unfold pos, colMajor. rewrite <- Nat.add_assoc. split; [exact Hs|].
  simpl. split; [reflexivity|]. fold R St. lia.
Qed.

Lemma colMajor_inj k k' :
  k < C * R -> k' < C * R -> pos k = pos k' -> k = k'.
Proof.
  intros Hk Hk' E. unfold pos, colMajor in E.
  assert (HR : R <> 0) by (intros E0; rewrite E0 in Hk; lia).
  pose proof (div_lt_cells _ _ _ Hk) as Hc.
  pose proof (div_lt_cells _ _ _ Hk') as Hc'.
  assert (HCS : C <= St) by (destruct Hwf as (_ & H & _); exact H).
  destruct (strided_inj St (k mod R) (k / R) (k' mod R) (k' / R)) as [E1 E2];
    [lia|lia|lia|].
  rewrite (Nat.div_mod_eq k R), (Nat.div_mod_eq k' R). rewrite E1, E2. reflexivity.
Qed.

Lemma filled_colMajor_read h val r c :
  filledTo h1 h am pos (C * R) val (C * R) ->
  r < R -> c < C ->
  denseAtOf h g r c = inr (val (c * R + r)).
Proof.
  intros Hf Hr Hc.
  destruct (wfGeneral_cell h1 g r c Hwf Hr Hc) as [Hidx _].
  unfold denseAtOf. apply Nat.leb_gt in Hr as Hr', Hc as Hc'.
  fold R C. rewrite Hr', Hc'.
  rewrite Hd in *. simpl in Hidx. rewrite sliceGet_Slice.
  apply Nat.ltb_lt in Hidx as Hb. rewrite Hb.
  destruct Hf as (_ & _ & _ & _ & _ & Hdone).
  specialize (Hdone (c * R + r)). unfold pos in Hdone.
  rewrite colMajor_qi in Hdone by assumption.
  rewrite Nat.add_assoc. fold St. rewrite Hdone; [reflexivity|]. nia.
Qed.

(** The loop of Scale over the rows of a transposed operand [ga], which is
    [C] x [R]. *)
Lemma scaleCols_fill f ga fa :
  let val k := cmul (fa (k / R) (k mod R)) f in
  R <> 0 -> General.Stride ga <> 0 ->
  (C - 1) * General.Stride ga + R <= len (General.Data ga) ->
  len (General.Data ga) <= cap (General.Data ga) ->
  (forall h n q i, filledTo h1 h am pos (C * R) val n -> q < C -> i < R ->
     sliceGet h (General.Data ga) (q * General.Stride ga + i) = Some (fa q i)) ->
  exists h2, scaleCols m f R C ga h1 = Ok tt h2
             /\ filledTo h1 h2 am pos (C * R) val (C * R).
Proof.
  intros val HR HSa Hlen Hcap Hread. unfold scaleCols.
  set (Sa := General.Stride ga) in *.
  pose (I := fun (q : nat) (s : nat * nat) (h : Heap) =>
               let '(ja, jm) := s in
               ja = q * Sa /\ jm = q
               /\ filledTo h1 h am pos (C * R) val (q * R)).
  match goal with
  | |- exists h2, forLoop _ ?cond ?post ?body _ _ = _ /\ _ =>
      destruct (forLoop_inv I cond post body C) with (extra := 0)
        (s := (0, 0)) (h := h1) as (s' & h2 & E & Hi)
  end.
  - intros q [ja jm] h Hq (-> & -> & Hf). split.
    { apply Nat.ltb_lt. fold Sa. nia. }
    assert (Hrow : q * Sa + R <= cap (General.Data ga)).
    { assert (q * Sa <= (C - 1) * Sa) by (apply Nat.mul_le_mono_r; lia). lia. }
    destruct (fill_range h1 am pos (C * R) val
                (fun i => bind (readSlice (reslice (General.Data ga) (q * Sa) (q * Sa + R)) i)
                   (fun v => bind (denseMat m) (fun g' =>
                         writeSlice (General.Data g') (i * General.Stride g' + q)
                           (cmul v f))))
                (q * R) R 0 h) as (h3 & E3 & Hf3).
    + intros k k' Hk Hk'. apply colMajor_inj; assumption.
    + intros k Hk. apply colMajor_cell. exact Hk.
    + nia.
    + intros i h' Hi Hf'. cbn [Nat.add].
      pose proof (Hread h' _ q i Hf' Hq Hi) as Ea.
      assert (Hrd : sliceGet h' (reslice (General.Data ga) (q * Sa) (q * Sa + R)) i
                    = Some (fa q i)).
      { rewrite sliceGet_reslice; [exact Ea|lia|].
        assert (q * Sa <= (C - 1) * Sa) by (apply Nat.mul_le_mono_r; lia). lia. }
      rewrite (bind_Ok _ _ _ _ _ (readSlice_ok _ _ _ _ Hrd)).
      assert (Hk : q * R + i < C * R) by nia.
      destruct (colMajor_cell _ Hk) as (Hidx & Hs & _).
      destruct (divmod_rc q i R Hi) as [Ediv Emod].
      rewrite Ediv, Emod in Hidx.
      unfold val. rewrite Ediv, Emod.
      unfold pos at 1. rewrite colMajor_qi by assumption.
      unfold bind, denseMat, gets.
      rewrite (filledTo_getDense _ _ _ _ _ _ _ m Hf'), Hg. cbn [CDense.mat].
      rewrite Hd. fold St. rewrite <- Nat.add_assoc.
      apply writeSlice_ok; [exact Hidx|].
      rewrite Nat.add_assoc. rewrite <- (colMajor_qi off St R q i Hi).
      exact (filledTo_is_Some h1 h' am pos (C * R) val _ _ Hf' Hk Hs).
    + exact Hf.
    + exists h3. split.
      { assert (Es : sliceExpr (General.Data ga) (q * Sa) (q * Sa + R) h
                     = Ok (reslice (General.Data ga) (q * Sa) (q * Sa + R)) h).
        { unfold sliceExpr.
          assert (E1 : (q * Sa <=? q * Sa + R) = true) by (apply Nat.leb_le; lia).
          assert (E2 : (q * Sa + R <=? cap (General.Data ga)) = true)
            by (apply Nat.leb_le; lia).
          rewrite E1, E2. reflexivity. }
        rewrite (bind_Ok _ _ _ _ _ Es).
        unfold rangeSlice.
        assert (El : len (reslice (General.Data ga) (q * Sa) (q * Sa + R)) = R).
        { revert Hlen. destruct (General.Data ga); simpl; lia. }
        rewrite El. exact E3. }
      exists (Datatypes.S q * Sa, Datatypes.S q), h3. split.
      { unfold ret. f_equal. f_equal; lia. }
      unfold I. split; [reflexivity|]. split; [reflexivity|].
      replace (Datatypes.S q * R) with (q * R + R) by lia. exact Hf3.
  - intros [ja jm] h (-> & _). apply Nat.ltb_ge. fold Sa. lia.
  - unfold I. split; [lia|]. split; [lia|]. apply filledTo_start.
  - destruct s' as [ja jm]. destruct Hi as (_ & _ & Hf).
    exists h2. rewrite Nat.add_0_r in E. split; assumption.
Qed.
End ScaleColsTarget.

(** Storage that is separate does not overlap. *)
Lemma intersect_sep s1 s2 :
  sep s1 s2 -> 0 < len s1 <= cap s1 -> 0 < len s2 <= cap s2 ->
  intersect s1 s2 = false.
Proof.
  intros Hsep H1 H2.
  destruct s1 as [|a1 o1 l1 c1], s2 as [|a2 o2 l2 c2]; try reflexivity.
  simpl in *.
  destruct (a1 =? a2) eqn:Ea; [|reflexivity]. apply Nat.eqb_eq in Ea. subst a2.
  destruct (o1 <? o2 + l2) eqn:E1; [|reflexivity].
  destruct (o2 <? o1 + l1) eqn:E2; [|reflexivity].
  apply Nat.ltb_lt in E1, E2. exfalso.
  destruct (Nat.le_ge_cases o1 o2).
  - apply (Hsep a1 o2); unfold inWin; (split; [reflexivity|lia]).
  - apply (Hsep a1 o1); unfold inWin; (split; [reflexivity|lia]).
Qed.

Lemma CDense_checkOverlap_sep h m ga :
  let g := CDense.mat (getDense h m) in
  sep (General.Data g) (General.Data ga) ->
  0 < len (General.Data g) <= cap (General.Data g) ->
  0 < len (General.Data ga) <= cap (General.Data ga) ->
  CDense_checkOverlap m ga h = Ok false h.
Proof.
  intros g Hsep H1 H2. unfold CDense_checkOverlap, denseMat, bind, gets, ret.
  fold g. rewrite (intersect_sep _ _ Hsep H1 H2). reflexivity.
Qed.

Lemma wfGeneral_len_pos h g :
  wfGeneral h g -> General.Cols g <> 0 ->
  0 < len (General.Data g) <= cap (General.Data g).
Proof.
  intros Hwf HC. pose proof (wfGeneral_len_cap h g Hwf).
  destruct Hwf as (_ & _ & Hl).
  pose proof (Nat.le_0_l ((General.Rows g - 1) * General.Stride g)). lia.
Qed.

(** X15 -- Scale of a dense matrix or of its transposed view into a receiver
    that is empty or of the right shape and shares no storage with the
    operand: the receiver holds every entry of the operand times f, and the
    operand is not changed. *)
Theorem Scale_into_separate_receiver h m pa t f R C :
  DimsOf h (viewOf t pa) = (R, C) -> R <> 0 -> C <> 0 ->
  wfM h (PDense pa) -> destOK h m R C ->
  indep h m (General.Data (CDense.mat (getDense h m))) (PDense pa) ->
  exists h',
    CDense_Scale m f (viewOf t pa) h = Ok tt h'
    /\ DimsOf h' (PDense m) = (R, C)
    /\ (forall r c, r < R -> c < C ->
          atOf h' (PDense m) r c = inr (cmul (valOf h (viewOf t pa) r c) f))
    /\ (forall i j, atOf h' (PDense pa) i j = atOf h (PDense pa) i j).
Proof.
  intros Da HR HC Hwa Hdest Hia.
  unfold CDense_Scale, Dims. unfold bind at 1, gets at 1. rewrite Da.
  destruct (CDense_reuseAsNonZeroed_spec h m R C Hdest HR HC)
    as (h1 & g1 & E1 & Hg1 & HR1 & HC1 & HS1 & Hwf1 & Hdense & Hdiag & _ & Hag & Hwin & _).
  rewrite (bind_Ok _ _ _ _ _ E1).
  assert (Hdiag' : forall p, getDiag h1 p = getDiag h p)
    by (intros p; unfold getDiag; rewrite Hdiag; reflexivity).
  set (s0 := General.Data (CDense.mat (getDense h m))) in *.
  pose proof (agree_weaken _ _ s0 Hag) as Hag0.
  assert (Hwa1 : wfM h1 (PDense pa)) by (eapply wfM_agree; eassumption).
  assert (Hia1 : indep h1 m (General.Data g1) (PDense pa))
    by (eapply indep_reuse; eassumption).
  assert (Ea1 : forall i j, atOf h1 (PDense pa) i j = atOf h (PDense pa) i j)
    by (apply (atOf_agree h h1 m s0); assumption).
  assert (Hne : pa <> m) by (destruct Hia; assumption).
  assert (Hga : getDense h1 pa = getDense h pa) by (apply Hdense; exact Hne).
  assert (Eu : untransposeExtractCmplx (viewOf t pa) = (PDense pa, t, false))
    by (destruct t; reflexivity).
  rewrite Eu. unfold denseMat at 1. unfold bind at 1, gets at 1.
  cbn [isPtr]. assert ((pa =? m) = false) as -> by (apply Nat.eqb_neq; exact Hne).
  set (ga := CDense.mat (getDense h1 pa)).
  assert (Hdims : DimsOf h (PDense pa) = if t then (C, R) else (R, C)).
  { destruct t; simpl in Da |- *; [|exact Da].
    injection Da as <- <-. reflexivity. }
  assert (HRa : General.Rows ga = if t then C else R).
  { unfold ga. rewrite Hga. simpl in Hdims. destruct t; congruence. }
  assert (HCa : General.Cols ga = if t then R else C).
  { unfold ga. rewrite Hga. simpl in Hdims. destruct t; congruence. }
  assert (Hwga : wfGeneral h1 ga) by exact Hwa1.
  assert (Eo : CDense_checkOverlap m ga h1 = Ok false h1).
  { apply CDense_checkOverlap_sep.
    - rewrite Hg1. cbn [CDense.mat]. destruct Hia1 as [_ Hs]. exact Hs.
    - rewrite Hg1. cbn [CDense.mat]. apply (wfGeneral_len_pos h1); [exact Hwf1|lia].
    - apply (wfGeneral_len_pos h1); [exact Hwga|]. rewrite HCa. destruct t; lia. }
  rewrite (bind_Ok _ _ _ _ _ Eo).
  destruct (wfGeneral_Slice h1 g1 Hwf1) as (am & off & l & cp & Hd1); [lia|].
  assert (Hfin : forall h2,
            getDense h2 m = CDense.mk g1 -> agree h1 h2 (General.Data g1) ->
            cdenses h2 = cdenses h1 -> cdiags h2 = cdiags h1 ->
            (forall r c, r < R -> c < C ->
               atOf h2 (PDense m) r c = inr (cmul (valOf h (viewOf t pa) r c) f)) ->
            DimsOf h2 (PDense m) = (R, C)
            /\ (forall r c, r < R -> c < C ->
                  atOf h2 (PDense m) r c = inr (cmul (valOf h (viewOf t pa) r c) f))
            /\ (forall i j, atOf h2 (PDense pa) i j = atOf h (PDense pa) i j)).
  { intros h2 Hg2 Hag2 Hcd Hcg Hv.
    split; [simpl; rewrite Hg2; simpl; congruence|]. split; [exact Hv|].
    intros i j. rewrite <- Ea1.
    apply (atOf_agree h1 h2 m (General.Data g1)); try assumption.
    - intros p _. unfold getDense. rewrite Hcd. reflexivity.
    - intros p. unfold getDiag. rewrite Hcg. reflexivity. }
  destruct t; cbn [scaleDense negb].
  - (* the transposed view: the loop over the columns of the receiver *)
    destruct (scaleCols_fill h1 m g1 am off l cp Hg1 Hwf1 Hd1 f ga
                (valOf h1 (PDense pa))) as (h2 & E2 & Hf2).
    + lia.
    + destruct Hwga as (_ & Hcs & _). rewrite HCa in Hcs. lia.
    + destruct Hwga as (_ & _ & Hlen). rewrite HRa, HCa in Hlen. rewrite HR1, HC1.
      exact Hlen.
    + eapply wfGeneral_len_cap. exact Hwga.
    + intros h2 n q i Hf Hq Hi.
      apply denseAtOf_sliceGet; [rewrite HRa; lia|rewrite HCa; lia|].
      pose proof (operand_under_fill h1 h2 m (General.Data g1) am _ _ _ n (PDense pa) Hf)
        as E.
      simpl in E. rewrite (filledTo_getDense _ _ _ _ _ _ _ pa Hf) in E. fold ga in E.
      rewrite E; try assumption.
      * change (atOf h1 (PDense pa) q i = inr (valOf h1 (PDense pa) q i)).
        apply atOf_valOf; [exact Hwa1|simpl; fold ga; lia..].
      * intros k Hk. apply (colMajor_cell h1 g1 am off l cp Hwf1 Hd1 k Hk).
      * intros k Hk. apply (colMajor_cell h1 g1 am off l cp Hwf1 Hd1 k Hk).
    + rewrite HR1, HC1 in E2. exists h2. split; [exact E2|].
      assert (Hg2 : getDense h2 m = CDense.mk g1)
        by (rewrite (filledTo_getDense _ _ _ _ _ _ _ m Hf2); exact Hg1).
      apply (Hfin h2); try assumption.
      * eapply filledTo_agree; [exact Hf2| |];
          intros k Hk; apply (colMajor_cell h1 g1 am off l cp Hwf1 Hd1 k Hk).
      * apply Hf2.
      * apply Hf2.
      * intros r c Hr Hc. simpl. rewrite Hg2. cbn [CDense.mat].
        rewrite (filled_colMajor_read h1 g1 am off l cp Hwf1 Hd1 h2 _ r c Hf2);
          try lia.
        rewrite HR1. destruct (divmod_rc c r R Hr) as [-> ->].
        unfold valOf. rewrite Ea1. reflexivity.
  - (* the plain operand: the loop over the rows *)
    destruct (scaleRows_spec h1 m g1 pa f R C Hg1 Hwf1 HR1 HC1 HC) as
      (h2 & E2 & Hg2 & Hag2 & Hcd & Hcg & Hv); try assumption.
    { simpl. fold ga. rewrite HRa, HCa. reflexivity. }
    exists h2. split; [exact E2|].
    apply (Hfin h2); try assumption.
    intros r c Hr Hc. rewrite (Hv r c Hr Hc). unfold valOf.
    cbn [viewOf]. rewrite Ea1. reflexivity.
Qed.

Lemma Scale_into_separate_receiver_witness :
  exists h',
    CDense_Scale 2 (Cx 0 1) (viewOf true 0) heapRowCol = Ok tt h'
    /\ DimsOf h' (PDense 2) = (2, 1)
    /\ (forall r c, r < 2 -> c < 1 ->
          atOf h' (PDense 2) r c
          = inr (cmul (valOf heapRowCol (viewOf true 0) r c) (Cx 0 1)))
    /\ (forall i j, atOf h' (PDense 0) i j = atOf heapRowCol (PDense 0) i j).
Proof.
  apply (Scale_into_separate_receiver heapRowCol 2 0 true (Cx 0 1) 2 1).
  - reflexivity.
  - lia.
  - lia.
  - split; [|vm_compute; lia]. split; [vm_compute; lia|]. intros i Hi.
    vm_compute in Hi.
    do 2 (destruct i as [|i]; [vm_compute; eauto|]). lia.
  - split; [vm_compute; lia|]. split; [exact I|]. left. reflexivity.
  - split; [lia|]. intros x i Hw _. exact Hw.
Defined.
(** ** Shape panics of Scale *)

Lemma neverShape_scaleDense m f ar ac t ga : neverShape (scaleDense m f ar ac t ga).
Proof.
  unfold scaleDense, scaleRows, scaleCols.
  destruct (negb t); apply neverShape_forLoop.
  - intros [ja jm]. apply neverShape_bind; [apply neverShape_denseMat|].
    intros g. apply neverShape_ret.
  - intros [ja jm]. apply neverShape_bind; [apply neverShape_sliceExpr|].
    intros row. apply neverShape_rangeSlice. intros i v.
    apply neverShape_bind; [apply neverShape_denseMat|].
    intros g. apply neverShape_writeSlice.
  - intros [ja jm]. apply neverShape_ret.
  - intros [ja jm]. apply neverShape_bind; [apply neverShape_sliceExpr|].
    intros row. apply neverShape_rangeSlice. intros i v.
    apply neverShape_bind; [apply neverShape_denseMat|].
    intros g. apply neverShape_writeSlice.
Qed.

(** X16 -- Scale panics with ErrShape exactly when its receiver is not
    empty and has not the dimensions of the operand (these being non-zero);
    the store is then left as it was. *)
Theorem Scale_ShapeMismatch m f a h h' :
  CDense_Scale m f a h = Panic ErrShape h'
  <-> h' = h /\ destMismatch h m (DimsOf h a).1 (DimsOf h a).2.
Proof.
  unfold CDense_Scale, Dims. unfold bind at 1, gets at 1.
  destruct (DimsOf h a) as [ar ac]. cbn [fst snd].
  unfold bind at 1.
  destruct (CDense_reuseAsNonZeroed m ar ac h) as [[] h1|e h1] eqn:Er.
  - split.
    + intros E. exfalso. revert E.
      match goal with
      | |- ?rest h1 = _ -> _ => assert (Hn : neverShape rest)
      end.
      { destruct (untransposeExtractCmplx a) as [[aU aTrans] aConj].
        destruct aU;
          repeat first
            [ apply neverShape_workspace; intros
            | apply neverShape_scaleDense
            | apply neverShape_At
            | apply neverShape_set
            | apply neverShape_checkOverlap
            | apply neverShape_checkOverlapMatrix
            | apply neverShape_denseMat
            | apply neverShape_ret
            | apply neverShape_forRange; intros
            | match goal with |- neverShape (if ?c then _ else _) => destruct c end
            | apply neverShape_bind; [|intros] ]. }
      intros E. exact (Hn _ _ _ E eq_refl).
    + intros [_ Hm].
      assert (E : CDense_reuseAsNonZeroed m ar ac h = Panic ErrShape h)
        by (apply CDense_reuseAsNonZeroed_shape; auto).
      congruence.
  - split.
    + intros E. injection E as -> ->.
      apply CDense_reuseAsNonZeroed_shape in Er. exact Er.
    + intros [-> Hm].
      assert (E : CDense_reuseAsNonZeroed m ar ac h = Panic ErrShape h)
        by (apply CDense_reuseAsNonZeroed_shape; auto).
      congruence.
Qed.
(** ** Scale of an operand that is not dense *)

(** X17 -- Scale accepts any operand: when the operand is not a dense
    matrix under its views (a diagonal matrix, say), the generic loop through
    At and set fills the receiver with f times every entry of the operand,
    zeros of a diagonal operand included. *)
Theorem Scale_generic_operand h m a f R C :
  isDense (untransposeExtractCmplx a).1.1 = false ->
  DimsOf h a = (R, C) -> R <> 0 -> C <> 0 ->
  wfM h a -> destOK h m R C ->
  indep h m (General.Data (CDense.mat (getDense h m))) a ->
  exists h',
    CDense_Scale m f a h = Ok tt h'
    /\ DimsOf h' (PDense m) = (R, C)
    /\ (forall r c, r < R -> c < C ->
          atOf h' (PDense m) r c = inr (cmul f (valOf h a r c)))
    /\ (forall i j, atOf h' a i j = atOf h a i j).
Proof.
  intros Hnd Da HR HC Hwa Hdest Hia.
  unfold CDense_Scale, Dims. unfold bind at 1, gets at 1. rewrite Da.
  destruct (CDense_reuseAsNonZeroed_spec h m R C Hdest HR HC)
    as (h1 & g1 & E1 & Hg1 & HR1 & HC1 & HS1 & Hwf1 & Hdense & Hdiag & _ & Hag & Hwin & _).
  rewrite (bind_Ok _ _ _ _ _ E1).
  assert (Hdiag' : forall p, getDiag h1 p = getDiag h p)
    by (intros p; unfold getDiag; rewrite Hdiag; reflexivity).
  set (s0 := General.Data (CDense.mat (getDense h m))) in *.
  pose proof (agree_weaken _ _ s0 Hag) as Hag0.
  assert (Hwa1 : wfM h1 a) by (eapply wfM_agree; eassumption).
  assert (Hia1 : indep h1 m (General.Data g1) a) by (eapply indep_reuse; eassumption).
  assert (Ea1 : forall i j, atOf h1 a i j = atOf h a i j)
    by (apply (atOf_agree h h1 m s0); assumption).
  assert (Da1 : DimsOf h1 a = (R, C))
    by (rewrite (DimsOf_agree h h1 m s0); assumption).
  destruct (wfGeneral_Slice h1 g1 Hwf1) as (am & off & l & cp & Hd1); [lia|].
  set (pos := rowMajor off (General.Stride g1) (General.Cols g1)).
  set (val := fun k => cmul f (valOf h1 a (k / General.Cols g1) (k mod General.Cols g1))).
  assert (Hsome : forall k, k < General.Rows g1 * General.Cols g1 ->
                            is_Some (cellAt h1 am (pos k)))
    by (intros k Hk; eapply dense_cells_ok; eauto).
  assert (Hinw : forall k, k < General.Rows g1 * General.Cols g1 ->
                           inWin (General.Data g1) am (pos k))
    by (intros k Hk; eapply dense_cells_ok; eauto).
  assert (Hgen : exists h',
     bind (CDense_checkOverlapMatrix m a) (fun _ =>
       forRange R 0 (fun r => forRange C 0 (fun c =>
         bind (At a r c) (fun x => CDense_set m r c (cmul f x))))) h1 = Ok tt h'
     /\ DimsOf h' (PDense m) = (R, C)
     /\ (forall r c, r < R -> c < C ->
           atOf h' (PDense m) r c = inr (cmul f (valOf h a r c)))
     /\ (forall i j, atOf h' a i j = atOf h a i j)).
  { destruct (CDense_checkOverlapMatrix_ok m a h1) as (bo & Eo).
    rewrite (bind_Ok _ _ _ _ _ Eo).
    destruct (fill_nested h1 am pos val
                (fun r c => bind (At a r c) (fun x => CDense_set m r c (cmul f x)))
                (General.Rows g1) (General.Cols g1) h1) as (h2 & E2 & Hf2).
    - apply (target_inj h1 g1 off Hwf1).
    - exact Hsome.
    - intros r c h2 Hr Hc Hf.
      assert (Ea : atOf h2 a r c = inr (valOf h1 a r c)).
      { rewrite (operand_under_fill h1 h2 m (General.Data g1) am pos _ val _ a Hf);
          try assumption.
        apply atOf_valOf; [assumption|rewrite Da1; simpl; lia..]. }
      rewrite (bind_Ok _ _ _ _ _ (At_ok _ _ _ _ _ Ea)).
      assert (Hk : r * General.Cols g1 + c < General.Rows g1 * General.Cols g1) by nia.
      destruct (dense_cells_ok h1 g1 am off l cp _ Hwf1 Hd1 Hk) as (Hidx & Hs & _).
      destruct (divmod_rc r c (General.Cols g1) Hc) as [Ediv Emod].
      rewrite Ediv, Emod in Hidx.
      unfold val. rewrite Ediv, Emod.
      unfold pos at 1. rewrite rowMajor_rc by assumption. rewrite <- Nat.add_assoc.
      apply (CDense_set_store h2 m g1 am off l cp); try assumption.
      + rewrite (filledTo_getDense _ _ _ _ _ _ _ m Hf). exact Hg1.
      + rewrite Nat.add_assoc.
        rewrite <- (rowMajor_rc off (General.Stride g1) (General.Cols g1) r c Hc).
        exact (filledTo_is_Some h1 h2 am pos _ val _ _ Hf Hk Hs).
    - apply filledTo_start.
    - rewrite HR1, HC1 in E2. exists h2. split; [exact E2|].
      assert (Hg2 : getDense h2 m = CDense.mk g1)
        by (rewrite (filledTo_getDense _ _ _ _ _ _ _ m Hf2); exact Hg1).
      split; [simpl; rewrite Hg2; simpl; congruence|].
      split.
      + intros r c Hr Hc. simpl. rewrite Hg2. cbn [CDense.mat].
        rewrite (filled_rowMajor_read h1 h2 g1 am off l cp val r c); try assumption;
          try lia.
        unfold val. destruct (divmod_rc r c (General.Cols g1)) as [-> ->]; [lia|].
        unfold valOf. rewrite Ea1. reflexivity.
      + intros i j.
        rewrite (operand_under_fill h1 h2 m (General.Data g1) am pos _ val _ a Hf2);
          try assumption. apply Ea1. }
  destruct (untransposeExtractCmplx a) as [[aU aTrans] aConj].
  cbn [fst] in Hnd.
  destruct aU; try discriminate Hnd; exact Hgen.
Qed.

Lemma heapDenseDiag_cells : is_Some (cellAt heapDenseDiag 1 0).
Proof. vm_compute. eauto. Qed.

Lemma Scale_generic_operand_witness :
  exists h',
    CDense_Scale 0 (Cx 0 1) (PDiag 0) heapDenseDiag = Ok tt h'
    /\ DimsOf h' (PDense 0) = (1, 1)
    /\ (forall r c, r < 1 -> c < 1 ->
          atOf h' (PDense 0) r c
          = inr (cmul (Cx 0 1) (valOf heapDenseDiag (PDiag 0) r c)))
    /\ (forall i j, atOf h' (PDiag 0) i j = atOf heapDenseDiag (PDiag 0) i j).
Proof.
  apply (Scale_generic_operand heapDenseDiag 0 (PDiag 0) (Cx 0 1) 1 1).
  - reflexivity.
  - reflexivity.
  - lia.
  - lia.
  - split; [|vm_compute; lia]. split; [vm_compute; lia|]. intros i Hi.
    vm_compute in Hi. destruct i as [|i]; [exact heapDenseDiag_cells|lia].
  - split; [vm_compute; lia|]. split.
    + split; [vm_compute; lia|]. intros i Hi. vm_compute in Hi.
      destruct i as [|i]; [vm_compute; eauto|lia].
    + right. split; [vm_compute; lia|]. split; [reflexivity|]. split; [reflexivity|].
      apply heapDenseDiag_wf0.
  - intros x i [-> _] [E _]. vm_compute in E. discriminate.
Defined.
(** ** Mul with the receiver as an operand *)

Section MulInPlace.
(** A well-formed, non-empty dense receiver [m] that is itself one of the
    plain dense operands [pa] (M x K) and [pb] (K x N) of Mul. *)
Variables (h : Heap) (m pa pb : ptr) (K : nat).
Hypothesis Hm : m < length (cdenses h).
Hypothesis Hwf : wfGeneral h (CDense.mat (getDense h m)).

Let g := CDense.mat (getDense h m).
Let M := General.Rows g.
Let N := General.Cols g.
Hypothesis HM : M <> 0.
Hypothesis HN : N <> 0.
Hypothesis Da : DimsOf h (PDense pa) = (M, K).
Hypothesis Db : DimsOf h (PDense pb) = (K, N).
Hypothesis Hwa : wfM h (PDense pa).
Hypothesis Hwb : wfM h (PDense pb).
Hypothesis Halias : pa = m \/ pb = m.

Let X := length (cdenses h).
Let gX := General.mk M N N (Slice (length (arrays h)) 0 (M * N) (M * N)).
Let hw := withFresh h M N.
Let ga := CDense.mat (getDense h pa).
Let gb := CDense.mat (getDense h pb).

Lemma mul_operand_known p r c :
  DimsOf h (PDense p) = (r, c) -> r <> 0 \/ c <> 0 -> p < length (cdenses h).
Proof.
  intros Dp Hrc. destruct (Nat.lt_ge_cases p (length (cdenses h))) as [Hp|Hp]; [exact Hp|].
  exfalso. simpl in Dp. unfold getDense in Dp.
  rewrite lookup_ge_None_2 in Dp by exact Hp. simpl in Dp.
  injection Dp as <- <-. destruct Hrc; congruence.
Qed.

(** The operands are not touched by the allocation of the workspace and
    share no storage with it. *)
Lemma mul_operand_in_workspace p :
  p < length (cdenses h) -> wfM h (PDense p) ->
  getDense hw p = getDense h p
  /\ wfM hw (PDense p)
  /\ indep hw X (General.Data gX) (PDense p)
  /\ (forall i j, atOf hw (PDense p) i j = atOf h (PDense p) i j).
Proof.
  intros Hp Hwp.
  pose proof (withFresh_getDense_old h m p Hp) as Eg. fold g M N hw in Eg.
  pose proof (withFresh_agree h m) as Hag. fold g M N hw in Hag.
  assert (Hw : wfM hw (PDense p)).
  { simpl. rewrite Eg. destruct Hwp as (Hv & Hrest). split; [|exact Hrest].
    eapply validSlice_agree; [exact Hag|exact Hv]. }
  split; [exact Eg|]. split; [exact Hw|]. split.
  - simpl. split; [unfold X; lia|]. rewrite Eg.
    intros x i H1 H2. destruct H1 as [-> _].
    destruct Hwp as (Hv & _).
    pose proof (validSlice_inWin h _ _ _ Hv H2) as [v Hs].
    rewrite cellAt_fresh in Hs. discriminate.
  - intros i j. simpl. rewrite Eg. unfold denseAtOf.
    destruct Hwp as (Hv & _).
    rewrite (sliceGet_agree h hw nilSlice); try assumption; try reflexivity.
    intros x k [].
Qed.

Lemma Mul_in_place_unfold :
  CDense_Mul m (PDense pa) (PDense pb) h
  = defer (bind (CDense_Copy m (PDense X)) (fun _ => ret tt))
      (Gemm NoTrans NoTrans cone ga gb czero gX) hw.
Proof.
  assert (Hpa : pa < length (cdenses h)) by (apply (mul_operand_known pa M K Da); auto).
  assert (Hpb : pb < length (cdenses h)) by (apply (mul_operand_known pb K N Db); auto).
  assert (Dm : DimsOf h (PDense m) = (M, N)) by reflexivity.
  unfold CDense_Mul, Dims. unfold bind at 1, gets at 1. rewrite Da.
  unfold bind at 1, gets at 1. rewrite Db. rewrite Nat.eqb_refl. cbn [negb].
  cbn [untransposeExtractCmplx].
  assert (HS : General.Stride g <> 0)
    by (destruct Hwf as (_ & Hcs & _); fold g in Hcs; fold N in Hcs; lia).
  rewrite (bind_Ok _ _ _ _ _ (reuse_same_shape h m HM HN HS)).
  assert (Ews : CDense_isolatedWorkspace m (PDense m) h
                = Ok (X, bind (CDense_Copy m (PDense X)) (fun _ => ret tt)) hw).
  { unfold CDense_isolatedWorkspace, Dims. unfold bind at 1, gets at 1. rewrite Dm.
    reflexivity. }
  assert (Ek : mulKernel X false (PDense pa) (PDense pb) NoTrans NoTrans hw
               = Gemm NoTrans NoTrans cone ga gb czero gX hw).
  { unfold mulKernel, denseMat, bind, gets, ret. cbv beta.
    destruct (mul_operand_in_workspace pa Hpa Hwa) as (-> & _).
    destruct (mul_operand_in_workspace pb Hpb Hwb) as (-> & _).
    pose proof (withFresh_getDense_new h m Hm HM HN) as E. fold g M N hw X in E.
    rewrite E. reflexivity. }
  cbn [isPtr].
  destruct (pa =? m) eqn:Epa.
  - apply Nat.eqb_eq in Epa. subst pa.
    rewrite (bind_Ok _ _ _ _ _ Ews). unfold defer. rewrite Ek. reflexivity.
  - destruct Halias as [-> | ->]; [rewrite Nat.eqb_refl in Epa; discriminate|].
    rewrite Nat.eqb_refl.
    rewrite (bind_Ok _ _ _ _ _ Ews). unfold defer. rewrite Ek. reflexivity.
Qed.

(** With the receiver as an operand, the kernel computes into the workspace
    and the deferred restore copies the product into the receiver. *)
Lemma Mul_in_place_spec :
  exists h',
    CDense_Mul m (PDense pa) (PDense pb) h = Ok tt h'
    /\ getDense h' m = getDense h m
    /\ (forall i j, i < M -> j < N ->
          atOf h' (PDense m) i j
          = inr (cadd (cmul cone (dotSum (valOf h (PDense pa)) (valOf h (PDense pb))
                                    i j K 0 czero))
                      (cmul czero czero))).
Proof.
  assert (Hpa : pa < length (cdenses h)) by (apply (mul_operand_known pa M K Da); auto).
  assert (Hpb : pb < length (cdenses h)) by (apply (mul_operand_known pb K N Db); auto).
  destruct (mul_operand_in_workspace pa Hpa Hwa) as (Ega & Hwaw & Hiaw & Eaw).
  destruct (mul_operand_in_workspace pb Hpb Hwb) as (Egb & Hwbw & Hibw & Ebw).
  pose proof (withFresh_wf_new h m Hm HM HN) as HwfX. fold g M N hw gX in HwfX.
  pose proof (withFresh_getDense_new h m Hm HM HN) as HgX. fold g M N hw gX X in HgX.
  pose proof (withFresh_getDense_old h m m Hm) as Egm. fold g M N hw in Egm.
  pose proof (withFresh_wf_old h m Hwf) as Hwfm. fold g M N hw in Hwfm.
  pose proof (withFresh_sep_sym h m Hwf) as Hsep. fold g M N gX in Hsep.
  set (am := length (arrays h)).
  assert (HdX : General.Data gX = Slice am 0 (M * N) (M * N)) by reflexivity.
  set (pos := rowMajor 0 (General.Stride gX) (General.Cols gX)).
  assert (Hsome : forall k, k < General.Rows gX * General.Cols gX ->
                            is_Some (cellAt hw am (pos k)))
    by (intros k Hk; eapply dense_cells_ok; eauto).
  assert (Hinw : forall k, k < General.Rows gX * General.Cols gX ->
                           inWin (General.Data gX) am (pos k))
    by (intros k Hk; eapply dense_cells_ok; eauto).
  assert (HdA : opDims NoTrans ga = (General.Rows gX, K)) by exact Da.
  assert (HdB : opDims NoTrans gb = (K, General.Cols gX)) by exact Db.
  destruct (Gemm_fill hw gX am 0 (M * N) (M * N) HwfX HdX NoTrans NoTrans cone czero
              ga gb K (valOf h (PDense pa)) (valOf h (PDense pb)) HdA HdB)
    as (h2 & E2 & Hf2).
  { intros h2 n i j x Hf Hi Hj Hx. cbn [General.Rows General.Cols gX] in Hi, Hj.
    pose proof (operand_under_fill hw h2 X (General.Data gX) am _ _ _ n (PDense pa) Hf
                  Hsome Hinw Hwaw Hiaw i x) as Sa.
    pose proof (operand_under_fill hw h2 X (General.Data gX) am _ _ _ n (PDense pb) Hf
                  Hsome Hinw Hwbw Hibw x j) as Sb.
    rewrite Eaw in Sa. rewrite Ebw in Sb.
    rewrite (atOf_valOf h (PDense pa) i x Hwa) in Sa by (rewrite Da; simpl; lia).
    rewrite (atOf_valOf h (PDense pb) x j Hwb) in Sb by (rewrite Db; simpl; lia).
    simpl in Sa, Sb.
    rewrite (filledTo_getDense _ _ _ _ _ _ _ pa Hf), Ega in Sa.
    rewrite (filledTo_getDense _ _ _ _ _ _ _ pb Hf), Egb in Sb.
    simpl in Da, Db. injection Da as HRa HCa. injection Db as HRb HCb.
    unfold ga, gb.
    split; simpl; apply denseAtOf_sliceGet; try assumption; lia. }
  assert (Hag2 : agree hw h2 (General.Data gX))
    by (eapply filledTo_agree; eassumption).
  assert (Hgm2 : getDense h2 m = CDense.mk g).
  { rewrite (filledTo_getDense _ _ _ _ _ _ _ m Hf2), Egm. unfold g.
    destruct (getDense h m). reflexivity. }
  assert (HgX2 : getDense h2 X = CDense.mk gX)
    by (rewrite (filledTo_getDense _ _ _ _ _ _ _ X Hf2); exact HgX).
  destruct (CDense_Copy_spec h2 m g (PDense X) M N) as (h3 & E3 & Hg3 & Hv3).
  - exact Hgm2.
  - destruct Hwfm as (Hv & Hrest). split; [|exact Hrest].
    eapply validSlice_agree; [exact Hag2|exact Hv].
  - reflexivity.
  - reflexivity.
  - exact HN.
  - simpl. rewrite HgX2. reflexivity.
  - simpl. rewrite HgX2. cbn [CDense.mat].
    destruct HwfX as (Hv & Hrest). split; [|exact Hrest].
    eapply validSlice_agree; [exact Hag2|exact Hv].
  - simpl. rewrite HgX2. cbn [CDense.mat]. split; [unfold X; lia|exact Hsep].
  - exists h3. split; [|split].
    + rewrite Mul_in_place_unfold. fold X ga gb gX hw. unfold defer. rewrite E2.
      unfold bind. rewrite E3. reflexivity.
    + rewrite Hg3. unfold g. destruct (getDense h m). reflexivity.
    + intros i j Hi Hj. rewrite (Hv3 i j Hi Hj). f_equal.
      unfold valOf. simpl. rewrite HgX2. cbn [CDense.mat].
      rewrite (filled_rowMajor_read hw h2 gX am 0 (M * N) (M * N) _ i j HwfX HdX Hf2 Hi Hj).
      cbn [General.Cols General.Stride gX].
      destruct (divmod_rc i j N Hj) as [-> ->].
      f_equal. f_equal.
      unfold cellVal. rewrite rowMajor_rc by exact Hj.
      assert (Hlt : 0 + i * N + j < M * N) by nia.
      pose proof (cellAt_make_new h (M * N) (0 + i * N + j) Hlt) as Hc.
      unfold cellAt, hw, withFresh, am in *. cbn [arrays] in *. rewrite Hc.
      reflexivity.
Qed.
End MulInPlace.

(** The resize of a receiver declared as [var c mat.CDense]: a zero-filled
    buffer is allocated. *)
Lemma reuse_nil_receiver h c r k :
  c < length (cdenses h) -> getDense h c = CDense.zero -> r <> 0 -> k <> 0 ->
  exists h1,
    CDense_reuseAsNonZeroed c r k h = Ok tt h1
    /\ forall i j, i < r -> j < k -> valOf h1 (PDense c) i j = czero.
Proof.
  intros Hc Hz Hr Hk.
  set (gc := General.mk r k k (Slice (length (arrays h)) 0 (r * k) (r * k))).
  exists (mkHeap (arrays h ++ [replicate (r * k) czero])
            (<[c := CDense.mk gc]> (cdenses h)) (cdiags h)).
  split.
  - unfold CDense_reuseAsNonZeroed.
    apply Nat.eqb_neq in Hr as Hr', Hk as Hk'. rewrite Hr', Hk'. cbn [orb].
    unfold CDense_IsEmpty, denseMat, bind, gets, ret. rewrite Hz.
    cbn [CDense.mat CDense.zero General.zero General.Stride General.Data Nat.eqb].
    unfold useC. cbv beta iota. rewrite ?Hz.
    cbn [CDense.mat CDense.zero General.zero General.Stride General.Data cap].
    assert (Hrc : (r * k <=? 0) = false) by (apply Nat.leb_gt; nia).
    rewrite Hrc. reflexivity.
  - intros i j Hi Hj.
    match goal with |- valOf ?hn _ _ _ = _ =>
      assert (Eg : getDense hn c = CDense.mk gc)
    end.
    { unfold getDense. cbn [cdenses].
      rewrite list_lookup_insert_eq by exact Hc. reflexivity. }
    unfold valOf. cbn [atOf]. rewrite Eg. cbn [CDense.mat].
    unfold denseAtOf, gc. cbn [General.Rows General.Cols General.Stride General.Data].
    apply Nat.leb_gt in Hi as Hi', Hj as Hj'. rewrite Hi', Hj'.
    rewrite sliceGet_Slice.
    assert (Hlt : i * k + j < r * k) by nia.
    apply Nat.ltb_lt in Hlt as Hb. rewrite Hb.
    pose proof (cellAt_make_new h (r * k) (0 + (i * k + j)) Hlt) as E.
    unfold cellAt in *. cbn [arrays] in *. rewrite E. reflexivity.
Qed.

(** X18 -- Mul with the receiver as one of two plain dense operands,
    m.Mul(m, b) or m.Mul(a, m): the product is computed in a workspace and
    copied into m when Mul returns, so that m ends with the entries that the
    same call puts into a separate, empty receiver c -- the kernel's
    1*(sum over l of a(i,l)*b(l,j)) + 0*0, from the entries that the operands
    had before the call. *)
Theorem Mul_in_place h m c pa pb K :
  let g := CDense.mat (getDense h m) in
  let M := General.Rows g in
  let N := General.Cols g in
  m < length (cdenses h) -> wfGeneral h g -> M <> 0 -> N <> 0 ->
  DimsOf h (PDense pa) = (M, K) -> DimsOf h (PDense pb) = (K, N) ->
  wfM h (PDense pa) -> wfM h (PDense pb) ->
  pa = m \/ pb = m ->
  c < length (cdenses h) -> getDense h c = CDense.zero ->
  exists h1 h2,
    CDense_Mul m (PDense pa) (PDense pb) h = Ok tt h1
    /\ CDense_Mul c (PDense pa) (PDense pb) h = Ok tt h2
    /\ getDense h1 m = getDense h m
    /\ DimsOf h2 (PDense c) = (M, N)
    /\ (forall i j, i < M -> j < N ->
          atOf h1 (PDense m) i j = atOf h2 (PDense c) i j
          /\ atOf h1 (PDense m) i j
             = inr (cadd (cmul cone (dotSum (valOf h (PDense pa)) (valOf h (PDense pb))
                                       i j K 0 czero))
                         (cmul czero czero))).
Proof.
  intros g M N Hm Hwf HM HN Da Db Hwa Hwb Halias Hc Hz.
  destruct (Mul_in_place_spec h m pa pb K Hm Hwf HM HN Da Db Hwa Hwb Halias)
    as (h1 & E1 & Hg1 & Hv1).
  destruct (reuse_nil_receiver h c M N Hc Hz HM HN) as (hr & Er & Hzero).
  assert (Hcm : c <> m).
  { intros ->. unfold M, g in HM. rewrite Hz in HM. simpl in HM. congruence. }
  assert (Hca : c <> pa).
  { intros ->. simpl in Da. rewrite Hz in Da. simpl in Da. injection Da as E _.
    congruence. }
  assert (Hcb : c <> pb).
  { intros ->. simpl in Db. rewrite Hz in Db. simpl in Db. injection Db as _ E.
    congruence. }
  destruct (Mul_dense_spec h c pa pb false M K N hr) as (h2 & E2 & D2 & Hv2 & _);
    try assumption.
  - split; [exact Hc|]. rewrite Hz. split; [exact I|]. left. reflexivity.
  - rewrite Hz. split; [congruence|]. intros x i [].
  - rewrite Hz. split; [congruence|]. intros x i [].
  - exists h1, h2. split; [exact E1|]. split; [exact E2|].
    split; [exact Hg1|]. split; [exact D2|].
    intros i j Hi Hj. fold g M N in Hv1. rewrite (Hv1 i j Hi Hj).
    split; [|reflexivity].
    cbn [viewOf] in Hv2. rewrite (Hv2 i j Hi Hj).
    rewrite (Hzero i j Hi Hj). reflexivity.
Qed.

Lemma Mul_in_place_witness :
  exists h1 h2,
    CDense_Mul 0 (PDense 0) (PDense 1) heapABC = Ok tt h1
    /\ CDense_Mul 2 (PDense 0) (PDense 1) heapABC = Ok tt h2
    /\ getDense h1 0 = getDense heapABC 0
    /\ DimsOf h2 (PDense 2)
       = (General.Rows (CDense.mat (getDense heapABC 0)),
          General.Cols (CDense.mat (getDense heapABC 0)))
    /\ (forall i j, i < General.Rows (CDense.mat (getDense heapABC 0)) ->
                    j < General.Cols (CDense.mat (getDense heapABC 0)) ->
          atOf h1 (PDense 0) i j = atOf h2 (PDense 2) i j
          /\ atOf h1 (PDense 0) i j
             = inr (cadd (cmul cone (dotSum (valOf heapABC (PDense 0))
                                       (valOf heapABC (PDense 1)) i j 2 0 czero))
                         (cmul czero czero))).
Proof.
  apply (Mul_in_place heapABC 0 2 0 1 2).
  - vm_compute. lia.
  - split; [|vm_compute; lia]. split; [lia|]. intros i Hi. apply heapABC_cells. exact Hi.
  - vm_compute. lia.
  - vm_compute. lia.
  - reflexivity.
  - reflexivity.
  - split; [|vm_compute; lia]. split; [lia|]. intros i Hi. apply heapABC_cells. exact Hi.
  - split; [|vm_compute; lia]. split; [lia|]. intros i Hi. apply heapABC_cells. exact Hi.
  - left. reflexivity.
  - vm_compute. lia.
  - reflexivity.
Defined.
(** ** The workspace of an operation on its own receiver *)

Section Workspace.
(** A well-formed, non-empty [R] x [C] dense receiver [m] in the store [h],
    and the workspace allocated for it: the fresh matrix at the address [X]
    in the store [hw]. *)
Variables (h : Heap) (m : ptr).
Hypothesis Hm : m < length (cdenses h).
Hypothesis Hwf : wfGeneral h (CDense.mat (getDense h m)).

Let g := CDense.mat (getDense h m).
Let R := General.Rows g.
Let C := General.Cols g.
Hypothesis HR : R <> 0.
Hypothesis HC : C <> 0.

Let X := length (cdenses h).
Let gX := General.mk R C C (Slice (length (arrays h)) 0 (R * C) (R * C)).
Let hw := withFresh h R C.

(** A dense operand of the store [h] reads the same in [hw] and shares no
    storage with the workspace. *)
Lemma workspace_operand p :
  p < length (cdenses h) -> wfM h (PDense p) ->
  getDense hw p = getDense h p
  /\ wfM hw (PDense p)
  /\ indep hw X (General.Data gX) (PDense p)
  /\ (forall i j, atOf hw (PDense p) i j = atOf h (PDense p) i j).
Proof.
  intros Hp Hwp.
  pose proof (withFresh_getDense_old h m p Hp) as Eg. fold g R C hw in Eg.
  pose proof (withFresh_agree h m) as Hag. fold g R C hw in Hag.
  assert (Hw : wfM hw (PDense p)).
  { simpl. rewrite Eg. destruct Hwp as (Hv & Hrest). split; [|exact Hrest].
    eapply validSlice_agree; [exact Hag|exact Hv]. }
  split; [exact Eg|]. split; [exact Hw|]. split.
  - simpl. split; [unfold X; lia|]. rewrite Eg.
    intros x i H1 H2. destruct H1 as [-> _].
    destruct Hwp as (Hv & _).
    pose proof (validSlice_inWin h _ _ _ Hv H2) as [v Hs].
    rewrite cellAt_fresh in Hs. discriminate.
  - intros i j. simpl. rewrite Eg. unfold denseAtOf.
    destruct Hwp as (Hv & _).
    rewrite (sliceGet_agree h hw nilSlice); try assumption; try reflexivity.
    intros x k [].
Qed.

Lemma workspace_alloc a :
  DimsOf h a = (R, C) ->
  CDense_isolatedWorkspace m a h
  = Ok (X, bind (CDense_Copy m (PDense X)) (fun _ => ret tt)) hw.
Proof.
  intros Da. unfold CDense_isolatedWorkspace, Dims. unfold bind at 1, gets at 1.
  rewrite Da. reflexivity.
Qed.

(** A body that fills the workspace and leaves the structs alone, followed
    by the deferred restore: the receiver ends with the entries of the
    workspace. *)
Lemma workspace_restore (body : M unit) (f : nat -> nat -> complex128) h2 :
  body hw = Ok tt h2 ->
  agree hw h2 (General.Data gX) ->
  cdenses h2 = cdenses hw ->
  (forall i j, i < R -> j < C -> atOf h2 (PDense X) i j = inr (f i j)) ->
  exists h3,
    defer (bind (CDense_Copy m (PDense X)) (fun _ => ret tt)) body hw = Ok tt h3
    /\ getDense h3 m = getDense h m
    /\ (forall i j, i < R -> j < C -> atOf h3 (PDense m) i j = inr (f i j)).
Proof.
  intros E2 Hag2 Hcd Hv2.
  pose proof (withFresh_wf_new h m Hm HR HC) as HwfX. fold g R C hw gX in HwfX.
  pose proof (withFresh_getDense_new h m Hm HR HC) as HgX. fold g R C hw gX X in HgX.
  pose proof (withFresh_getDense_old h m m Hm) as Egm. fold g R C hw in Egm.
  pose proof (withFresh_wf_old h m Hwf) as Hwfm. fold g R C hw in Hwfm.
  pose proof (withFresh_sep_sym h m Hwf) as Hsep. fold g R C gX in Hsep.
  assert (Hgm2 : getDense h2 m = CDense.mk g).
  { unfold getDense at 1. rewrite Hcd. fold (getDense hw m). rewrite Egm. unfold g.
    destruct (getDense h m). reflexivity. }
  assert (HgX2 : getDense h2 X = CDense.mk gX).
  { unfold getDense at 1. rewrite Hcd. exact HgX. }
  destruct (CDense_Copy_spec h2 m g (PDense X) R C) as (h3 & E3 & Hg3 & Hv3).
  - exact Hgm2.
  - destruct Hwfm as (Hv & Hrest). split; [|exact Hrest].
    eapply validSlice_agree; [exact Hag2|exact Hv].
  - reflexivity.
  - reflexivity.
  - exact HC.
  - simpl. rewrite HgX2. reflexivity.
  - simpl. rewrite HgX2. cbn [CDense.mat].
    destruct HwfX as (Hv & Hrest). split; [|exact Hrest].
    eapply validSlice_agree; [exact Hag2|exact Hv].
  - simpl. rewrite HgX2. cbn [CDense.mat]. split; [unfold X; lia|exact Hsep].
  - exists h3. split; [|split].
    + unfold defer. rewrite E2. unfold bind. rewrite E3. reflexivity.
    + rewrite Hg3. unfold g. destruct (getDense h m). reflexivity.
    + intros i j Hi Hj. rewrite (Hv3 i j Hi Hj). f_equal.
      unfold valOf. rewrite (Hv2 i j Hi Hj). reflexivity.
Qed.
End Workspace.

(** ** Add and Sub with a transposed view of the receiver as an operand *)

Lemma viewOf_facts h t p R :
  DimsOf h (PDense p) = (R, R) -> wfM h (PDense p) ->
  DimsOf h (viewOf t p) = (R, R)
  /\ wfM h (viewOf t p)
  /\ untransposeExtractCmplx (viewOf t p) = (PDense p, t, false)
  /\ (forall i j, i < R -> j < R ->
        atOf h (viewOf t p) i j = inr (valOf h (viewOf t p) i j)).
Proof.
  intros Dp Hwp.
  assert (Dv : DimsOf h (viewOf t p) = (R, R)).
  { destruct t; [|exact Dp]. simpl. simpl in Dp. injection Dp as -> ->. reflexivity. }
  assert (Hwv : wfM h (viewOf t p)) by (destruct t; exact Hwp).
  split; [exact Dv|]. split; [exact Hwv|]. split; [destruct t; reflexivity|].
  intros i j Hi Hj. apply atOf_valOf; [exact Hwv|rewrite Dv; simpl; lia..].
Qed.

Lemma elementwise_transposed_receiver op h m pa pb ta tb :
  let g := CDense.mat (getDense h m) in
  let R := General.Rows g in
  m < length (cdenses h) -> wfGeneral h g -> General.Cols g = R -> R <> 0 ->
  DimsOf h (PDense pa) = (R, R) -> DimsOf h (PDense pb) = (R, R) ->
  wfM h (PDense pa) -> wfM h (PDense pb) ->
  (ta = true /\ pa = m) \/ (tb = true /\ pb = m) ->
  exists h',
    elementwise op m (viewOf ta pa) (viewOf tb pb) h = Ok tt h'
    /\ getDense h' m = getDense h m
    /\ (forall r c, r < R -> c < R ->
          atOf h' (PDense m) r c
          = inr (op (valOf h (viewOf ta pa) r c) (valOf h (viewOf tb pb) r c))).
Proof.
  intros g R Hm Hwf HCR HR Da Db Hwa Hwb Halias.
  assert (HC : General.Cols g <> 0) by congruence.
  assert (Hpa : pa < length (cdenses h)) by (apply (mul_operand_known h pa R R Da); auto).
  assert (Hpb : pb < length (cdenses h)) by (apply (mul_operand_known h pb R R Db); auto).
  destruct (viewOf_facts h ta pa R Da Hwa) as (Dva & Hwva & Eua & Hva).
  destruct (viewOf_facts h tb pb R Db Hwb) as (Dvb & Hwvb & Eub & Hvb).
  set (X := length (cdenses h)).
  set (gX := General.mk R (General.Cols g) (General.Cols g)
               (Slice (length (arrays h)) 0 (R * General.Cols g) (R * General.Cols g))).
  set (hw := withFresh h R (General.Cols g)).
  set (a := viewOf ta pa) in *. set (b := viewOf tb pb) in *.
  (* the call reduces to the generic loop on the workspace *)
  assert (Eunf : elementwise op m a b h
                 = defer (bind (CDense_Copy m (PDense X)) (fun _ => ret tt))
                     (genericCells op X R R a b) hw).
  { unfold elementwise, Dims. unfold bind at 1, gets at 1. rewrite Dva.
    unfold bind at 1, gets at 1. rewrite Dvb.
    rewrite !Nat.eqb_refl. cbn [negb orb]. rewrite Eua, Eub.
    assert (HS : General.Stride g <> 0)
      by (destruct Hwf as (_ & Hcs & _); fold g in Hcs; lia).
    assert (Er : CDense_reuseAsNonZeroed m R R h = Ok tt h).
    { pose proof (reuse_same_shape h m HR HC HS) as E. fold g R in E.
      rewrite HCR in E. exact E. }
    rewrite (bind_Ok _ _ _ _ _ Er).
    assert (Dm : DimsOf h (PDense m) = (R, General.Cols g)) by reflexivity.
    pose proof (workspace_alloc h m (PDense m) Dm) as Ews. fold g R X hw in Ews.
    assert (Egen :
      bind (CDense_checkOverlapMatrix m (PDense pa)) (fun _ =>
        bind (CDense_checkOverlapMatrix m (PDense pb)) (fun _ =>
          if ta && isPtr m (PDense pa) then
            bind (CDense_isolatedWorkspace m (PDense pa)) (fun x =>
              match x with (w, restore) => defer restore (genericCells op w R R a b) end)
          else if tb && isPtr m (PDense pb) then
            bind (CDense_isolatedWorkspace m (PDense pb)) (fun x =>
              match x with (w, restore) => defer restore (genericCells op w R R a b) end)
          else genericCells op m R R a b)) h
      = defer (bind (CDense_Copy m (PDense X)) (fun _ => ret tt))
          (genericCells op X R R a b) hw).
    { destruct (CDense_checkOverlapMatrix_ok m (PDense pa) h) as (b1 & Eo1).
      destruct (CDense_checkOverlapMatrix_ok m (PDense pb) h) as (b2 & Eo2).
      rewrite (bind_Ok _ _ _ _ _ Eo1), (bind_Ok _ _ _ _ _ Eo2).
      cbn [isPtr].
      destruct (ta && (pa =? m)) eqn:E1.
      - apply andb_true_iff in E1 as [_ E1]. apply Nat.eqb_eq in E1. subst pa.
        rewrite (bind_Ok _ _ _ _ _ Ews). reflexivity.
      - destruct Halias as [[-> ->]|[-> ->]].
        + rewrite Nat.eqb_refl in E1. discriminate.
        + rewrite Nat.eqb_refl. cbn [andb].
          rewrite (bind_Ok _ _ _ _ _ Ews). reflexivity. }
    unfold a, b in *.
    destruct ta, tb; cbn [viewOf CDense_T] in *; try exact Egen.
    destruct Halias as [[? _]|[? _]]; discriminate. }
  (* the loop fills the workspace *)
  pose proof (withFresh_wf_new h m Hm HR HC) as HwfX. fold g R hw gX in HwfX.
  pose proof (withFresh_getDense_new h m Hm HR HC) as HgX. fold g R hw gX X in HgX.
  destruct (workspace_operand h m Hm HR HC pa Hpa Hwa) as (Ega & Hwaw & Hiaw & Eaw).
  destruct (workspace_operand h m Hm HR HC pb Hpb Hwb) as (Egb & Hwbw & Hibw & Ebw).
  fold g R hw gX X in Ega, Hwaw, Hiaw, Eaw, Egb, Hwbw, Hibw, Ebw.
  set (am := length (arrays h)).
  assert (HdX : General.Data gX = Slice am 0 (R * General.Cols g) (R * General.Cols g))
    by reflexivity.
  set (pos := rowMajor 0 (General.Stride gX) (General.Cols gX)).
  assert (Hsome : forall k, k < General.Rows gX * General.Cols gX ->
                            is_Some (cellAt hw am (pos k)))
    by (intros k Hk; eapply dense_cells_ok; eauto).
  assert (Hinw : forall k, k < General.Rows gX * General.Cols gX ->
                           inWin (General.Data gX) am (pos k))
    by (intros k Hk; eapply dense_cells_ok; eauto).
  assert (Hview : forall t p hx,
            (forall i j, atOf hx (PDense p) i j = atOf h (PDense p) i j) ->
            forall i j, atOf hx (viewOf t p) i j = atOf h (viewOf t p) i j).
  { intros t p hx Hx i j. destruct t; simpl; apply Hx. }
  destruct (genericCells_fill hw X gX am 0 (R * General.Cols g) (R * General.Cols g)
              HgX HwfX HdX op a b (valOf h a) (valOf h b)) as (h2 & E2 & Hf2).
  { intros h2 n r c Hf Hr Hc. cbn [General.Rows General.Cols gX] in Hr, Hc.
    rewrite HCR in Hc. split.
    - rewrite <- (Hva r c Hr Hc). apply Hview. intros i j.
      rewrite (operand_under_fill hw h2 X (General.Data gX) am _ _ _ n (PDense pa) Hf
                 Hsome Hinw Hwaw Hiaw i j). apply Eaw.
    - rewrite <- (Hvb r c Hr Hc). apply Hview. intros i j.
      rewrite (operand_under_fill hw h2 X (General.Data gX) am _ _ _ n (PDense pb) Hf
                 Hsome Hinw Hwbw Hibw i j). apply Ebw. }
  cbn [General.Rows General.Cols gX] in E2. rewrite HCR in E2.
  destruct (workspace_restore h m Hm Hwf HR HC (genericCells op X R R a b)
              (fun i j => op (valOf h a i j) (valOf h b i j)) h2) as (h3 & E3 & Hg3 & Hv3).
  - exact E2.
  - eapply filledTo_agree; eassumption.
  - apply Hf2.
  - intros i j Hi Hj. fold g R in Hi. fold g in Hj.
    change (denseAtOf h2 (CDense.mat (getDense h2 X)) i j
            = inr (op (valOf h a i j) (valOf h b i j))).
    rewrite (filledTo_getDense _ _ _ _ _ _ _ X Hf2), HgX.
    cbn [CDense.mat].
    rewrite (filled_rowMajor_read hw h2 gX am 0 _ _ _ i j HwfX HdX Hf2 Hi Hj).
    cbn [General.Cols gX]. destruct (divmod_rc i j (General.Cols g) Hj) as [-> ->].
    reflexivity.
  - exists h3. split; [rewrite Eunf; exact E3|]. split; [exact Hg3|].
    intros r c Hr Hc. apply Hv3; [exact Hr|]. fold g. rewrite HCR. exact Hc.
Qed.

(** X19 -- Add and Sub with a transposed view of the receiver among their
    operands, as in m.Add(m.T(), b) or m.Sub(a, m.T()) for a square m, each
    operand being m itself or a dense matrix whose storage shares no cell
    with that of m: the sums or differences are computed in a workspace and
    copied into m when the call returns, so that every entry of m is
    computed from the entries the operands had before the call. *)
Theorem Add_Sub_transposed_receiver h m pa pb ta tb :
  let g := CDense.mat (getDense h m) in
  let R := General.Rows g in
  m < length (cdenses h) -> wfGeneral h g -> General.Cols g = R -> R <> 0 ->
  DimsOf h (PDense pa) = (R, R) -> DimsOf h (PDense pb) = (R, R) ->
  wfM h (PDense pa) -> wfM h (PDense pb) ->
  (ta = true /\ pa = m) \/ (tb = true /\ pb = m) ->
  pa = m \/ indep h m (General.Data g) (PDense pa) ->
  pb = m \/ indep h m (General.Data g) (PDense pb) ->
  (exists h',
     CDense_Add m (viewOf ta pa) (viewOf tb pb) h = Ok tt h'
     /\ getDense h' m = getDense h m
     /\ (forall r c, r < R -> c < R ->
           atOf h' (PDense m) r c
           = inr (cadd (valOf h (viewOf ta pa) r c) (valOf h (viewOf tb pb) r c))))
  /\ (exists h',
        CDense_Sub m (viewOf ta pa) (viewOf tb pb) h = Ok tt h'
        /\ getDense h' m = getDense h m
        /\ (forall r c, r < R -> c < R ->
              atOf h' (PDense m) r c
              = inr (csub (valOf h (viewOf ta pa) r c) (valOf h (viewOf tb pb) r c)))).
Proof.
  intros g R Hm Hwf HCR HR Da Db Hwa Hwb Halias _ _. split.
  - exact (elementwise_transposed_receiver cadd h m pa pb ta tb
             Hm Hwf HCR HR Da Db Hwa Hwb Halias).
  - exact (elementwise_transposed_receiver csub h m pa pb ta tb
             Hm Hwf HCR HR Da Db Hwa Hwb Halias).
Qed.

Lemma Add_Sub_transposed_receiver_witness :
  (exists h',
     CDense_Add 0 (viewOf true 0) (viewOf false 1) heapABC = Ok tt h'
     /\ getDense h' 0 = getDense heapABC 0
     /\ (forall r c, r < General.Rows (CDense.mat (getDense heapABC 0)) ->
                     c < General.Rows (CDense.mat (getDense heapABC 0)) ->
           atOf h' (PDense 0) r c
           = inr (cadd (valOf heapABC (viewOf true 0) r c)
                       (valOf heapABC (viewOf false 1) r c))))
  /\ (exists h',
        CDense_Sub 0 (viewOf true 0) (viewOf false 1) heapABC = Ok tt h'
        /\ getDense h' 0 = getDense heapABC 0
        /\ (forall r c, r < General.Rows (CDense.mat (getDense heapABC 0)) ->
                        c < General.Rows (CDense.mat (getDense heapABC 0)) ->
              atOf h' (PDense 0) r c
              = inr (csub (valOf heapABC (viewOf true 0) r c)
                          (valOf heapABC (viewOf false 1) r c)))).
Proof.
  apply (Add_Sub_transposed_receiver heapABC 0 0 1 true false).
  - vm_compute. lia.
  - split; [|vm_compute; lia]. split; [lia|]. intros i Hi. apply heapABC_cells. exact Hi.
  - reflexivity.
  - vm_compute. lia.
  - reflexivity.
  - reflexivity.
  - split; [|vm_compute; lia]. split; [lia|]. intros i Hi. apply heapABC_cells. exact Hi.
  - split; [|vm_compute; lia]. split; [lia|]. intros i Hi. apply heapABC_cells. exact Hi.
  - left. split; reflexivity.
  - left. reflexivity.
  - right. split; [lia|]. intros x i [-> _] [E _]. discriminate.
Defined.

(** ** Scale with the transposed receiver as operand *)

(** X20 -- Scale of the transposed view of the receiver itself,
    m.Scale(f, m.T()) for a square m: the loop over the columns runs on a
    workspace, and m ends as f times its former transpose. *)
Theorem Scale_transposed_receiver h m f :
  let g := CDense.mat (getDense h m) in
  let R := General.Rows g in
  m < length (cdenses h) -> wfGeneral h g -> General.Cols g = R -> R <> 0 ->
  exists h',
    CDense_Scale m f (CDense_T m) h = Ok tt h'
    /\ getDense h' m = getDense h m
    /\ (forall r c, r < R -> c < R ->
          atOf h' (PDense m) r c = inr (cmul (valOf h (PDense m) c r) f)).
Proof.
  intros g R Hm Hwf HCR HR.
  assert (HC : General.Cols g <> 0) by congruence.
  assert (Hwm : wfM h (PDense m)) by exact Hwf.
  assert (Dm : DimsOf h (PDense m) = (R, General.Cols g)) by reflexivity.
  assert (Da : DimsOf h (CDense_T m) = (R, General.Cols g)).
  { unfold CDense_T. simpl. fold g R. rewrite HCR. reflexivity. }
  set (X := length (cdenses h)).
  set (gX := General.mk R (General.Cols g) (General.Cols g)
               (Slice (length (arrays h)) 0 (R * General.Cols g) (R * General.Cols g))).
  set (hw := withFresh h R (General.Cols g)).
  assert (HS : General.Stride g <> 0)
    by (destruct Hwf as (_ & Hcs & _); fold g in Hcs; lia).
  assert (Eunf : CDense_Scale m f (CDense_T m) h
                 = defer (bind (CDense_Copy m (PDense X)) (fun _ => ret tt))
                     (scaleCols X f R R g) hw).
  { unfold CDense_Scale, Dims. unfold bind at 1, gets at 1. rewrite Da. rewrite HCR.
    assert (Er : CDense_reuseAsNonZeroed m R R h = Ok tt h).
    { pose proof (reuse_same_shape h m HR HC HS) as E. fold g R in E.
      rewrite HCR in E. exact E. }
    rewrite (bind_Ok _ _ _ _ _ Er).
    cbn [CDense_T untransposeExtractCmplx].
    unfold denseMat at 1. unfold bind at 1, gets at 1. fold g.
    cbn [isPtr]. rewrite Nat.eqb_refl. unfold bind at 1, ret at 1.
    pose proof (workspace_alloc h m (CDense_T m) Da) as Ews. fold g R X hw in Ews.
    unfold CDense_T in Ews. rewrite (bind_Ok _ _ _ _ _ Ews). reflexivity. }
  pose proof (withFresh_wf_new h m Hm HR HC) as HwfX. fold g R hw gX in HwfX.
  pose proof (withFresh_getDense_new h m Hm HR HC) as HgX. fold g R hw gX X in HgX.
  destruct (workspace_operand h m Hm HR HC m Hm Hwm) as (Egm & Hwmw & Himw & Emw).
  fold g R hw gX X in Egm, Hwmw, Himw, Emw.
  set (am := length (arrays h)).
  assert (HdX : General.Data gX = Slice am 0 (R * General.Cols g) (R * General.Cols g))
    by reflexivity.
  assert (Hcell : forall k, k < General.Cols gX * General.Rows gX ->
            is_Some (cellAt hw am (colMajor 0 (General.Stride gX) (General.Rows gX) k))
            /\ inWin (General.Data gX) am
                 (colMajor 0 (General.Stride gX) (General.Rows gX) k)).
  { intros k Hk.
    destruct (colMajor_cell hw gX am 0 _ _ HwfX HdX k Hk) as (_ & H1 & H2). auto. }
  destruct (scaleCols_fill hw X gX am 0 (R * General.Cols g) (R * General.Cols g)
              HgX HwfX HdX f g (valOf h (PDense m))) as (h2 & E2 & Hf2).
  - exact HR.
  - exact HS.
  - cbn [General.Rows General.Cols gX].
    destruct Hwf as (_ & _ & Hlen). fold g in Hlen. fold R in Hlen.
    rewrite HCR in *. exact Hlen.
  - eapply wfGeneral_len_cap. exact Hwf.
  - intros h2 n q i Hf Hq Hi. cbn [General.Rows General.Cols gX] in Hq, Hi.
    rewrite HCR in Hq.
    apply denseAtOf_sliceGet; [exact Hq|rewrite HCR; exact Hi|].
    pose proof (operand_under_fill hw h2 X (General.Data gX) am _ _ _ n (PDense m) Hf
                  (fun k Hk => proj1 (Hcell k Hk)) (fun k Hk => proj2 (Hcell k Hk))
                  Hwmw Himw q i) as E.
    simpl in E. rewrite (filledTo_getDense _ _ _ _ _ _ _ m Hf), Egm in E. fold g in E.
    rewrite E.
    change (denseAtOf hw (CDense.mat (getDense h m)) q i
            = inr (valOf h (PDense m) q i)).
    rewrite <- Egm. change (atOf hw (PDense m) q i = inr (valOf h (PDense m) q i)).
    rewrite Emw. apply atOf_valOf; [exact Hwm|simpl; fold g; fold R; lia..].
  - cbn [General.Rows General.Cols gX] in E2. rewrite HCR in E2.
    destruct (workspace_restore h m Hm Hwf HR HC (scaleCols X f R R g)
                (fun i j => cmul (valOf h (PDense m) j i) f) h2)
      as (h3 & E3 & Hg3 & Hv3).
    + exact E2.
    + eapply filledTo_agree; [exact Hf2| |]; intros k Hk; apply Hcell; exact Hk.
    + apply Hf2.
    + intros i j Hi Hj. fold g R in Hi. fold g in Hj.
      change (denseAtOf h2 (CDense.mat (getDense h2 X)) i j
              = inr (cmul (valOf h (PDense m) j i) f)).
      rewrite (filledTo_getDense _ _ _ _ _ _ _ X Hf2), HgX. cbn [CDense.mat].
      rewrite (filled_colMajor_read hw gX am 0 _ _ HwfX HdX h2 _ i j Hf2 Hi Hj).
      cbn [General.Rows gX]. destruct (divmod_rc j i R Hi) as [-> ->]. reflexivity.
    + exists h3. split; [rewrite Eunf; exact E3|]. split; [exact Hg3|].
      intros r c Hr Hc. apply Hv3; [exact Hr|]. fold g. rewrite HCR. exact Hc.
Qed.

Lemma Scale_transposed_receiver_witness :
  exists h',
    CDense_Scale 0 (Cx 0 1) (CDense_T 0) heapABC = Ok tt h'
    /\ getDense h' 0 = getDense heapABC 0
    /\ (forall r c, r < General.Rows (CDense.mat (getDense heapABC 0)) ->
                    c < General.Rows (CDense.mat (getDense heapABC 0)) ->
          atOf h' (PDense 0) r c
          = inr (cmul (valOf heapABC (PDense 0) c r) (Cx 0 1))).
Proof.
  apply (Scale_transposed_receiver heapABC 0 (Cx 0 1)).
  - vm_compute. lia.
  - split; [|vm_compute; lia]. split; [lia|]. intros i Hi. apply heapABC_cells. exact Hi.
  - reflexivity.
  - vm_compute. lia.
Defined.
